(** * Secret lifecycle of the API credential manager

    A shallow embedding of
    - [frontend/src/utils/encryption.ts]      (AES-GCM wrapper, base64 helpers),
    - [frontend/src/utils/credentialVault.ts] (the credential vault),
    - the credential IPC handlers of the Electron backend,
    - [backend/ipc/oauthServer.ts]            (OAuth callback and polling),
    - [backend/ipc/automationIpc.ts]          (automation jobs),
    together with the platform functions they call ([TextEncoder],
    [TextDecoder], [btoa], [atob], plain-object property access). *)

From Stdlib Require Import ZArith Lia List.
From Stdlib.Strings Require Import Byte Ascii String.
From stdpp Require Import base option list gmap.

Local Open Scope Z_scope.

(** ** JavaScript strings and byte arrays *)

(** A JavaScript string is a sequence of UTF-16 code units. *)
Abbreviation jsstring := (list Z) (only parsing).

(** A [Uint8Array]. *)
Abbreviation bytes := (list byte) (only parsing).

#[global] Instance byte_eq_decision : EqDecision byte := Byte.byte_eq_dec.

Definition b2z (b : byte) : Z := Z.of_N (Byte.to_N b).

(** Storing a number into a [Uint8Array] slot keeps it modulo 256. *)
Definition z2b (z : Z) : byte :=
  match Byte.of_N (Z.to_N (z mod 256)) with
  | Some b => b
  | None => x00
  end.

(** The code units of an ASCII literal. *)
Definition js (s : String.string) : list Z :=
  map (fun a => Z.of_nat (Ascii.nat_of_ascii a)) (String.list_ascii_of_string s).

(** ** [btoa] and [atob] *)

Module Base64.

(** The character of a sextet in the base64 alphabet. *)
Definition char_of (n : Z) : Z :=
  if n <? 26 then 65 + n
  else if n <? 52 then 97 + (n - 26)
  else if n <? 62 then 48 + (n - 52)
  else if n =? 62 then 43
  else 47.

(** The sextet of a character of the alphabet. *)
Definition value_of (c : Z) : option Z :=
  if (65 <=? c) && (c <=? 90) then Some (c - 65)
  else if (97 <=? c) && (c <=? 122) then Some (c - 97 + 26)
  else if (48 <=? c) && (c <=? 57) then Some (c - 48 + 52)
  else if c =? 43 then Some 62
  else if c =? 47 then Some 63
  else None.

Definition pad : Z := 61.

Fixpoint encode (l : list Z) : list Z :=
  match l with
  | [] => []
  | [a] => [char_of (a / 4); char_of (a mod 4 * 16); pad; pad]
  | [a; b] =>
      [char_of (a / 4); char_of (a mod 4 * 16 + b / 16);
       char_of (b mod 16 * 4); pad]
  | a :: b :: c :: r =>
      char_of (a / 4) :: char_of (a mod 4 * 16 + b / 16)
      :: char_of (b mod 16 * 4 + c / 64) :: char_of (c mod 64)
      :: encode r
  end.

(** [btoa] throws [InvalidCharacterError] on a code unit above 255. *)
Definition btoa (s : list Z) : option (list Z) :=
  if forallb (fun u => (0 <=? u) && (u <? 256)) s then Some (encode s) else None.

Definition is_ascii_whitespace (c : Z) : bool :=
  (c =? 9) || (c =? 10) || (c =? 12) || (c =? 13) || (c =? 32).

(** Removes one or two trailing [=]. *)
Fixpoint strip_padding (s : list Z) : list Z :=
  match s with
  | [] => []
  | c :: r =>
      match r with
      | [] => if c =? pad then [] else [c]
      | [d] => if (c =? pad) && (d =? pad) then [] else c :: strip_padding r
      | _ => c :: strip_padding r
      end
  end.

Fixpoint sextets (s : list Z) : option (list Z) :=
  match s with
  | [] => Some []
  | c :: r =>
      match value_of c, sextets r with
      | Some v, Some vs => Some (v :: vs)
      | _, _ => None
      end
  end.

(** Groups of four sextets give three bytes; two or three left-over
    sextets give one or two bytes, the spare bits being discarded. *)
Fixpoint decode (l : list Z) : list Z :=
  match l with
  | a :: b :: c :: d :: r =>
      (a * 4 + b / 16) :: (b mod 16 * 16 + c / 4) :: (c mod 4 * 64 + d)
      :: decode r
  | [a; b; c] => [a * 4 + b / 16; b mod 16 * 16 + c / 4]
  | [a; b] => [a * 4 + b / 16]
  | _ => []
  end.

(** [atob]: the forgiving-base64 decode of the HTML standard; [None] is
    the [InvalidCharacterError] exception. *)
Definition atob (s : list Z) : option (list Z) :=
  let s1 := List.filter (fun c => negb (is_ascii_whitespace c)) s in
  let s2 := if Z.of_nat (length s1) mod 4 =? 0 then strip_padding s1 else s1 in
  if Z.of_nat (length s2) mod 4 =? 1 then None
  else decode <$> sextets s2.

(** A byte as a number. *)
Definition octet (x : Z) : Prop := 0 <= x < 256.

End Base64.

(** [arrayBufferToBase64]: one character per byte, then [btoa].  [None] is
    the exception 'Base64 conversion failed'. *)
Definition arrayBufferToBase64 (buffer : list byte) : option (list Z) :=
  Base64.btoa (map b2z buffer).

(** [base64ToArrayBuffer]: [atob], then one byte per character. *)
Definition base64ToArrayBuffer (base64 : list Z) : option (list byte) :=
  map z2b <$> Base64.atob base64.

(** ** [TextEncoder] and [TextDecoder] *)

Module Utf8.

Definition is_high (u : Z) : bool := (0xD800 <=? u) && (u <=? 0xDBFF).
Definition is_low (u : Z) : bool := (0xDC00 <=? u) && (u <=? 0xDFFF).

Definition replacement : Z := 0xFFFD.

(** The scalar values of a string: a surrogate pair is one code point, a
    lone surrogate becomes U+FFFD. *)
Fixpoint to_scalars (s : list Z) : list Z :=
  match s with
  | [] => []
  | u :: r =>
      if is_high u then
        match r with
        | v :: r' =>
            if is_low v
            then (0x10000 + (u - 0xD800) * 0x400 + (v - 0xDC00)) :: to_scalars r'
            else replacement :: to_scalars r
        | [] => [replacement]
        end
      else if is_low u then replacement :: to_scalars r
      else u :: to_scalars r
  end.

(** [String.prototype.isWellFormed]: no lone surrogate. *)
Fixpoint well_formed (s : list Z) : bool :=
  match s with
  | [] => true
  | u :: r =>
      if is_high u then
        match r with
        | v :: r' => is_low v && well_formed r'
        | [] => false
        end
      else negb (is_low u) && (0 <=? u) && (u <? 0x10000) && well_formed r
  end.

Definition encode_scalar (cp : Z) : list byte :=
  if cp <? 0x80 then [z2b cp]
  else if cp <? 0x800 then [z2b (0xC0 + cp / 64); z2b (0x80 + cp mod 64)]
  else if cp <? 0x10000 then
    [z2b (0xE0 + cp / 4096); z2b (0x80 + cp / 64 mod 64); z2b (0x80 + cp mod 64)]
  else
    [z2b (0xF0 + cp / 262144); z2b (0x80 + cp / 4096 mod 64);
     z2b (0x80 + cp / 64 mod 64); z2b (0x80 + cp mod 64)].

(** [new TextEncoder().encode(s)]. *)
Definition encode (s : list Z) : list byte :=
  flat_map encode_scalar (to_scalars s).

(** The state of the UTF-8 decoder of the Encoding standard. *)
Record decoder := {
  code_point : Z;
  bytes_seen : Z;
  bytes_needed : Z;
  lower_boundary : Z;
  upper_boundary : Z
}.

Definition initial : decoder :=
  {| code_point := 0; bytes_seen := 0; bytes_needed := 0;
     lower_boundary := 0x80; upper_boundary := 0xBF |}.

(** A byte read while no sequence is open. *)
Definition lead (b : Z) : list Z * decoder :=
  if b <=? 0x7F then ([b], initial)
  else if (0xC2 <=? b) && (b <=? 0xDF) then
    ([], {| code_point := Z.land b 0x1F; bytes_seen := 0; bytes_needed := 1;
            lower_boundary := 0x80; upper_boundary := 0xBF |})
  else if (0xE0 <=? b) && (b <=? 0xEF) then
    ([], {| code_point := Z.land b 0xF; bytes_seen := 0; bytes_needed := 2;
            lower_boundary := (if b =? 0xE0 then 0xA0 else 0x80);
            upper_boundary := (if b =? 0xED then 0x9F else 0xBF) |})
  else if (0xF0 <=? b) && (b <=? 0xF4) then
    ([], {| code_point := Z.land b 0x7; bytes_seen := 0; bytes_needed := 3;
            lower_boundary := (if b =? 0xF0 then 0x90 else 0x80);
            upper_boundary := (if b =? 0xF4 then 0x8F else 0xBF) |})
  else ([replacement], initial).

(** One byte: the code points emitted and the next state.  A byte that
    breaks an open sequence emits U+FFFD and is read again as a lead. *)
Definition step (d : decoder) (b : Z) : list Z * decoder :=
  if bytes_needed d =? 0 then lead b
  else if negb ((lower_boundary d <=? b) && (b <=? upper_boundary d)) then
    let '(out, d') := lead b in (replacement :: out, d')
  else
    let cp := Z.lor (Z.shiftl (code_point d) 6) (Z.land b 0x3F) in
    if bytes_seen d + 1 =? bytes_needed d then ([cp], initial)
    else ([], {| code_point := cp; bytes_seen := bytes_seen d + 1;
                 bytes_needed := bytes_needed d;
                 lower_boundary := 0x80; upper_boundary := 0xBF |}).

(** The whole queue; an open sequence at its end emits U+FFFD. *)
Fixpoint run (d : decoder) (l : list byte) : list Z :=
  match l with
  | [] => if bytes_needed d =? 0 then [] else [replacement]
  | b :: r => let '(out, d') := step d (b2z b) in out ++ run d' r
  end.

Definition of_scalar (cp : Z) : list Z :=
  if cp <? 0x10000 then [cp]
  else [0xD800 + (cp - 0x10000) / 0x400; 0xDC00 + (cp - 0x10000) mod 0x400].

(** The byte order mark is dropped unless [ignoreBOM] is set, and the
    constructor's default leaves it unset. *)
Definition strip_bom (l : list byte) : list byte :=
  match l with
  | b1 :: b2 :: b3 :: r =>
      if (b2z b1 =? 0xEF) && (b2z b2 =? 0xBB) && (b2z b3 =? 0xBF) then r else l
  | _ => l
  end.

(** [new TextDecoder().decode(l)]. *)
Definition decode (l : list byte) : list Z :=
  flat_map of_scalar (run initial (strip_bom l)).

(** A Unicode scalar value. *)
Definition scalar (cp : Z) : Prop :=
  0 <= cp < 0x110000 /\ ~ (0xD800 <= cp <= 0xDFFF).

End Utf8.

(** ** Exceptions *)

(** The messages of the [Error]s the modules throw. *)
Inductive exn :=
| Encryption_failed
| Decryption_failed
| Key_derivation_failed
| Export_failed
| Vault_is_not_initialized
| Random_string_generation_failed.

Inductive result (A : Type) :=
| Ok (a : A)
| Throw (e : exn).
Arguments Ok {A} a.
Arguments Throw {A} e.

(** ** The Web Crypto API

    [crypto.subtle] and [crypto.getRandomValues] are supplied by the
    runtime; the modules are read over this interface. *)
Class WebCrypto := {
  CryptoKey : Type;
  (** [subtle.encrypt({name: 'AES-GCM', iv}, key, data)]; [None] is a
      rejected promise. *)
  subtle_encrypt : CryptoKey -> list byte -> list byte -> option (list byte);
  (** [subtle.decrypt({name: 'AES-GCM', iv}, key, data)]. *)
  subtle_decrypt : CryptoKey -> list byte -> list byte -> option (list byte);
  (** [subtle.importKey] of the password followed by [subtle.deriveKey]
      with PBKDF2, the given salt, [PBKDF2_ITERATIONS] and [PBKDF2_HASH]. *)
  subtle_deriveKey : list byte -> list byte -> CryptoKey
}.

(** What the Web Cryptography standard fixes for AES-GCM with the default
    128-bit tag. *)
Class WebCryptoLaws `{WebCrypto} : Prop := {
  encrypt_succeeds : forall k iv data,
    iv <> [] -> is_Some (subtle_encrypt k iv data);
  decrypt_encrypt : forall k iv data c,
    subtle_encrypt k iv data = Some c -> subtle_decrypt k iv c = Some data;
  decrypt_needs_tag : forall k iv c,
    (length c < 16)%nat -> subtle_decrypt k iv c = None
}.

(** The entropy [crypto.getRandomValues] reads: an unbounded supply of
    bytes and the number already handed out. *)
Record Entropy := {
  supply : nat -> byte;
  drawn : nat
}.

(** [crypto.getRandomValues(new Uint8Array(n))] and, in the main
    process, [crypto.randomBytes(n)], for the lengths the modules pass as
    constants (8, 12, 16 and 32).  [crypto.getRandomValues] throws when it
    is asked for more than 65536 bytes: the one caller whose length is an
    argument, [generateRandomString], is modelled with that case. *)
Definition getRandomValues (n : nat) (e : Entropy) : list byte * Entropy :=
  (map (supply e) (seq (drawn e) n),
   {| supply := supply e; drawn := (drawn e + n)%nat |}).

(** ** encryption.ts *)

Definition SALT_LENGTH : nat := 32.
Definition IV_LENGTH : nat := 12.
Definition PBKDF2_ITERATIONS : Z := 100000.
Definition KEY_LENGTH : Z := 256.

Section Encryption.
Context `{WebCrypto}.

(** [deriveKeyFromPassword]: a salt is drawn when none is passed. *)
Definition deriveKeyFromPassword (password : list Z) (salt : option (list byte))
    (e : Entropy) : (CryptoKey * list byte) * Entropy :=
  let '(saltBuffer, e') :=
    match salt with
    | Some s => (s, e)
    | None => getRandomValues SALT_LENGTH e
    end in
  let passwordBuffer := Utf8.encode password in
  ((subtle_deriveKey passwordBuffer saltBuffer, saltBuffer), e').

(** [encryptValue]: any exception inside is rethrown as
    'Encryption failed'. *)
Definition encryptValue (value : list Z) (key : CryptoKey) (e : Entropy)
    : result (list Z) * Entropy :=
  let '(iv, e') := getRandomValues IV_LENGTH e in
  let data := Utf8.encode value in
  match subtle_encrypt key iv data with
  | None => (Throw Encryption_failed, e')
  | Some encryptedData =>
      let combined := iv ++ encryptedData in
      match arrayBufferToBase64 combined with
      | None => (Throw Encryption_failed, e')
      | Some s => (Ok s, e')
      end
  end.

(** [decryptValue]: any exception inside is rethrown as
    'Decryption failed'. *)
Definition decryptValue (encryptedValue : list Z) (key : CryptoKey)
    : result (list Z) :=
  match base64ToArrayBuffer encryptedValue with
  | None => Throw Decryption_failed
  | Some data =>
      let iv := take IV_LENGTH data in
      let encryptedData := drop IV_LENGTH data in
      match subtle_decrypt key iv encryptedData with
      | None => Throw Decryption_failed
      | Some decrypted => Ok (Utf8.decode decrypted)
      end
  end.

End Encryption.


(** ** Plain objects used as maps

    [vaultData.credentials], the metadata store and [activeSessions] are
    object literals, so their prototype is [Object.prototype]: a key that
    is not an own property is looked up there. *)

Module JsObject.

Open Scope string_scope.

(** The property names of [Object.prototype] as the platform sets it
    up.  The one module that adds names to it, oauthServer.ts, accounts
    for them in its own lookups ([OAuth.added_names]). *)
Definition prototype_names : list (list Z) :=
  map js ["constructor"; "__defineGetter__"; "__defineSetter__";
          "hasOwnProperty"; "__lookupGetter__"; "__lookupSetter__";
          "isPrototypeOf"; "propertyIsEnumerable"; "toString"; "valueOf";
          "__proto__"; "toLocaleString"].

Definition proto : list Z := js "__proto__".

Close Scope string_scope.

Definition inherited (k : list Z) : bool :=
  bool_decide (k ∈ prototype_names).

(** What [o[k]] evaluates to. *)
Inductive slot (V : Type) :=
| Own (v : V)
| Inherited
| Undefined.
Arguments Own {V} v.
Arguments Inherited {V}.
Arguments Undefined {V}.

Section Ops.
Context {V : Type}.

Definition get (o : gmap (list Z) V) (k : list Z) : slot V :=
  match o !! k with
  | Some v => Own v
  | None => if inherited k then Inherited else Undefined
  end.

(** [o[k] = v].  [__proto__] is an accessor of [Object.prototype]: when
    [o] has no own property of that name the assignment runs the
    setter, which adds no property to [o]. *)
Definition set (o : gmap (list Z) V) (k : list Z) (v : V) : gmap (list Z) V :=
  if bool_decide (k = proto) then
    match o !! k with
    | Some _ => <[k := v]> o
    | None => o
    end
  else <[k := v]> o.

(** [delete o[k]]. *)
Definition remove (o : gmap (list Z) V) (k : list Z) : gmap (list Z) V :=
  delete k o.

(** [for (const k in o)] and [Object.keys(o)]: the own keys.  The order
    of enumeration is not modelled. *)
Definition keys (o : gmap (list Z) V) : list (list Z) :=
  (map_to_list o).*1.

(** [Object.values(o)]. *)
Definition values (o : gmap (list Z) V) : list V :=
  (map_to_list o).*2.

End Ops.

(** [String(o[k])] for an inherited [k]: the prototype object itself for
    [__proto__], a built-in function otherwise. *)
Definition inherited_text (k : list Z) : list Z :=
  if bool_decide (k = proto) then js "[object Object]"
  else js "function " ++
       (if bool_decide (k = js "constructor") then js "Object" else k)
       ++ js "() { [native code] }".

End JsObject.

(** ** Hexadecimal salts *)

Definition hex_digit (n : Z) : Z := if n <? 10 then 48 + n else 97 + (n - 10).

(** [b.toString(16).padStart(2, '0')] joined over the array. *)
Definition toHex (l : list byte) : list Z :=
  flat_map (fun b => [hex_digit (b2z b / 16); hex_digit (b2z b mod 16)]) l.

Definition hex_value (c : Z) : option Z :=
  if (48 <=? c) && (c <=? 57) then Some (c - 48)
  else if (97 <=? c) && (c <=? 102) then Some (c - 97 + 10)
  else if (65 <=? c) && (c <=? 70) then Some (c - 65 + 10)
  else None.

(** The digits [toHex] writes. *)
Definition is_hex_digit (c : Z) : bool :=
  ((48 <=? c) && (c <=? 57)) || ((97 <=? c) && (c <=? 102)).

(** White space and line terminators skipped by [parseInt]. *)
Definition is_str_whitespace (c : Z) : bool :=
  bool_decide (c ∈ [9; 10; 11; 12; 13; 32; 160; 0x1680; 0x2028; 0x2029;
                    0x202F; 0x205F; 0x3000; 0xFEFF])
  || ((0x2000 <=? c) && (c <=? 0x200A)).

Fixpoint skip_whitespace (s : list Z) : list Z :=
  match s with
  | c :: r => if is_str_whitespace c then skip_whitespace r else s
  | [] => []
  end.

(** The value of the longest prefix of hexadecimal digits, with the
    number of digits read. *)
Fixpoint hex_prefix (acc : Z) (n : nat) (s : list Z) : Z * nat :=
  match s with
  | c :: r =>
      match hex_value c with
      | Some d => hex_prefix (acc * 16 + d) (S n) r
      | None => (acc, n)
      end
  | [] => (acc, n)
  end.

(** [parseInt(s, 16)]; [None] is [NaN]. *)
Definition parseInt16 (s : list Z) : option Z :=
  let s1 := skip_whitespace s in
  let '(sign, s2) :=
    match s1 with
    | 45 :: r => (-1, r)
    | 43 :: r => (1, r)
    | _ => (1, s1)
    end in
  let s3 :=
    match s2 with
    | 48 :: 120 :: r => r
    | 48 :: 88 :: r => r
    | _ => s2
    end in
  match hex_prefix 0 0 s3 with
  | (_, O) => None
  | (v, _) => Some (sign * v)
  end.

(** [hexToUint8Array]: [hex.length / 2] slots, slot [i / 2] receiving
    [parseInt(hex.substr(i, 2), 16)]; [NaN] is stored as 0 and a store
    past the end is dropped. *)
Fixpoint hexToUint8Array (hex : list Z) : list byte :=
  match hex with
  | a :: b :: r => z2b (default 0 (parseInt16 [a; b])) :: hexToUint8Array r
  | _ => []
  end.

(** ** Credentials and their JSON text *)

Inductive CredentialType := apiKey | oauth.

#[global] Instance CredentialType_eq_dec : EqDecision CredentialType.
Proof. solve_decision. Defined.

(** The non-secret fields, [CredentialMetadata] of the backend.  [Meta] is
    the type of the free-form [metadata] object. *)
Record CredentialMetadata {Meta : Type} := {
  m_id : list Z;
  m_serviceId : list Z;
  m_name : list Z;
  m_type : CredentialType;
  m_expiresAt : option Z;
  m_lastVerified : option Z;
  m_metadata : option Meta
}.
Arguments CredentialMetadata : clear implicits.

(** [Credential] of [types/ServiceDefinition]: the metadata, the secret
    [value] and the optional [refreshToken]. *)
Record Credential {Meta : Type} := {
  fields : CredentialMetadata Meta;
  value : list Z;
  refreshToken : option (list Z)
}.
Arguments Credential : clear implicits.

(** [credential.id]. *)
Definition id_of {Meta} (c : Credential Meta) : list Z := m_id (fields c).

(** [JSON.stringify] and [JSON.parse] at the types the vault uses them.
    A text that parses to a value of another shape is outside the model
    and is reported as [None], like a text that does not parse; the one
    place where the code goes on with such a value, the loop of
    [importVault] outside Electron, reads it through [parse_items]. *)
Class Json := {
  Meta : Type;
  (** [JSON.stringify(credential)]. *)
  stringify_credential : Credential Meta -> list Z;
  (** [JSON.parse(text) as Credential]. *)
  parse_credential : list Z -> option (Credential Meta);
  (** [JSON.stringify({version: '1.0', timestamp, credentials})]. *)
  stringify_vault : Z -> list (Credential Meta) -> list Z;
  (** [JSON.parse(text).credentials], when it is a list of credential
      records. *)
  parse_vault : list Z -> option (list (Credential Meta));
  (** [JSON.parse(text).credentials] when it is something else that
      [for ... of] iterates, an array of other values or a string: for
      each element [x], the property key that [x.id] names ([None] when
      reading it throws, [x] being [null]) and [JSON.stringify(x)].
      [None] when [JSON.parse] throws or there is nothing to iterate. *)
  parse_items : list Z -> option (list (option (list Z) * list Z));
  (** [JSON.stringify({salt, encryptedData})]. *)
  stringify_export : list Z -> list Z -> list Z;
  (** [const {salt, encryptedData} = JSON.parse(text)]. *)
  parse_export : list Z -> option (list Z * list Z)
}.

(** A JSON text is a well-formed string that opens with a brace. *)
Definition json_text (s : list Z) : Prop :=
  Utf8.well_formed s = true /\ head s = Some 123.

(** [JSON.parse] gives back what [JSON.stringify] was given.  This holds
    of the values JSON can represent; it fails, for instance, of a record
    that holds [NaN] or a function. *)
Definition credential_round_trips `{Json} (c : Credential Meta) : Prop :=
  parse_credential (stringify_credential c) = Some c /\
  json_text (stringify_credential c).

Definition vault_round_trips `{Json} (t : Z) (cs : list (Credential Meta)) : Prop :=
  parse_vault (stringify_vault t cs) = Some cs /\
  json_text (stringify_vault t cs).

Definition export_round_trips `{Json} (salt data : list Z) : Prop :=
  parse_export (stringify_export salt data) = Some (salt, data).

(** ** credentialVault.ts, the branch taken outside Electron *)

Module LocalVault.
Section LocalVault.
Context `{WebCrypto} `{Json}.

Record VaultData := {
  version : list Z;
  credentials : gmap (list Z) (list Z);
  lastUpdated : Z
}.

(** The fields of the [CredentialVault] instance, with the item of
    [localStorage] it writes and the entropy its calls consume. *)
Record Vault := {
  encryptionKey : option CryptoKey;
  initialized : bool;
  vaultData : option VaultData;
  localStorage : option VaultData;
  entropy : Entropy
}.

Definition with_entropy (v : Vault) (e : Entropy) : Vault :=
  {| encryptionKey := encryptionKey v; initialized := initialized v;
     vaultData := vaultData v; localStorage := localStorage v;
     entropy := e |}.

(** [vaultData.credentials[id] = encryptedValue] followed by
    [saveVaultData()], which stamps the data and writes it to
    [localStorage]. *)
Definition store (v : Vault) (d : VaultData) (k : list Z) (x : list Z)
    (now : Z) : Vault :=
  let d' := {| version := version d;
               credentials := JsObject.set (credentials d) k x;
               lastUpdated := now |} in
  {| encryptionKey := encryptionKey v; initialized := initialized v;
     vaultData := Some d'; localStorage := Some d'; entropy := entropy v |}.

(** [delete vaultData.credentials[id]] followed by [saveVaultData()]. *)
Definition unstore (v : Vault) (d : VaultData) (k : list Z) (now : Z) : Vault :=
  let d' := {| version := version d;
               credentials := JsObject.remove (credentials d) k;
               lastUpdated := now |} in
  {| encryptionKey := encryptionKey v; initialized := initialized v;
     vaultData := Some d'; localStorage := Some d'; entropy := entropy v |}.

(** [saveCredential]; [now] is the reading of [Date.now()]. *)
Definition saveCredential (credential : Credential Meta) (now : Z) (v : Vault)
    : result bool * Vault :=
  if negb (initialized v) then (Throw Vault_is_not_initialized, v)
  else
    match encryptionKey v, vaultData v with
    | Some key, Some d =>
        match encryptValue (stringify_credential credential) key (entropy v) with
        | (Ok encryptedValue, e') =>
            (Ok true, store (with_entropy v e') d (id_of credential) encryptedValue now)
        | (Throw _, e') => (Ok false, with_entropy v e')
        end
    | _, _ => (Ok false, v)
    end.

(** [getCredential]; [None] is [null]. *)
Definition getCredential (k : list Z) (v : Vault)
    : result (option (Credential Meta)) :=
  if negb (initialized v) then Throw Vault_is_not_initialized
  else
    match encryptionKey v, vaultData v with
    | Some key, Some d =>
        let read encryptedValue :=
          match decryptValue encryptedValue key with
          | Ok decryptedValue => Ok (parse_credential decryptedValue)
          | Throw _ => Ok None
          end in
        match JsObject.get (credentials d) k with
        | JsObject.Undefined => Ok None
        | JsObject.Own [] => Ok None
        | JsObject.Own encryptedValue => read encryptedValue
        | JsObject.Inherited => read (JsObject.inherited_text k)
        end
    | _, _ => Ok None
    end.

(** [getAllCredentials]: every own key is read with [getCredential] and
    the records that come back are collected. *)
Definition getAllCredentials (v : Vault) : result (list (Credential Meta)) :=
  if negb (initialized v) then Throw Vault_is_not_initialized
  else
    match encryptionKey v, vaultData v with
    | Some _, Some d =>
        Ok (omap (fun k => match getCredential k v with
                           | Ok (Some c) => Some c
                           | _ => None
                           end) (JsObject.keys (credentials d)))
    | _, _ => Ok []
    end.

(** [deleteCredential]. *)
Definition deleteCredential (k : list Z) (now : Z) (v : Vault)
    : result bool * Vault :=
  if negb (initialized v) then (Throw Vault_is_not_initialized, v)
  else
    match vaultData v with
    | Some d =>
        match JsObject.get (credentials d) k with
        | JsObject.Undefined | JsObject.Own [] => (Ok false, v)
        | _ => (Ok true, unstore v d k now)
        end
    | None => (Ok false, v)
    end.

(** [exportVault]: the records are listed, a key is derived from the
    export password under a salt drawn for this export, and the
    serialised list is encrypted under it. *)
Definition exportVault (exportPassword : list Z) (now : Z) (v : Vault)
    : result (list Z) * Vault :=
  if negb (initialized v) then (Throw Vault_is_not_initialized, v)
  else
    match getAllCredentials v with
    | Throw _ => (Throw Export_failed, v)
    | Ok creds =>
        let exportData := stringify_vault now creds in
        let '((key, salt), e1) :=
          deriveKeyFromPassword exportPassword None (entropy v) in
        match encryptValue exportData key e1 with
        | (Ok encryptedVault, e2) =>
            (Ok (stringify_export (toHex salt) encryptedVault), with_entropy v e2)
        | (Throw _, e2) => (Throw Export_failed, with_entropy v e2)
        end
    end.

(** The loop of [importVault]: each record goes through
    [saveCredential], whose answer is not looked at. *)
Fixpoint saveAll (cs : list (Credential Meta)) (now : Z) (v : Vault) : Vault :=
  match cs with
  | [] => v
  | c :: r => saveAll r now (saveCredential c now v).2
  end.

(** What [saveCredential] does with a value that is no credential
    record, as the loop of [importVault] may hand it one: the text of the
    value is encrypted, and stored under the key its [id] names unless
    reading the [id] throws; the exception is caught. *)
Definition saveItem (item : option (list Z) * list Z) (now : Z) (v : Vault) : Vault :=
  if negb (initialized v) then v
  else
    match encryptionKey v, vaultData v with
    | Some key, Some d =>
        match encryptValue item.2 key (entropy v), item.1 with
        | (Ok encryptedValue, e'), Some k => store (with_entropy v e') d k encryptedValue now
        | (_, e'), _ => with_entropy v e'
        end
    | _, _ => v
    end.

(** [importVault]: an exception anywhere before the loop makes the
    answer [false]; once the loop runs the answer is [true], whatever the
    elements are. *)
Definition importVault (importData importPassword : list Z) (now : Z) (v : Vault)
    : result bool * Vault :=
  if negb (initialized v) then (Throw Vault_is_not_initialized, v)
  else
    match parse_export importData with
    | None => (Ok false, v)
    | Some (saltHex, encryptedData) =>
        let salt := hexToUint8Array saltHex in
        let '((key, _), e1) :=
          deriveKeyFromPassword importPassword (Some salt) (entropy v) in
        match decryptValue encryptedData key with
        | Throw _ => (Ok false, with_entropy v e1)
        | Ok decryptedData =>
            match parse_vault decryptedData with
            | Some imported => (Ok true, saveAll imported now (with_entropy v e1))
            | None =>
                match parse_items decryptedData with
                | Some items =>
                    (Ok true,
                     foldl (fun v item => saveItem item now v) (with_entropy v e1) items)
                | None => (Ok false, with_entropy v e1)
                end
            end
        end
    end.

(** A vault after a successful [initialize] outside Electron. *)
Definition ready (v : Vault) : Prop :=
  initialized v = true /\ is_Some (encryptionKey v) /\ is_Some (vaultData v).

End LocalVault.
End LocalVault.

(** ** The credential handlers of the Electron backend

    The secret goes to the OS keychain through [keytar]; the other fields
    go to the metadata store.  [keytar] is no part of the repository: the
    keychain is taken to be a map from service and account to password
    whose calls succeed, so that the [catch] of a handler, which answers
    [success: false] with the message of the error, is not entered.  What
    [keytar] makes of an empty account or an empty password is not decided
    here. *)

Module CredentialIpc.
Section CredentialIpc.
Context `{Json}.

(** [SERVICE_NAME], made of the name and version of the application. *)
Variable SERVICE_NAME : list Z.

Definition REFRESH_SERVICE : list Z := SERVICE_NAME ++ js "-refresh".

Record Backend := {
  (** [store.get('credentials')]. *)
  metadata_store : gmap (list Z) (CredentialMetadata Meta);
  (** The passwords of the keychain, by service and account. *)
  keychain : gmap (list Z * list Z) (list Z)
}.

Definition setPassword (service account password : list Z) (b : Backend) : Backend :=
  {| metadata_store := metadata_store b;
     keychain := <[(service, account) := password]> (keychain b) |}.

Definition getPassword (service account : list Z) (b : Backend) : option (list Z) :=
  keychain b !! (service, account).

Definition deletePassword (service account : list Z) (b : Backend) : Backend :=
  {| metadata_store := metadata_store b;
     keychain := delete (service, account) (keychain b) |}.

(** [credentials[id] = {id, ...metadata}; store.set('credentials', credentials)]. *)
Definition setMetadata (m : CredentialMetadata Meta) (b : Backend) : Backend :=
  {| metadata_store := JsObject.set (metadata_store b) (m_id m) m;
     keychain := keychain b |}.

(** What [save-credential] and the loop of [import-vault] do with one
    record. *)
Definition put (c : Credential Meta) (b : Backend) : Backend :=
  let b1 := setPassword SERVICE_NAME (id_of c) (value c) b in
  let b2 :=
    match refreshToken c with
    | Some (u :: t) => setPassword REFRESH_SERVICE (id_of c) (u :: t) b1
    | _ => b1
    end in
  setMetadata (fields c) b2.

(** ['save-credential'] when the keychain calls succeed; the answer is
    [success]. *)
Definition save_credential (c : Credential Meta) (b : Backend) : bool * Backend :=
  (true, put c b).

Inductive get_reply :=
| Got (credential : Credential Meta)
  (** the key was found on the prototype only: the reply carries the
      value and no metadata field *)
| Got_bare (value : list Z)
| Credential_not_found
| Credential_value_not_found.

(** ['get-credential']. *)
Definition get_credential (k : list Z) (b : Backend) : get_reply :=
  match JsObject.get (metadata_store b) k with
  | JsObject.Undefined => Credential_not_found
  | JsObject.Own m =>
      match getPassword SERVICE_NAME k b with
      | Some (u :: t) =>
          Got {| fields := m; value := u :: t;
                 refreshToken :=
                   if decide (m_type m = oauth)
                   then getPassword REFRESH_SERVICE k b else None |}
      | _ => Credential_value_not_found
      end
  | JsObject.Inherited =>
      match getPassword SERVICE_NAME k b with
      | Some (u :: t) => Got_bare (u :: t)
      | _ => Credential_value_not_found
      end
  end.

(** ['get-all-credentials']: the values of the metadata store. *)
Definition get_all_credentials (b : Backend) : list (CredentialMetadata Meta) :=
  JsObject.values (metadata_store b).

(** ['delete-credential']. *)
Definition delete_credential (k : list Z) (b : Backend) : bool * Backend :=
  let b1 := deletePassword REFRESH_SERVICE k (deletePassword SERVICE_NAME k b) in
  (true,
   match JsObject.get (metadata_store b1) k with
   | JsObject.Undefined => b1
   | _ => {| metadata_store := JsObject.remove (metadata_store b1) k;
             keychain := keychain b1 |}
   end).

(** The record ['export-vault'] pushes for one key of the store, when
    the keychain holds a value for it. *)
Definition export_entry (b : Backend) (km : list Z * CredentialMetadata Meta)
    : option (Credential Meta) :=
  match getPassword SERVICE_NAME km.1 b with
  | Some (u :: t) =>
      Some {| fields := km.2; value := u :: t;
              refreshToken :=
                if decide (m_type km.2 = oauth)
                then getPassword REFRESH_SERVICE km.1 b else None |}
  | _ => None
  end.

(** ['export-vault']: the password is not used. *)
Definition export_vault (exportPassword : list Z) (now : Z) (b : Backend) : list Z :=
  stringify_vault now (omap (export_entry b) (map_to_list (metadata_store b))).

(** ['import-vault']: the password is not used; the answer is [success]. *)
Definition import_vault (importData importPassword : list Z) (b : Backend)
    : bool * Backend :=
  match parse_vault importData with
  | None => (false, b)
  | Some imported => (true, foldl (fun b c => put c b) b imported)
  end.

End CredentialIpc.
End CredentialIpc.

(** ** oauthServer.ts *)

Module OAuth.

Definition SESSION_TIMEOUT : Z := 15 * 60 * 1000.
Definition CLEANUP_INTERVAL : Z := 5 * 60 * 1000.
Definition MAX_SESSIONS : nat := 100.

Record OAuthResult := {
  code : option (list Z);
  error : option (list Z)
}.

Record OAuthSession := {
  sessionId : list Z;
  redirectUri : list Z;
  result : option OAuthResult;
  completed : bool;
  createdAt : Z;
  expiresAt : Z;
  clientId : list Z;
  scopes : list (list Z)
}.

(** The module state.  [activeSessions] holds the own properties of the
    object of that name.  [inherited_objects] records, for a name [k] of
    [Object.prototype], what the callback handler has assigned to the
    object [activeSessions[k]] evaluates to: the key is present once
    [completed] was set on it and the value is the [result] set on it.
    Under the key [__proto__] this is what the handler has added to
    [Object.prototype] itself. *)
Record Server := {
  activeSessions : gmap (list Z) OAuthSession;
  inherited_objects : gmap (list Z) (option OAuthResult)
}.

(** The names the callback handler has added to [Object.prototype]:
    [completed], which is [true], once a callback whose state is
    [__proto__] was accepted, and [result], an object, when such a
    callback brought a code or an error. *)
Definition added_names (st : Server) : list (list Z) :=
  match inherited_objects st !! JsObject.proto with
  | Some (Some _) => [js "completed"; js "result"]
  | Some None => [js "completed"]
  | None => []
  end.

(** What [activeSessions[k]] evaluates to: an own session, something
    inherited from [Object.prototype], or [undefined]. *)
Definition lookup_session (st : Server) (k : list Z) : JsObject.slot OAuthSession :=
  match activeSessions st !! k with
  | Some s => JsObject.Own s
  | None =>
      if JsObject.inherited k || bool_decide (k ∈ added_names st)
      then JsObject.Inherited else JsObject.Undefined
  end.

(** [result] as found on [Object.prototype]. *)
Definition prototype_result (st : Server) : option OAuthResult :=
  mjoin (inherited_objects st !! JsObject.proto).

(** [session.result] for a session object. *)
Definition session_result (st : Server) (s : OAuthSession) : option OAuthResult :=
  match result s with
  | Some r => Some r
  | None => prototype_result st
  end.

(** [session.completed] and [session.result] when [session] is the
    inherited object of name [k]; a built-in function inherits in turn
    from [Object.prototype]. *)
Definition inherited_completed (st : Server) (k : list Z) : bool :=
  bool_decide (is_Some (inherited_objects st !! k))
  || bool_decide (is_Some (inherited_objects st !! JsObject.proto)).

Definition inherited_result (st : Server) (k : list Z) : option OAuthResult :=
  match inherited_objects st !! k with
  | Some (Some r) => Some r
  | _ => prototype_result st
  end.

(** A query parameter counts when it is a non-empty string. *)
Definition truthy (p : option (list Z)) : bool :=
  match p with
  | Some (_ :: _) => true
  | _ => false
  end.

(** The [result] the callback assigns, if it assigns one. *)
Definition callback_result (code error : option (list Z)) : option OAuthResult :=
  if truthy error then Some {| code := None; error := error |}
  else if truthy code then Some {| code := code; error := None |}
  else None.

Inductive callback_response :=
| Invalid_callback      (** 400, 'Invalid OAuth callback. ...' *)
| Session_expired       (** 400, 'OAuth session has expired. ...' *)
| Authorization_page (failed : bool) (** 200, 'Authorization Failed' or 'Complete' *)
| Authorization_error.  (** 500, 'An error occurred during authorization. ...' *)

Definition complete (s : OAuthSession) (r : option OAuthResult) : OAuthSession :=
  {| sessionId := sessionId s; redirectUri := redirectUri s;
     result := (match r with Some _ => r | None => result s end);
     completed := true;
     createdAt := createdAt s; expiresAt := expiresAt s;
     clientId := clientId s; scopes := scopes s |}.

(** [GET /oauth/callback?state&code&error] at time [now]. *)
Definition callback (state code error : option (list Z)) (now : Z) (st : Server)
    : callback_response * Server :=
  match state with
  | None | Some [] => (Invalid_callback, st)
  | Some k =>
      match lookup_session st k with
      | JsObject.Undefined => (Invalid_callback, st)
      | JsObject.Own session =>
          if expiresAt session <? now then
            (Session_expired,
             {| activeSessions := JsObject.remove (activeSessions st) k;
                inherited_objects := inherited_objects st |})
          else
            (Authorization_page (truthy error),
             {| activeSessions :=
                  <[k := complete session (callback_result code error)]>
                    (activeSessions st);
                inherited_objects := inherited_objects st |})
      | JsObject.Inherited =>
          (** [expiresAt] is undefined on what is inherited, so the
              comparison with [Date.now()] is false *)
          if bool_decide (k = js "completed") then
            (** [session] is the boolean [true]: in the strict code of a
                module the assignment to a property of it throws a
                [TypeError], which the handler catches *)
            (Authorization_error, st)
          else
            (Authorization_page (truthy error),
             {| activeSessions := activeSessions st;
                inherited_objects :=
                  match callback_result code error with
                  | Some r =>
                      let written := <[k := Some r]> (inherited_objects st) in
                      (** a new [result] on [Object.prototype] is a new
                          object, on which nothing was set yet *)
                      if bool_decide (k = JsObject.proto)
                      then delete (js "result") written else written
                  | None =>
                      <[k := mjoin (inherited_objects st !! k)]> (inherited_objects st)
                  end |})
      end
  end.

Inductive poll_response :=
| Session_not_found
| Session_has_expired
| Pending                              (** success, completed: false *)
| Failed (error : list Z)              (** success: false, the error *)
| Completed (code : option (list Z)).  (** success, completed: true, code *)

(** The answer for a completed session from its [result]. *)
Definition answer (r : option OAuthResult) : poll_response :=
  match r with
  | Some {| code := c; error := Some (u :: t) |} => Failed (u :: t)
  | Some {| code := c; error := _ |} => Completed c
  | None => Completed None
  end.

(** The handler of ['check-oauth-result'] at time [now]. *)
Definition check_oauth_result (k : list Z) (now : Z) (st : Server)
    : poll_response * Server :=
  match lookup_session st k with
  | JsObject.Undefined => (Session_not_found, st)
  | JsObject.Own session =>
      let removed := {| activeSessions := JsObject.remove (activeSessions st) k;
                        inherited_objects := inherited_objects st |} in
      if expiresAt session <? now then (Session_has_expired, removed)
      else if negb (completed session) then (Pending, st)
      else (answer (session_result st session), removed)
  | JsObject.Inherited =>
      if negb (inherited_completed st k) then (Pending, st)
      else (answer (inherited_result st k), st)
  end.

(** [cleanupExpiredSessions] at time [now]. *)
Definition cleanupExpiredSessions (now : Z) (st : Server) : Server :=
  {| activeSessions :=
       filter (fun ks => negb (expiresAt ks.2 <? now)) (activeSessions st);
     inherited_objects := inherited_objects st |}.

(** [toString('base64url')]: the URL alphabet, no padding. *)
Definition base64url (l : list byte) : list Z :=
  map (fun c => if c =? 43 then 45 else if c =? 47 then 95 else c)
      (List.filter (fun c => negb (c =? Base64.pad)) (Base64.encode (map b2z l))).

Inductive start_response :=
| Started (sessionId : list Z) (codeVerifier : option (list Z))
| Start_failed.

(** The handler of ['start-oauth-flow'] at time [now].  [port] is the
    port of the callback server and [shown] tells whether the
    authorization URL could be built and loaded in the new window; the
    session is stored before that is attempted. *)
Definition start_oauth_flow (config_clientId : list Z) (config_scopes : list (list Z))
    (usePKCE : bool) (port : list Z) (shown : bool) (now : Z)
    (st : Server) (e : Entropy) : start_response * Server * Entropy :=
  let st1 :=
    if bool_decide (MAX_SESSIONS <= size (activeSessions st))%nat
    then cleanupExpiredSessions now st else st in
  if bool_decide (MAX_SESSIONS <= size (activeSessions st1))%nat
  then (Start_failed, st1, e)
  else
    let '(idBytes, e1) := getRandomValues 16 e in
    let sessionId := toHex idBytes in
    let redirectUri := js "http://localhost:" ++ port ++ js "/oauth/callback" in
    let '(codeVerifier, e2) :=
      if usePKCE
      then let '(v, e2) := getRandomValues 32 e1 in (Some (base64url v), e2)
      else (None, e1) in
    let session :=
      {| sessionId := sessionId; redirectUri := redirectUri;
         result := None; completed := false;
         createdAt := now; expiresAt := now + SESSION_TIMEOUT;
         clientId := config_clientId; scopes := config_scopes |} in
    let st2 :=
      {| activeSessions := JsObject.set (activeSessions st1) sessionId session;
         inherited_objects := inherited_objects st1 |} in
    (if shown then Started sessionId codeVerifier else Start_failed, st2, e2).

(** What reaches the module: the two IPC calls, the callback request and
    the tick of the cleanup timer. *)
Inductive request :=
| Start_oauth_flow (clientId : list Z) (scopes : list (list Z)) (usePKCE : bool)
    (port : list Z) (shown : bool) (now : Z)
| Callback (state code error : option (list Z)) (now : Z)
| Check_oauth_result (sessionId : list Z) (now : Z)
| Cleanup_expired_sessions (now : Z).

Definition handle (se : Server * Entropy) (r : request) : Server * Entropy :=
  match r with
  | Start_oauth_flow clientId scopes usePKCE port shown now =>
      let '(_, st, e) :=
        start_oauth_flow clientId scopes usePKCE port shown now se.1 se.2 in
      (st, e)
  | Callback state code error now => ((callback state code error now se.1).2, se.2)
  | Check_oauth_result sessionId now => ((check_oauth_result sessionId now se.1).2, se.2)
  | Cleanup_expired_sessions now => (cleanupExpiredSessions now se.1, se.2)
  end.

(** Every key of [activeSessions] is an id the module generated. *)
Definition generated (st : Server) : Prop :=
  forall k s, activeSessions st !! k = Some s -> exists idBytes, k = toHex idBytes.

(** The state before any flow is started. *)
Definition started : Server := {| activeSessions := ∅; inherited_objects := ∅ |}.

End OAuth.

(** ** automationIpc.ts

    Every handler and every continuation after an [await] runs to its end
    before another starts, so the module is a machine stepping on events:
    the two IPC calls, the sweep, a timer firing, and the points at which
    the promises awaited by [runAutomation] settle. *)

Module Automation.

Definition JOB_TIMEOUT : Z := 5 * 60 * 1000.
Definition CLEANUP_INTERVAL : Z := 1 * 60 * 1000.
Definition MAX_CONCURRENT_JOBS : nat := 5.

Inductive Status := running | completed | failed.

#[global] Instance Status_eq_dec : EqDecision Status.
Proof. solve_decision. Defined.

(** A job object.  [context] names a browser context by the order of
    its creation. *)
Record AutomationJob := {
  id : list Z;
  status : Status;
  result : option (list Z);
  error : option (list Z);
  createdAt : Z;
  expiresAt : Z;
  context : option nat
}.

(** The module state.  Job objects live in [objects] and are referred to
    by position, as [activeJobs] and the closures of pending timers hold
    references to them.  [open_contexts] are the contexts created and not
    yet closed, [created] counts the contexts created so far. *)
Record Scheduler := {
  objects : list AutomationJob;
  activeJobs : gmap (list Z) nat;
  timers : list (nat * list Z);
  open_contexts : gset nat;
  created : nat;
  entropy : Entropy
}.

Definition with_status (s : Status) (j : AutomationJob) : AutomationJob :=
  {| id := id j; status := s; result := result j; error := error j;
     createdAt := createdAt j; expiresAt := expiresAt j; context := context j |}.

Definition with_result (r : list Z) (j : AutomationJob) : AutomationJob :=
  {| id := id j; status := status j; result := Some r; error := error j;
     createdAt := createdAt j; expiresAt := expiresAt j; context := context j |}.

Definition with_error (m : list Z) (j : AutomationJob) : AutomationJob :=
  {| id := id j; status := status j; result := result j; error := Some m;
     createdAt := createdAt j; expiresAt := expiresAt j; context := context j |}.

Definition with_context (c : nat) (j : AutomationJob) : AutomationJob :=
  {| id := id j; status := status j; result := result j; error := error j;
     createdAt := createdAt j; expiresAt := expiresAt j; context := Some c |}.

(** [activeJobs[jobId]] as an object, when the key is there.  Job ids
    are hexadecimal strings, which name no property of
    [Object.prototype]. *)
Definition job (st : Scheduler) (jobId : list Z) : option AutomationJob :=
  r ← activeJobs st !! jobId; objects st !! r.

(** An assignment to a field of [activeJobs[jobId]]; [None] is the
    [TypeError] thrown when the key is gone. *)
Definition update (jobId : list Z) (f : AutomationJob -> AutomationJob)
    (st : Scheduler) : option Scheduler :=
  r ← activeJobs st !! jobId;
  j ← objects st !! r;
  Some {| objects := <[r := f j]> (objects st);
          activeJobs := activeJobs st; timers := timers st;
          open_contexts := open_contexts st; created := created st;
          entropy := entropy st |}.

(** [job.context.close()] when the job object has a context. *)
Definition close_context (j : AutomationJob) (st : Scheduler) : Scheduler :=
  match context j with
  | Some c =>
      {| objects := objects st; activeJobs := activeJobs st;
         timers := timers st; open_contexts := open_contexts st ∖ {[c]};
         created := created st; entropy := entropy st |}
  | None => st
  end.

(** [delete activeJobs[jobId]]. *)
Definition forget (jobId : list Z) (st : Scheduler) : Scheduler :=
  {| objects := objects st; activeJobs := delete jobId (activeJobs st);
     timers := timers st; open_contexts := open_contexts st;
     created := created st; entropy := entropy st |}.

(** The job objects [Object.values(activeJobs)] lists. *)
Definition active_objects (st : Scheduler) : list AutomationJob :=
  omap (fun kr => objects st !! kr.2) (map_to_list (activeJobs st)).

(** One round of the loop of [cleanupExpiredJobs]. *)
Definition expire (now : Z) (st : Scheduler) (kr : list Z * nat) : Scheduler :=
  match objects st !! kr.2 with
  | Some j =>
      if expiresAt j <? now then forget kr.1 (close_context j st) else st
  | None => st
  end.

(** [cleanupExpiredJobs] at time [now]. *)
Definition cleanupExpiredJobs (now : Z) (st : Scheduler) : Scheduler :=
  foldl (expire now) st (map_to_list (activeJobs st)).

Inductive run_reply :=
| Accepted (jobId : list Z)
| Rejected.  (** 'Maximum number of concurrent automation jobs reached. ...' *)

(** The handler of ['run-automation'] at time [now], up to the first
    [await] of [runAutomation]. *)
Definition run_automation (now : Z) (st : Scheduler) : run_reply * Scheduler :=
  let runningJobs :=
    List.filter (fun j => bool_decide (status j = running)) (active_objects st) in
  if bool_decide (MAX_CONCURRENT_JOBS <= length runningJobs)%nat then (Rejected, st)
  else
    let '(idBytes, e') := getRandomValues 8 (entropy st) in
    let jobId := toHex idBytes in
    let j := {| id := jobId; status := running; result := None; error := None;
                createdAt := now; expiresAt := now + JOB_TIMEOUT;
                context := None |} in
    (Accepted jobId,
     {| objects := objects st ++ [j];
        activeJobs := <[jobId := length (objects st)]> (activeJobs st);
        timers := timers st; open_contexts := open_contexts st;
        created := created st; entropy := e' |}).

(** [typeof plugin[name] === 'function'] for the object a plugin file
    exports.  [exports] holds its own properties, each with whether its
    value is a function; a name it does not have is looked up on
    [Object.prototype], all of whose properties are functions but
    [__proto__], which names the prototype object itself. *)
Definition is_function (exports : gmap (list Z) bool) (name : list Z) : bool :=
  match exports !! name with
  | Some f => f
  | None => JsObject.inherited name && negb (bool_decide (name = JsObject.proto))
  end.

(** The routing of [runAutomation]: the message of the error thrown
    before any action starts, or [None] when an action is started.
    [plugin] is what the plugin file of the service exports, when the
    file exists. *)
Definition dispatch (serviceName actionName : list Z)
    (plugin : option (gmap (list Z) bool)) : option (list Z) :=
  if bool_decide (serviceName = js "openai" /\ actionName = js "fetchKey") then None
  else if bool_decide (serviceName = js "google" /\ actionName = js "completeOAuth")
  then Some (js "Google OAuth automation not implemented yet")
  else
    match plugin with
    | Some exports =>
        if is_function exports actionName then None
        else Some (js "Action " ++ [34] ++ actionName ++ [34]
                   ++ js " not found in plugin for " ++ [34] ++ serviceName ++ [34])
    | None =>
        Some (js "No automation available for " ++ serviceName ++ js "." ++ actionName)
    end.

(** The [catch] of [runAutomation] and the [catch] attached to its
    promise: both mark the job failed; when the key is gone their
    assignments throw and nothing is written. *)
Definition fail (jobId : list Z) (message : list Z) (st : Scheduler) : Scheduler :=
  let m := match message with [] => js "Unknown error" | _ => message end in
  default st (update jobId (fun j => with_error m (with_status failed j)) st).

(** [createSecureContext] has resolved: a context exists and is stored
    on the job; then the action is dispatched, [thrown] being the answer
    of [dispatch]. *)
Definition context_created (jobId : list Z) (thrown : option (list Z))
    (st : Scheduler) : Scheduler :=
  let c := created st in
  let st1 := {| objects := objects st; activeJobs := activeJobs st;
                timers := timers st; open_contexts := open_contexts st ∪ {[c]};
                created := S c; entropy := entropy st |} in
  match update jobId (with_context c) st1 with
  | None => st1
  | Some st2 =>
      match thrown with
      | None => st2
      | Some message => fail jobId message st2
      end
  end.

(** The action has returned [r]. *)
Definition action_returned (jobId : list Z) (r : list Z) (st : Scheduler) : Scheduler :=
  default st (update jobId (fun j => with_result r (with_status completed j)) st).

Inductive status_reply :=
| Job_not_found
| Job_has_expired
| Job_status (success : bool) (s : Status) (result error : option (list Z))
  (** the key names a property of [Object.prototype] *)
| Job_status_undefined.

(** The handler of ['check-automation-status'] at time [now]. *)
Definition check_automation_status (jobId : list Z) (now : Z) (st : Scheduler)
    : status_reply * Scheduler :=
  match JsObject.get (activeJobs st) jobId with
  | JsObject.Undefined => (Job_not_found, st)
  | JsObject.Inherited => (Job_status_undefined, st)
  | JsObject.Own r =>
      match objects st !! r with
      | None => (Job_not_found, st)
      | Some j =>
          if expiresAt j <? now
          then (Job_has_expired, forget jobId (close_context j st))
          else
            (Job_status (bool_decide (status j <> failed)) (status j)
                        (result j) (error j),
             if bool_decide (status j = running) then st
             else {| objects := objects st; activeJobs := activeJobs st;
                     timers := timers st ++ [(r, jobId)];
                     open_contexts := open_contexts st;
                     created := created st; entropy := entropy st |})
      end
  end.

(** The timer set by a status check fires, a minute later. *)
Definition timer_fired (n : nat) (st : Scheduler) : Scheduler :=
  match timers st !! n with
  | None => st
  | Some (r, jobId) =>
      let st1 := {| objects := objects st; activeJobs := activeJobs st;
                    timers := delete n (timers st);
                    open_contexts := open_contexts st;
                    created := created st; entropy := entropy st |} in
      match objects st !! r with
      | Some j => forget jobId (close_context j st1)
      | None => forget jobId st1
      end
  end.

Inductive event :=
| Run_automation (now : Z)
| Context_created (jobId : list Z) (thrown : option (list Z))
| Launch_failed (jobId : list Z) (message : list Z)
| Action_returned (jobId : list Z) (r : list Z)
| Action_threw (jobId : list Z) (message : list Z)
| Check_automation_status (jobId : list Z) (now : Z)
| Timer_fired (n : nat)
| Cleanup_expired_jobs (now : Z).

Definition step (st : Scheduler) (ev : event) : Scheduler :=
  match ev with
  | Run_automation now => (run_automation now st).2
  | Context_created jobId thrown => context_created jobId thrown st
  | Launch_failed jobId message => fail jobId message st
  | Action_returned jobId r => action_returned jobId r st
  | Action_threw jobId message => fail jobId message st
  | Check_automation_status jobId now => (check_automation_status jobId now st).2
  | Timer_fired n => timer_fired n st
  | Cleanup_expired_jobs now => cleanupExpiredJobs now st
  end.

Definition run (st : Scheduler) (evs : list event) : Scheduler :=
  foldl step st evs.

(** The state after [setupAutomationIPC]. *)
Definition initial (e : Entropy) : Scheduler :=
  {| objects := []; activeJobs := ∅; timers := []; open_contexts := ∅;
     created := 0; entropy := e |}.

(** No job object refers to context [c]. *)
Definition unreferenced (c : nat) (st : Scheduler) : Prop :=
  forall r j, objects st !! r = Some j -> context j <> Some c.

(** Context [c] is open, was created earlier, and no job object refers
    to it. *)
Definition leaked (c : nat) (st : Scheduler) : Prop :=
  c ∈ open_contexts st /\ (c < created st)%nat /\ unreferenced c st.

End Automation.

(** ** A model of the platform interfaces

    An instance of [WebCrypto] and one of [Json] that compute, to run the
    modules on examples. *)

Module Model.

(** The ciphertext is the data followed by a tag of sixteen bytes made of
    the key and the IV. *)
Definition tag (k iv : list byte) : list byte :=
  take 16 (k ++ iv ++ replicate 16 x00).

Definition seal (k iv data : list byte) : option (list byte) :=
  Some (data ++ tag k iv).

Definition unseal (k iv c : list byte) : option (list byte) :=
  let n := (length c - 16)%nat in
  if bool_decide (16 <= length c)%nat && bool_decide (drop n c = tag k iv)
  then Some (take n c) else None.

Definition crypto : WebCrypto :=
  {| CryptoKey := list byte;
     subtle_encrypt := seal;
     subtle_decrypt := unseal;
     subtle_deriveKey := fun password salt => password ++ salt |}.

(** A serialisation in which a number is written in binary, least
    significant digit first, and closed by a semicolon. *)
Fixpoint put_positive (p : positive) : list Z :=
  match p with
  | xH => [59]
  | xO q => 48 :: put_positive q
  | xI q => 49 :: put_positive q
  end.

Definition put_Z (z : Z) : list Z :=
  match z with
  | Z0 => [122]
  | Zpos p => 112 :: put_positive p
  | Zneg p => 110 :: put_positive p
  end.

Definition put_string (s : list Z) : list Z :=
  put_Z (Z.of_nat (length s)) ++ flat_map put_Z s.

Definition put_option {A} (put : A -> list Z) (o : option A) : list Z :=
  match o with
  | Some a => 83 :: put a
  | None => [78]
  end.

Definition put_metadata (m : CredentialMetadata unit) : list Z :=
  put_string (m_id m) ++ put_string (m_serviceId m) ++ put_string (m_name m)
  ++ [match m_type m with apiKey => 97 | oauth => 111 end]
  ++ put_option put_Z (m_expiresAt m) ++ put_option put_Z (m_lastVerified m)
  ++ put_option (fun _ => []) (m_metadata m).

Definition put_credential (c : Credential unit) : list Z :=
  put_metadata (fields c) ++ put_string (value c)
  ++ put_option put_string (refreshToken c).

Definition parser (A : Type) : Type := list Z -> option (A * list Z).

Fixpoint get_positive (s : list Z) : option (positive * list Z) :=
  match s with
  | c :: r =>
      if c =? 59 then Some (xH, r)
      else if c =? 48 then '(q, r') ← get_positive r; Some (xO q, r')
      else if c =? 49 then '(q, r') ← get_positive r; Some (xI q, r')
      else None
  | [] => None
  end.

Definition get_Z : parser Z := fun s =>
  match s with
  | c :: r =>
      if c =? 122 then Some (0, r)
      else if c =? 112 then '(p, r') ← get_positive r; Some (Zpos p, r')
      else if c =? 110 then '(p, r') ← get_positive r; Some (Zneg p, r')
      else None
  | [] => None
  end.

Fixpoint get_many {A} (n : nat) (get : parser A) : parser (list A) := fun s =>
  match n with
  | O => Some ([], s)
  | S m => '(a, r) ← get s; '(l, r') ← get_many m get r; Some (a :: l, r')
  end.

Definition get_string : parser (list Z) := fun s =>
  '(n, r) ← get_Z s; get_many (Z.to_nat n) get_Z r.

Definition get_option {A} (get : parser A) : parser (option A) := fun s =>
  match s with
  | c :: r =>
      if c =? 83 then '(a, r') ← get r; Some (Some a, r')
      else if c =? 78 then Some (None, r)
      else None
  | [] => None
  end.

Definition get_type : parser CredentialType := fun s =>
  match s with
  | c :: r =>
      if c =? 97 then Some (apiKey, r)
      else if c =? 111 then Some (oauth, r)
      else None
  | [] => None
  end.

Definition get_metadata : parser (CredentialMetadata unit) := fun s =>
  '(i, s) ← get_string s; '(sv, s) ← get_string s; '(n, s) ← get_string s;
  '(t, s) ← get_type s; '(e, s) ← get_option get_Z s;
  '(l, s) ← get_option get_Z s; '(m, s) ← get_option (fun s => Some ((), s)) s;
  Some ({| m_id := i; m_serviceId := sv; m_name := n; m_type := t;
           m_expiresAt := e; m_lastVerified := l; m_metadata := m |}, s).

Definition get_credential : parser (Credential unit) := fun s =>
  '(m, s) ← get_metadata s; '(v, s) ← get_string s;
  '(r, s) ← get_option get_string s;
  Some ({| fields := m; value := v; refreshToken := r |}, s).

(** A text is an opening brace, the serialised value, and nothing else. *)
Definition whole {A} (get : parser A) (s : list Z) : option A :=
  match s with
  | 123 :: r =>
      match get r with
      | Some (a, []) => Some a
      | _ => None
      end
  | _ => None
  end.

Definition json : Json :=
  {| Meta := unit;
     stringify_credential := fun c => 123 :: put_credential c;
     parse_credential := whole get_credential;
     stringify_vault := fun t cs =>
       123 :: put_Z t ++ put_Z (Z.of_nat (length cs)) ++ flat_map put_credential cs;
     parse_vault := whole (fun s =>
       '(_, s) ← get_Z s; '(n, s) ← get_Z s;
       get_many (Z.to_nat n) get_credential s);
     parse_items := fun _ => None;
     stringify_export := fun salt data => 123 :: put_string salt ++ put_string data;
     parse_export := whole (fun s =>
       '(salt, s) ← get_string s; '(data, s) ← get_string s;
       Some ((salt, data), s)) |}.

(** A source of entropy for the examples: byte [i] is [7 i + 3] modulo 256. *)
Definition entropy0 : Entropy :=
  {| supply := fun i => z2b (7 * Z.of_nat i + 3); drawn := 0 |}.

End Model.

(** ** Examples on the model *)

Module Examples.
Open Scope string_scope.

(** The record of the end-to-end example: id [a], value [sk-123]. *)
Definition record_a : Credential unit :=
  {| fields := {| m_id := js "a"; m_serviceId := js "openai"; m_name := js "key";
                  m_type := apiKey; m_expiresAt := None; m_lastVerified := None;
                  m_metadata := None |};
     value := js "sk-123"; refreshToken := None |}.

(** A record whose id is [__proto__]. *)
Definition record_proto : Credential unit :=
  {| fields := {| m_id := js "__proto__"; m_serviceId := js "openai";
                  m_name := js "key"; m_type := apiKey; m_expiresAt := None;
                  m_lastVerified := None; m_metadata := None |};
     value := js "sk-123"; refreshToken := None |}.

Definition empty_data : @LocalVault.VaultData :=
  {| LocalVault.version := js "1.0"; LocalVault.credentials := ∅;
     LocalVault.lastUpdated := 0 |}.

(** An initialised, empty vault outside Electron. *)
Definition vault0 : @LocalVault.Vault Model.crypto :=
  {| LocalVault.encryptionKey := Some ([x01; x02] : @CryptoKey Model.crypto);
     LocalVault.initialized := true;
     LocalVault.vaultData := Some empty_data;
     LocalVault.localStorage := None;
     LocalVault.entropy := Model.entropy0 |}.

Definition backend0 : @CredentialIpc.Backend Model.json :=
  {| CredentialIpc.metadata_store := ∅; CredentialIpc.keychain := ∅ |}.

Definition SERVICE : list Z := js "api-credential-manager-1.0.0".

Close Scope string_scope.
End Examples.

Module OAuthExamples.
Import OAuth.
Open Scope string_scope.

(** One flow started at time 1000 on a fresh server. *)
Definition flow :=
  start_oauth_flow (js "client") [js "openid"] false (js "49152") true 1000
    started Model.entropy0.

Definition live : Server := flow.1.2.

Definition sid : list Z := toHex (map (supply Model.entropy0) (seq 0 16)).

Close Scope string_scope.
End OAuthExamples.

Module AutomationExamples.
Import Automation.

(** The id of the first job submitted under the entropy of the model. *)
Definition first_job : list Z := toHex (map (supply Model.entropy0) (seq 0 8)).

(** A job is submitted at time 0; its deadline passes and the sweep runs
    before [createSecureContext] resolves. *)
Definition late_context : list event :=
  [Run_automation 0;
   Cleanup_expired_jobs (JOB_TIMEOUT + 1);
   Context_created first_job None].

End AutomationExamples.

(** ** Further functions of the modules *)

(** [String.prototype.startsWith]. *)
Fixpoint startsWith (prefix s : list Z) : bool :=
  match prefix, s with
  | [], _ => true
  | p :: prefix', c :: s' => (p =? c) && startsWith prefix' s'
  | _ :: _, [] => false
  end.

(** The most bytes [crypto.getRandomValues] fills in one call. *)
Definition QUOTA : Z := 65536.

(** [generateRandomString] of encryption.ts, for an integer [length]: two
    hexadecimal digits per random byte.  [new Uint8Array(length)] throws a
    [RangeError] for a negative length and [crypto.getRandomValues] a
    [QuotaExceededError] for more than [QUOTA] bytes; the [catch] throws
    'Random string generation failed' for both. *)
Definition generateRandomString (length : Z) (e : Entropy)
    : result (list Z) * Entropy :=
  if (length <? 0) || (QUOTA <? length)
  then (Throw Random_string_generation_failed, e)
  else
    let '(bytes, e') := getRandomValues (Z.to_nat length) e in
    (Ok (toHex bytes), e').

(** A character of the base64 alphabet, or the padding sign. *)
Definition base64_char (c : Z) : Prop :=
  is_Some (Base64.value_of c) \/ c = Base64.pad.

(** ** flows/OpenAIFlow.tsx, with the vault outside Electron *)

Module OpenAIFlow.
Section OpenAIFlow.
Context `{WebCrypto} `{Json}.

(** [verifyOpenAIKey] on the text of the input field: [None] is
    [{valid: true}], [Some error] is [{valid: false, error}]. *)
Definition verifyOpenAIKey (text : list Z) : option (list Z) :=
  if negb (startsWith (js "sk-") text)
  then Some (js "Invalid API key format. OpenAI keys typically start with "
             ++ [34] ++ js "sk-" ++ [34] ++ js ".")
  else None.

(** The record [handleSubmit] saves; [verified] is the reading of
    [Date.now()] put in [lastVerified]. *)
Definition openai_credential (text : list Z) (verified : Z) : Credential Meta :=
  {| fields := {| m_id := js "openai_api_key"; m_serviceId := js "openai";
                  m_name := js "OpenAI API Key"; m_type := apiKey;
                  m_expiresAt := None; m_lastVerified := Some verified;
                  m_metadata := None |};
     value := text; refreshToken := None |}.

(** What the form shows after [handleSubmit]. *)
Record Form := {
  error : option (list Z);
  success : bool
}.

(** [handleSubmit] with [text] in the input field; [verified] and [now]
    are the readings of [Date.now()] in the flow and in the vault. *)
Definition handleSubmit (text : list Z) (verified now : Z) (v : LocalVault.Vault)
    : Form * LocalVault.Vault :=
  match verifyOpenAIKey text with
  | None =>
      match LocalVault.saveCredential (openai_credential text verified) now v with
      | (Ok true, v') => ({| error := None; success := true |}, v')
      | (Ok false, v') =>
          ({| error := Some (js "Failed to save the API key. Please try again.");
              success := false |}, v')
      | (Throw _, v') =>
          ({| error := Some (js "An error occurred while verifying the API key.");
              success := false |}, v')
      end
  | Some message =>
      ({| error := Some (match message with
                         | [] => js "Invalid API key. Please check and try again."
                         | _ => message
                         end);
          success := false |}, v)
  end.

End OpenAIFlow.
End OpenAIFlow.

(** ** More examples on the model *)

Module MoreExamples.
Open Scope string_scope.

(** An OAuth record with a refresh token. *)
Definition record_b : Credential unit :=
  {| fields := {| m_id := js "b"; m_serviceId := js "google"; m_name := js "token";
                  m_type := oauth; m_expiresAt := Some 99; m_lastVerified := None;
                  m_metadata := None |};
     value := js "ya29"; refreshToken := Some (js "1//r") |}.

(** The same record after a renewal that brought no refresh token. *)
Definition record_b_renewed : Credential unit :=
  {| fields := fields record_b; value := js "ya30"; refreshToken := None |}.

(** The vault of the examples after the record of id [a] was saved. *)
Definition vault_a : @LocalVault.Vault Model.crypto :=
  (@LocalVault.saveCredential Model.crypto Model.json
     Examples.record_a 5 Examples.vault0).2.

(** The export of that vault under the password [pw]. *)
Definition exported_a : list Z :=
  match (@LocalVault.exportVault Model.crypto Model.json (js "pw") 6 vault_a).1 with
  | Ok text => text
  | Throw _ => []
  end.

(** The vault of the examples after the record of id [b] was saved. *)
Definition vault_b : @LocalVault.Vault Model.crypto :=
  (@LocalVault.saveCredential Model.crypto Model.json
     record_b 5 Examples.vault0).2.

Close Scope string_scope.
End MoreExamples.

(** ** The credential handlers as a machine *)

Module CredentialRequests.
Section CredentialRequests.
Context `{Json}.
Variable SERVICE_NAME : list Z.

(** The calls that change the backend. *)
Inductive request :=
| Save_credential (credential : Credential Meta)
| Delete_credential (id : list Z)
| Import_vault (importData importPassword : list Z).

Definition handle (b : CredentialIpc.Backend) (r : request) : CredentialIpc.Backend :=
  match r with
  | Save_credential c => (CredentialIpc.save_credential SERVICE_NAME c b).2
  | Delete_credential k => (CredentialIpc.delete_credential SERVICE_NAME k b).2
  | Import_vault importData importPassword =>
      (CredentialIpc.import_vault SERVICE_NAME importData importPassword b).2
  end.

(** The store and the keychain when the application is first run. *)
Definition fresh : CredentialIpc.Backend :=
  {| CredentialIpc.metadata_store := ∅; CredentialIpc.keychain := ∅ |}.

(** Every entry of the metadata store sits under its own id and has a
    value in the keychain. *)
Definition consistent (b : CredentialIpc.Backend) : Prop :=
  forall k m, CredentialIpc.metadata_store b !! k = Some m ->
    m_id m = k /\ is_Some (CredentialIpc.getPassword SERVICE_NAME k b).

(** The records ['export-vault'] serialises. *)
Definition exported_records (b : CredentialIpc.Backend) : list (Credential Meta) :=
  omap (CredentialIpc.export_entry SERVICE_NAME b)
       (map_to_list (CredentialIpc.metadata_store b)).

End CredentialRequests.
End CredentialRequests.

(** ** Shapes of the generated strings *)

(** The characters of the base64url alphabet: letters, digits, [-] and
    [_]. *)
Definition url_safe (c : Z) : bool :=
  ((65 <=? c) && (c <=? 90)) || ((97 <=? c) && (c <=? 122))
  || ((48 <=? c) && (c <=? 57)) || (c =? 45) || (c =? 95).

(** ** The keys of the OAuth sessions *)

(** Session [s] is stored under [k], its own id, and [k] is the
    hexadecimal form of sixteen bytes of the supply [e0] which the module
    drew as a whole, after the position at which [e0] stands and before
    the position [upto]. *)
Definition drawn_key (e0 : Entropy) (upto : nat) (k : list Z) (s : OAuth.OAuthSession)
    : Prop :=
  OAuth.sessionId s = k /\
  exists d, (drawn e0 <= d)%nat /\ (d + 16 <= upto)%nat /\
            k = toHex (map (supply e0) (seq d 16)).

(** The module reads the supply of [e0], has not read before the
    position of [e0], and every session it holds has a key it drew. *)
Definition drawn_keys (e0 : Entropy) (se : OAuth.Server * Entropy) : Prop :=
  supply se.2 = supply e0 /\ (drawn e0 <= drawn se.2)%nat /\
  forall k s, OAuth.activeSessions se.1 !! k = Some s -> drawn_key e0 (drawn se.2) k s.

(** ** Counting the running jobs *)

Module AutomationState.
Import Automation.

Definition is_running (j : AutomationJob) : bool := bool_decide (status j = running).

(** The running jobs among the objects the entries [l] refer to. *)
Definition running_among (objs : list AutomationJob) (l : list (list Z * nat)) : nat :=
  length (List.filter is_running (omap (fun kr => objs !! kr.2) l)).

(** [runningJobs.length] as ['run-automation'] computes it. *)
Definition running_jobs (st : Scheduler) : nat :=
  length (List.filter (fun j => bool_decide (status j = running)) (active_objects st)).

(** Every entry of [activeJobs] refers to an object that exists. *)
Definition well_indexed (st : Scheduler) : Prop :=
  forall k r, activeJobs st !! k = Some r -> (r < length (objects st))%nat.

(** A state in which at most [n] jobs run. *)
Definition within (n : nat) (st : Scheduler) : Prop :=
  well_indexed st /\ (running_jobs st <= n)%nat.

(** [activeJobs[k]] is the job object [j], stored at position [n]. *)
Definition holds (st : Scheduler) (k : list Z) (n : nat) (j : AutomationJob) : Prop :=
  activeJobs st !! k = Some n /\ objects st !! n = Some j.

(** The job object ['run-automation'] creates at time [now]. *)
Definition submitted (k : list Z) (now : Z) : AutomationJob :=
  {| id := k; status := running; result := None; error := None;
     createdAt := now; expiresAt := now + JOB_TIMEOUT; context := None |}.

End AutomationState.

(** ** Further examples on the model *)

Module FlowExamples.
Import OAuth.
Open Scope string_scope.

(** One flow with PKCE started at time 1000 on a fresh server. *)
Definition flow_pkce :=
  start_oauth_flow (js "client") [js "openid"] true (js "49152") true 1000
    started Model.entropy0.

Definition verifier_pkce : list Z :=
  base64url (map (supply Model.entropy0) (seq 16 32)).

(** A source of entropy whose draws of sixteen bytes differ from one
    another for the first 256 draws. *)
Definition counter : Entropy :=
  {| supply := fun i => z2b (Z.of_nat (i / 16)); drawn := 0 |}.

(** A server on which [MAX_SESSIONS] flows were started at time 1000. *)
Definition crowded : Server * Entropy :=
  foldl handle (started, counter)
    (replicate MAX_SESSIONS
       (Start_oauth_flow (js "client") [js "openid"] false (js "49152") true 1000)).

(** The first of these sessions. *)
Definition first_sid : list Z := toHex (replicate 16 x00).

Definition first_session : OAuthSession :=
  {| sessionId := first_sid;
     redirectUri := js "http://localhost:49152/oauth/callback";
     result := None; completed := false;
     createdAt := 1000; expiresAt := 1000 + SESSION_TIMEOUT;
     clientId := js "client"; scopes := [js "openid"] |}.

Close Scope string_scope.
End FlowExamples.

Module JobExamples.
Import Automation AutomationState.

(** A job is submitted at time 0 on a fresh module. *)
Definition accepted : run_reply * Scheduler :=
  run_automation 0 (initial Model.entropy0).

(** The same once its browser context exists. *)
Definition with_browser : Scheduler :=
  context_created AutomationExamples.first_job None accepted.2.

End JobExamples.

(** * Properties *)

(** ** Bytes *)

Lemma b2z_range (b : byte) : 0 <= b2z b < 256.
Proof.
  unfold b2z. pose proof (Byte.to_N_bounded b) as Hb.
  lia.
Qed.

Lemma z2b_b2z (b : byte) : z2b (b2z b) = b.
Proof.
  unfold z2b. rewrite Z.mod_small by apply b2z_range.
  unfold b2z. rewrite N2Z.id, Byte.of_to_N. reflexivity.
Qed.

Lemma b2z_z2b (z : Z) : 0 <= z < 256 -> b2z (z2b z) = z.
Proof.
  intros Hz. unfold z2b. rewrite Z.mod_small by assumption.
  destruct (Byte.of_N (Z.to_N z)) as [b|] eqn:E.
  - apply Byte.to_of_N in E. unfold b2z. rewrite E. lia.
  - apply Byte.of_N_None_iff in E. lia.
Qed.

Lemma map_z2b_b2z (l : list byte) : map z2b (map b2z l) = l.
Proof.
  induction l as [|b l IH]; simpl; [reflexivity|].
  rewrite z2b_b2z, IH. reflexivity.
Qed.

Lemma b2z_inj (a b : byte) : b2z a = b2z b -> a = b.
Proof. intros E. rewrite <- (z2b_b2z a), <- (z2b_b2z b), E. reflexivity. Qed.

(** ** Base64 round trip *)

Module Base64Facts.
Import Base64.

Lemma value_of_char_of (n : Z) : 0 <= n < 64 -> value_of (char_of n) = Some n.
Proof.
  intros Hn. unfold char_of, value_of.
  repeat match goal with
         | |- context [?a <? ?b] => destruct (Z.ltb_spec a b)
         | |- context [?a <=? ?b] => destruct (Z.leb_spec a b)
         | |- context [?a =? ?b] => destruct (Z.eqb_spec a b)
         end; simpl; try lia; f_equal; lia.
Qed.

Lemma char_of_plain (n : Z) :
  0 <= n < 64 -> is_ascii_whitespace (char_of n) = false /\ char_of n <> pad.
Proof.
  intros Hn. unfold char_of, is_ascii_whitespace, pad.
  repeat match goal with
         | |- context [?a <? ?b] => destruct (Z.ltb_spec a b)
         | |- context [?a =? ?b] => destruct (Z.eqb_spec a b)
         end; simpl; split; try reflexivity; lia.
Qed.

Lemma strip_padding_cons (c : Z) (t : list Z) :
  c <> pad -> strip_padding (c :: t) = c :: strip_padding t.
Proof.
  intros Hc. apply Z.eqb_neq in Hc.
  destruct t as [|d [|d' t]]; simpl; rewrite ?Hc; reflexivity.
Qed.

(** Induction three bytes at a time, as [encode] recurses. *)
Lemma triples_ind (P : list Z -> Prop) :
  P [] -> (forall a, P [a]) -> (forall a b, P [a; b]) ->
  (forall a b c r, P r -> P (a :: b :: c :: r)) ->
  forall l, P l.
Proof.
  intros H0 H1 H2 H3 l.
  assert (P l /\ (forall a, P (a :: l)) /\ (forall a b, P (a :: b :: l))) as [? _].
  { induction l as [|x l (IH0 & IH1 & IH2)]; [auto|].
    split; [apply IH1|]. split; [intros a; apply IH2|]. intros a b. apply H3, IH0. }
  assumption.
Qed.

Lemma sextet_ranges (a b c : Z) :
  octet a -> octet b -> octet c ->
  0 <= a / 4 < 64 /\ 0 <= a mod 4 * 16 < 64 /\ 0 <= a mod 4 * 16 + b / 16 < 64 /\
  0 <= b mod 16 * 4 < 64 /\ 0 <= b mod 16 * 4 + c / 64 < 64 /\ 0 <= c mod 64 < 64.
Proof. unfold octet. intros. repeat split; Z.to_euclidean_division_equations; lia. Qed.

Lemma encode_plain (l : list Z) :
  Forall octet l ->
  List.filter (fun c => negb (is_ascii_whitespace c)) (encode l) = encode l /\
  Z.of_nat (length (encode l)) mod 4 = 0.
Proof.
  induction l as [|a|a b|a b c r IH] using triples_ind; intros Hl.
  - split; reflexivity.
  - inversion_clear Hl as [|? ? Ha _].
    destruct (sextet_ranges a 0 0 Ha) as (H1 & H2 & _); [unfold octet; lia..|].
    simpl. rewrite (proj1 (char_of_plain _ H1)), (proj1 (char_of_plain _ H2)).
    split; reflexivity.
  - inversion_clear Hl as [|? ? Ha Hl']. inversion_clear Hl' as [|? ? Hb _].
    destruct (sextet_ranges a b 0 Ha Hb) as (H1 & _ & H2 & H3 & _); [unfold octet; lia|].
    simpl. rewrite (proj1 (char_of_plain _ H1)), (proj1 (char_of_plain _ H2)),
      (proj1 (char_of_plain _ H3)).
    split; reflexivity.
  - inversion_clear Hl as [|? ? Ha Hl']. inversion_clear Hl' as [|? ? Hb Hl''].
    inversion_clear Hl'' as [|? ? Hc Hr].
    destruct (sextet_ranges a b c Ha Hb Hc) as (H1 & _ & H2 & _ & H3 & H4).
    destruct (IH Hr) as [IHf IHl].
    cbn [encode List.filter].
    rewrite (proj1 (char_of_plain _ H1)), (proj1 (char_of_plain _ H2)),
      (proj1 (char_of_plain _ H3)), (proj1 (char_of_plain _ H4)).
    cbn [negb]. rewrite IHf. split; [reflexivity|].
    cbn [length]. rewrite !Nat2Z.inj_succ.
    clear -IHl. generalize dependent (Z.of_nat (length (encode r))). intros n Hn.
    Z.to_euclidean_division_equations; lia.
Qed.

Lemma decode_stripped (l : list Z) :
  Forall octet l ->
  exists vs, sextets (strip_padding (encode l)) = Some vs /\ decode vs = l /\
             Z.of_nat (length (strip_padding (encode l))) mod 4 <> 1.
Proof.
  induction l as [|a|a b|a b c r IH] using triples_ind; intros Hl.
  - exists []. split; [reflexivity|]. split; [reflexivity|]. vm_compute. discriminate.
  - inversion_clear Hl as [|? ? Ha _].
    destruct (sextet_ranges a 0 0 Ha) as (H1 & H2 & _); [unfold octet; lia..|].
    cbn [encode]. rewrite !strip_padding_cons by (apply char_of_plain; assumption).
    cbn [strip_padding sextets]. rewrite Z.eqb_refl. cbn [andb sextets].
    rewrite !value_of_char_of by assumption.
    eexists. split; [reflexivity|]. split; [|cbn [length]; vm_compute; discriminate].
    cbn [decode]. f_equal. unfold octet in Ha. Z.to_euclidean_division_equations; lia.
  - inversion_clear Hl as [|? ? Ha Hl']. inversion_clear Hl' as [|? ? Hb _].
    destruct (sextet_ranges a b 0 Ha Hb) as (H1 & _ & H2 & H3 & _); [unfold octet; lia|].
    cbn [encode]. rewrite !strip_padding_cons by (apply char_of_plain; assumption).
    cbn [strip_padding sextets]. rewrite Z.eqb_refl. cbn [sextets].
    rewrite !value_of_char_of by assumption.
    eexists. split; [reflexivity|]. split; [|cbn [length]; vm_compute; discriminate].
    cbn [decode]. unfold octet in Ha, Hb.
    f_equal; [|f_equal]; Z.to_euclidean_division_equations; lia.
  - inversion_clear Hl as [|? ? Ha Hl']. inversion_clear Hl' as [|? ? Hb Hl''].
    inversion_clear Hl'' as [|? ? Hc Hr].
    destruct (sextet_ranges a b c Ha Hb Hc) as (H1 & _ & H2 & _ & H3 & H4).
    destruct (IH Hr) as (vs & Hs & Hd & Hn).
    cbn [encode]. rewrite !strip_padding_cons by (apply char_of_plain; assumption).
    cbn [sextets]. rewrite !value_of_char_of by assumption. rewrite Hs.
    eexists. split; [reflexivity|]. split.
    + cbn [decode]. rewrite Hd. unfold octet in Ha, Hb, Hc.
      f_equal; [|f_equal; [|f_equal]]; Z.to_euclidean_division_equations; lia.
    + cbn [length]. rewrite !Nat2Z.inj_succ.
      clear -Hn. generalize dependent (Z.of_nat (length (strip_padding (encode r)))).
      intros n Hn. Z.to_euclidean_division_equations; lia.
Qed.

Lemma atob_encode (l : list Z) : Forall octet l -> atob (encode l) = Some l.
Proof.
  intros Hl. unfold atob.
  destruct (encode_plain l Hl) as [-> Hlen].
  rewrite Hlen. cbn [Z.eqb].
  destruct (decode_stripped l Hl) as (vs & -> & Hd & Hn).
  apply Z.eqb_neq in Hn. rewrite Hn. simpl. rewrite Hd. reflexivity.
Qed.

End Base64Facts.

(** [base64ToArrayBuffer] undoes [arrayBufferToBase64], which never fails. *)
Lemma arrayBufferToBase64_total (l : list byte) :
  arrayBufferToBase64 l = Some (Base64.encode (map b2z l)).
Proof.
  unfold arrayBufferToBase64, Base64.btoa.
  replace (forallb _ _) with true; [reflexivity|].
  symmetry. apply forallb_forall. intros x Hx. apply in_map_iff in Hx.
  destruct Hx as (b & <- & _). pose proof (b2z_range b). 
  apply andb_true_iff. split; [apply Z.leb_le|apply Z.ltb_lt]; lia.
Qed.

Lemma base64ToArrayBuffer_arrayBufferToBase64 (l : list byte) (s : list Z) :
  arrayBufferToBase64 l = Some s -> base64ToArrayBuffer s = Some l.
Proof.
  rewrite arrayBufferToBase64_total. intros [= <-].
  unfold base64ToArrayBuffer. rewrite Base64Facts.atob_encode.
  - simpl. rewrite map_z2b_b2z. reflexivity.
  - apply Forall_forall. intros x Hx. apply list_elem_of_In, in_map_iff in Hx.
    destruct Hx as (b & <- & _). apply b2z_range.
Qed.

(** ** UTF-8 round trip *)

Module Utf8Facts.
Import Utf8.

Lemma land_low (b : Z) (n : Z) : 0 <= n -> Z.land b (Z.ones n) = b mod 2 ^ n.
Proof. intros. apply Z.land_ones. assumption. Qed.

Lemma lor_shiftl_low (a b : Z) :
  0 <= a -> 0 <= b < 64 -> Z.lor (Z.shiftl a 6) b = a * 64 + b.
Proof.
  intros Ha Hb.
  assert (Z.land (Z.shiftl a 6) b = 0) as Hland.
  { apply Z.bits_inj'. intros n Hn. rewrite Z.land_spec, Z.bits_0.
    destruct (Z.ltb_spec n 6).
    - rewrite Z.shiftl_spec_low by lia. reflexivity.
    - replace (Z.testbit b n) with false; [apply andb_false_r|].
      symmetry. destruct (Z.eq_dec b 0) as [->|]; [apply Z.bits_0|].
      apply Z.bits_above_log2; [lia|]. apply Z.log2_lt_pow2; [lia|].
      apply Z.lt_le_trans with (2 ^ 6); [simpl; lia|].
      apply Z.pow_le_mono_r; lia. }
  rewrite <- Z.lxor_lor, <- Z.add_nocarry_lxor by exact Hland.
  rewrite Z.shiftl_mul_pow2 by lia. reflexivity.
Qed.

Ltac cmp :=
  repeat match goal with
         | |- context [?a <? ?b] => destruct (Z.ltb_spec a b)
         | |- context [?a <=? ?b] => destruct (Z.leb_spec a b)
         | |- context [?a =? ?b] => destruct (Z.eqb_spec a b)
         end; cbn [andb orb negb].

Lemma lead_ascii (b : Z) : 0 <= b <= 0x7F -> lead b = ([b], initial).
Proof. intros. unfold lead. cmp; try lia; reflexivity. Qed.

Lemma lead_two (q : Z) :
  2 <= q < 32 ->
  lead (0xC0 + q) =
  ([], {| code_point := q; bytes_seen := 0; bytes_needed := 1;
          lower_boundary := 0x80; upper_boundary := 0xBF |}).
Proof.
  intros. unfold lead. change 0x1F with (Z.ones 5). rewrite land_low by lia.
  cmp; try lia. repeat f_equal. Z.to_euclidean_division_equations; lia.
Qed.

Lemma lead_three (q : Z) :
  0 <= q < 16 ->
  lead (0xE0 + q) =
  ([], {| code_point := q; bytes_seen := 0; bytes_needed := 2;
          lower_boundary := (if q =? 0 then 0xA0 else 0x80);
          upper_boundary := (if q =? 13 then 0x9F else 0xBF) |}).
Proof.
  intros. unfold lead. change 0xF with (Z.ones 4). rewrite land_low by lia.
  cmp; try lia; repeat f_equal; Z.to_euclidean_division_equations; lia.
Qed.

Lemma lead_four (q : Z) :
  0 <= q < 5 ->
  lead (0xF0 + q) =
  ([], {| code_point := q; bytes_seen := 0; bytes_needed := 3;
          lower_boundary := (if q =? 0 then 0x90 else 0x80);
          upper_boundary := (if q =? 4 then 0x8F else 0xBF) |}).
Proof.
  intros. unfold lead. change 0x7 with (Z.ones 3). rewrite land_low by lia.
  cmp; try lia; repeat f_equal; Z.to_euclidean_division_equations; lia.
Qed.

(** A continuation byte inside the bounds of an open sequence. *)
Lemma step_continue (cp seen needed lo hi r : Z) :
  0 <= cp -> 0 <= r < 64 -> needed <> 0 -> lo <= 0x80 + r <= hi ->
  step {| code_point := cp; bytes_seen := seen; bytes_needed := needed;
          lower_boundary := lo; upper_boundary := hi |} (0x80 + r) =
  if seen + 1 =? needed then ([cp * 64 + r], initial)
  else ([], {| code_point := cp * 64 + r; bytes_seen := seen + 1;
               bytes_needed := needed;
               lower_boundary := 0x80; upper_boundary := 0xBF |}).
Proof.
  intros Hcp Hr Hn Hb. unfold step. cbn [bytes_needed lower_boundary upper_boundary
    code_point bytes_seen].
  change 0x3F with (Z.ones 6). rewrite land_low by lia.
  replace ((0x80 + r) mod 2 ^ 6) with r by (Z.to_euclidean_division_equations; lia).
  rewrite lor_shiftl_low by lia.
  destruct (Z.eqb_spec needed 0); [lia|].
  destruct (Z.leb_spec lo (0x80 + r)); [|lia].
  destruct (Z.leb_spec (0x80 + r) hi); [|lia].
  reflexivity.
Qed.

Lemma step_last (cp seen needed lo hi r : Z) :
  0 <= cp -> 0 <= r < 64 -> needed <> 0 -> lo <= 0x80 + r <= hi ->
  seen + 1 = needed ->
  step {| code_point := cp; bytes_seen := seen; bytes_needed := needed;
          lower_boundary := lo; upper_boundary := hi |} (0x80 + r) =
  ([cp * 64 + r], initial).
Proof.
  intros. rewrite step_continue by assumption.
  destruct (Z.eqb_spec (seen + 1) needed); [reflexivity|lia].
Qed.

Lemma step_more (cp seen needed lo hi r : Z) :
  0 <= cp -> 0 <= r < 64 -> needed <> 0 -> lo <= 0x80 + r <= hi ->
  seen + 1 <> needed ->
  step {| code_point := cp; bytes_seen := seen; bytes_needed := needed;
          lower_boundary := lo; upper_boundary := hi |} (0x80 + r) =
  ([], {| code_point := cp * 64 + r; bytes_seen := seen + 1;
          bytes_needed := needed;
          lower_boundary := 0x80; upper_boundary := 0xBF |}).
Proof.
  intros. rewrite step_continue by assumption.
  destruct (Z.eqb_spec (seen + 1) needed); [lia|reflexivity].
Qed.

Lemma step_initial (b : Z) : step initial b = lead b.
Proof. reflexivity. Qed.

Ltac euclid := Z.to_euclidean_division_equations; lia.

Lemma run_encode_scalar (cp : Z) (rest : list byte) :
  scalar cp -> run initial (encode_scalar cp ++ rest) = cp :: run initial rest.
Proof.
  intros [Hr Hs]. unfold encode_scalar.
  destruct (Z.ltb_spec cp 0x80); [|destruct (Z.ltb_spec cp 0x800);
    [|destruct (Z.ltb_spec cp 0x10000)]].
  - cbn [app run]. rewrite b2z_z2b, step_initial, lead_ascii by lia. reflexivity.
  - cbn [app run].
    rewrite !b2z_z2b by euclid.
    rewrite step_initial, lead_two by euclid.
    rewrite step_last by euclid.
    cbn [app]. f_equal. euclid.
  - cbn [app run].
    rewrite !b2z_z2b by euclid.
    rewrite step_initial, lead_three by euclid.
    rewrite step_more; [| euclid | euclid | lia | | lia].
    2: { destruct (Z.eqb_spec (cp / 4096) 0), (Z.eqb_spec (cp / 4096) 13); euclid. }
    rewrite step_last by euclid.
    cbn [app]. f_equal. euclid.
  - cbn [app run].
    rewrite !b2z_z2b by euclid.
    rewrite step_initial, lead_four by euclid.
    rewrite step_more; [| euclid | euclid | lia | | lia].
    2: { destruct (Z.eqb_spec (cp / 262144) 0), (Z.eqb_spec (cp / 262144) 4); euclid. }
    rewrite step_more by euclid.
    rewrite step_last by euclid.
    cbn [app]. f_equal. euclid.
Qed.

Lemma run_encode (cps : list Z) :
  Forall scalar cps -> run initial (flat_map encode_scalar cps) = cps.
Proof.
  induction 1 as [|cp cps Hcp _ IH]; [reflexivity|].
  cbn [flat_map]. rewrite run_encode_scalar, IH by assumption. reflexivity.
Qed.

(** A well-formed string is the UTF-16 form of its scalar values. *)
Lemma to_scalars_well_formed (s : list Z) :
  well_formed s = true ->
  Forall scalar (to_scalars s) /\ flat_map of_scalar (to_scalars s) = s.
Proof.
  remember (length s) as n eqn:Hn.
  revert s Hn. induction n as [n IH] using lt_wf_ind. intros s Hn.
  destruct s as [|u r]; [split; [constructor|reflexivity]|].
  cbn [well_formed to_scalars]. unfold is_high, is_low, scalar.
  destruct (Z.leb_spec 0xD800 u), (Z.leb_spec u 0xDBFF); cbn [andb].
  - destruct r as [|v r']; [discriminate|].
    destruct (Z.leb_spec 0xDC00 v), (Z.leb_spec v 0xDFFF); cbn [andb]; try discriminate.
    intros Hw. destruct (IH (length r')) with (s := r') as [IH1 IH2];
      [subst n; simpl; lia | reflexivity | assumption |].
    split.
    + constructor; [lia | assumption].
    + cbn [flat_map]. rewrite IH2. unfold of_scalar.
      destruct (Z.ltb_spec (0x10000 + (u - 0xD800) * 0x400 + (v - 0xDC00)) 0x10000);
        [lia|].
      cbn [app]. f_equal; [euclid|]. f_equal. euclid.
  - destruct (Z.leb_spec 0xDC00 u), (Z.leb_spec u 0xDFFF), (Z.leb_spec 0 u),
      (Z.ltb_spec u 0x10000); cbn [andb negb]; try discriminate; try lia.
    intros Hw. destruct (IH (length r)) with (s := r) as [IH1 IH2];
      [subst n; simpl; lia | reflexivity | assumption |].
    split; [constructor; [lia | assumption]|].
    cbn [flat_map]. rewrite IH2. unfold of_scalar.
    destruct (Z.ltb_spec u 0x10000); [reflexivity|lia].
  - destruct (Z.leb_spec 0xDC00 u), (Z.leb_spec u 0xDFFF), (Z.leb_spec 0 u),
      (Z.ltb_spec u 0x10000); cbn [andb negb]; try discriminate; try lia.
    intros Hw. destruct (IH (length r)) with (s := r) as [IH1 IH2];
      [subst n; simpl; lia | reflexivity | assumption |].
    split; [constructor; [lia | assumption]|].
    cbn [flat_map]. rewrite IH2. unfold of_scalar.
    destruct (Z.ltb_spec u 0x10000); [reflexivity|lia].
  - lia.
Qed.

(** The first scalar value of a well-formed string is U+FEFF only when
    its first code unit is. *)
Lemma head_to_scalars (s : list Z) :
  well_formed s = true -> head s <> Some 0xFEFF -> head (to_scalars s) <> Some 0xFEFF.
Proof.
  destruct s as [|u r]; [intros _ H; exact H|].
  cbn [well_formed to_scalars head]. unfold is_high, is_low.
  destruct (Z.leb_spec 0xD800 u), (Z.leb_spec u 0xDBFF); cbn [andb].
  - destruct r as [|v r']; [discriminate|].
    destruct (Z.leb_spec 0xDC00 v), (Z.leb_spec v 0xDFFF); cbn [andb]; try discriminate.
    intros _ _. cbn [head]. intros [= E]. lia.
  - destruct (Z.leb_spec 0xDC00 u), (Z.leb_spec u 0xDFFF); cbn [andb negb];
      try discriminate; intros _ Hu; exact Hu.
  - destruct (Z.leb_spec 0xDC00 u), (Z.leb_spec u 0xDFFF); cbn [andb negb];
      try discriminate; intros _ Hu; exact Hu.
  - lia.
Qed.

(** Only U+FEFF is encoded as the three bytes of the byte order mark. *)
Lemma strip_bom_encode_scalar (cp : Z) (rest : list byte) :
  scalar cp -> cp <> 0xFEFF ->
  strip_bom (encode_scalar cp ++ rest) = encode_scalar cp ++ rest.
Proof.
  intros [Hr Hs] Hcp. unfold encode_scalar.
  destruct (Z.ltb_spec cp 0x80); [|destruct (Z.ltb_spec cp 0x800);
    [|destruct (Z.ltb_spec cp 0x10000)]]; cbn [app strip_bom].
  - destruct rest as [|b2 [|b3 r]]; try reflexivity.
    rewrite b2z_z2b by lia.
    destruct (Z.eqb_spec cp 0xEF); [lia|reflexivity].
  - destruct rest as [|b3 r]; try reflexivity.
    rewrite b2z_z2b by euclid.
    destruct (Z.eqb_spec (0xC0 + cp / 64) 0xEF); [euclid|reflexivity].
  - rewrite !b2z_z2b by euclid.
    destruct (Z.eqb_spec (0xE0 + cp / 4096) 0xEF); [|reflexivity].
    destruct (Z.eqb_spec (0x80 + cp / 64 mod 64) 0xBB); [|reflexivity].
    destruct (Z.eqb_spec (0x80 + cp mod 64) 0xBF); [|reflexivity].
    exfalso. euclid.
  - rewrite !b2z_z2b by euclid.
    destruct (Z.eqb_spec (0xF0 + cp / 262144) 0xEF); [euclid|reflexivity].
Qed.

Lemma strip_bom_encode (s : list Z) :
  well_formed s = true -> head s <> Some 0xFEFF -> strip_bom (encode s) = encode s.
Proof.
  intros Hw Hh. unfold encode.
  pose proof (head_to_scalars s Hw Hh) as Hh'.
  destruct (to_scalars_well_formed s Hw) as [Hs _].
  destruct (to_scalars s) as [|cp cps]; [reflexivity|].
  cbn [flat_map]. apply strip_bom_encode_scalar.
  - inversion Hs; assumption.
  - intros ->. apply Hh'. reflexivity.
Qed.

(** [TextDecoder] undoes [TextEncoder] on a well-formed string that does
    not start with U+FEFF. *)
Lemma decode_encode (s : list Z) :
  well_formed s = true -> head s <> Some 0xFEFF -> decode (encode s) = s.
Proof.
  intros Hw Hh. unfold decode. rewrite strip_bom_encode by assumption.
  destruct (to_scalars_well_formed s Hw) as [Hs Hu].
  unfold encode. rewrite run_encode by assumption. exact Hu.
Qed.

End Utf8Facts.

(** ** The model satisfies the laws of the interface *)

Lemma model_tag_length (k iv : list byte) : length (Model.tag k iv) = 16%nat.
Proof.
  unfold Model.tag. rewrite length_take, !length_app, length_replicate. lia.
Qed.

Lemma model_crypto_laws : @WebCryptoLaws Model.crypto.
Proof.
  split.
  - intros k iv data _. eexists. reflexivity.
  - intros k iv data c [= <-]. cbn. unfold Model.unseal.
    pose proof (model_tag_length k iv) as Ht.
    rewrite length_app, Ht.
    replace (length data + 16 - 16)%nat with (length data) by lia.
    rewrite drop_app_length, take_app_length.
    rewrite !bool_decide_eq_true_2 by (try reflexivity; lia). reflexivity.
  - intros k iv c Hc. cbn. unfold Model.unseal.
    rewrite bool_decide_eq_false_2 by lia. reflexivity.
Qed.

(** ** encryption.ts *)

Lemma getRandomValues_length (n : nat) (e : Entropy) :
  length (getRandomValues n e).1 = n.
Proof. unfold getRandomValues. cbn. rewrite length_map, length_seq. reflexivity. Qed.

Section EncryptionFacts.
Context `{W : WebCrypto} {L : WebCryptoLaws}.

(** [encryptValue] draws twelve bytes, never fails, and returns the base64
    of the drawn bytes followed by the ciphertext under them. *)
Lemma encryptValue_draws (value : list Z) (key : CryptoKey) (e : Entropy) :
  let iv := (getRandomValues IV_LENGTH e).1 in
  exists c blob,
    subtle_encrypt key iv (Utf8.encode value) = Some c /\
    arrayBufferToBase64 (iv ++ c) = Some blob /\
    encryptValue value key e = (Ok blob, (getRandomValues IV_LENGTH e).2).
Proof.
  intros iv. unfold encryptValue.
  destruct (getRandomValues IV_LENGTH e) as [iv' e'] eqn:E. subst iv. cbn [fst snd].
  destruct (encrypt_succeeds key iv' (Utf8.encode value)) as [c Hc].
  { intros ->. apply (f_equal (fun p => length p.1)) in E.
    rewrite getRandomValues_length in E. discriminate. }
  exists c, (Base64.encode (map b2z (iv' ++ c))).
  rewrite Hc, arrayBufferToBase64_total. auto.
Qed.

(** What [decryptValue] finds in a blob made of [iv] and [c]. *)
Lemma decryptValue_blob (iv c : list byte) (blob : list Z) (key : CryptoKey) :
  length iv = IV_LENGTH ->
  arrayBufferToBase64 (iv ++ c) = Some blob ->
  decryptValue blob key =
  match subtle_decrypt key iv c with
  | Some d => Ok (Utf8.decode d)
  | None => Throw Decryption_failed
  end.
Proof.
  intros Hiv Hb. unfold decryptValue.
  rewrite (base64ToArrayBuffer_arrayBufferToBase64 _ _ Hb).
  rewrite <- Hiv, take_app_length, drop_app_length. reflexivity.
Qed.

(** Decrypting what was encrypted gives the text [TextDecoder] makes of
    the bytes [TextEncoder] made. *)
Lemma decrypt_after_encrypt_text (value : list Z) (key : CryptoKey) (e : Entropy) :
  exists blob,
    (encryptValue value key e).1 = Ok blob /\
    decryptValue blob key = Ok (Utf8.decode (Utf8.encode value)).
Proof.
  destruct (encryptValue_draws value key e) as (c & blob & Hc & Hb & ->).
  exists blob. split; [reflexivity|].
  rewrite (decryptValue_blob _ _ _ _ (getRandomValues_length _ _) Hb).
  rewrite (decrypt_encrypt _ _ _ _ Hc). reflexivity.
Qed.

(** A string that starts with U+FEFF comes back without it. *)
Lemma byte_order_mark_is_dropped (key : CryptoKey) (e : Entropy) :
  exists blob,
    (encryptValue [0xFEFF] key e).1 = Ok blob /\ decryptValue blob key = Ok [].
Proof. apply (decrypt_after_encrypt_text [0xFEFF]). Qed.

(** C1, as amended: for every key and every plaintext that is a
    well-formed string and does not start with U+FEFF, [encryptValue]
    succeeds and [decryptValue] of its blob under the same key returns
    exactly the plaintext. *)
Theorem decryptValue_encryptValue (value : list Z) (key : CryptoKey) (e : Entropy) :
  Utf8.well_formed value = true ->
  head value <> Some 0xFEFF ->
  exists blob,
    (encryptValue value key e).1 = Ok blob /\ decryptValue blob key = Ok value.
Proof.
  intros Hw Hh.
  destruct (decrypt_after_encrypt_text value key e) as (blob & Hb & Hd).
  exists blob. split; [assumption|].
  rewrite Hd, Utf8Facts.decode_encode by assumption. reflexivity.
Qed.

End EncryptionFacts.

(** C1, as stated, fails: the one-character string U+FEFF does not come
    back from [decryptValue]. *)
Lemma round_trip_loses_byte_order_mark :
  ~ (forall (W : WebCrypto) (L : WebCryptoLaws) (value : list Z)
            (key : CryptoKey) (e : Entropy),
        exists blob,
          (encryptValue value key e).1 = Ok blob /\
          decryptValue blob key = Ok value).
Proof.
  intros H.
  destruct (H Model.crypto model_crypto_laws [0xFEFF] [] Model.entropy0)
    as (blob & Hb & Hd).
  destruct (@byte_order_mark_is_dropped Model.crypto model_crypto_laws
              [] Model.entropy0) as (blob' & Hb' & Hd').
  rewrite Hb in Hb'. injection Hb' as <-. rewrite Hd in Hd'. discriminate.
Qed.

Lemma decryptValue_encryptValue_witness :
  Utf8.well_formed (js "sk-123") = true /\
  head (js "sk-123") <> Some 0xFEFF /\
  exists blob,
    (@encryptValue Model.crypto (js "sk-123") [x01; x02] Model.entropy0).1 = Ok blob /\
    @decryptValue Model.crypto blob [x01; x02] = Ok (js "sk-123").
Proof.
  split; [reflexivity|]. split; [discriminate|].
  apply (@decryptValue_encryptValue Model.crypto model_crypto_laws).
  - reflexivity.
  - discriminate.
Defined.

Section DecryptionFacts.
Context `{W : WebCrypto} {L : WebCryptoLaws}.

(** [decryptValue] throws nothing but 'Decryption failed'. *)
Lemma decryptValue_throws (blob : list Z) (key : CryptoKey) (x : exn) :
  decryptValue blob key = Throw x -> x = Decryption_failed.
Proof.
  unfold decryptValue.
  destruct (base64ToArrayBuffer blob); [|congruence].
  destruct (subtle_decrypt _ _ _); congruence.
Qed.

(** It fails closed: a text is returned only when the blob is base64 and
    the primitive has accepted the bytes after the first twelve under the
    first twelve as IV; the text is then the decoding of the whole output
    of the primitive. *)
Lemma decryptValue_fails_closed (blob : list Z) (key : CryptoKey) (text : list Z) :
  decryptValue blob key = Ok text ->
  exists data d,
    base64ToArrayBuffer blob = Some data /\
    subtle_decrypt key (take IV_LENGTH data) (drop IV_LENGTH data) = Some d /\
    text = Utf8.decode d.
Proof.
  unfold decryptValue.
  destruct (base64ToArrayBuffer blob) as [data|]; [|discriminate].
  destruct (subtle_decrypt _ _ _) as [d|] eqn:E; [|discriminate].
  intros [= <-]. eauto.
Qed.

Lemma decryptValue_rejected (blob : list Z) (key : CryptoKey) (data : list byte) :
  base64ToArrayBuffer blob = Some data ->
  subtle_decrypt key (take IV_LENGTH data) (drop IV_LENGTH data) = None ->
  decryptValue blob key = Throw Decryption_failed.
Proof. unfold decryptValue. intros -> ->. reflexivity. Qed.

(** X4: a blob that is not base64, or whose bytes cannot hold an IV and
    a tag, is refused. *)
Lemma decryptValue_malformed (blob : list Z) (key : CryptoKey) :
  match base64ToArrayBuffer blob with
  | None => True
  | Some data => (length data < IV_LENGTH + 16)%nat
  end ->
  decryptValue blob key = Throw Decryption_failed.
Proof.
  unfold decryptValue.
  destruct (base64ToArrayBuffer blob) as [data|]; [|reflexivity].
  intros Hlen. rewrite decrypt_needs_tag; [reflexivity|].
  rewrite length_drop. lia.
Qed.

(** ** Fresh IVs *)



End DecryptionFacts.



(** ** Plain objects *)

Lemma get_set_own {V} (o : gmap (list Z) V) (k : list Z) (v : V) :
  k <> JsObject.proto \/ is_Some (o !! k) ->
  JsObject.get (JsObject.set o k v) k = JsObject.Own v.
Proof.
  intros Hk. unfold JsObject.get, JsObject.set.
  destruct (bool_decide (k = JsObject.proto)) eqn:E.
  - apply bool_decide_eq_true in E.
    destruct Hk as [Hk|[x Hx]]; [contradiction|].
    rewrite Hx, lookup_insert_eq. reflexivity.
  - rewrite lookup_insert_eq. reflexivity.
Qed.

(** The assignment to [__proto__] of an object without such an own
    property leaves the object as it was. *)
Lemma set_proto_ignored {V} (o : gmap (list Z) V) (v : V) :
  o !! JsObject.proto = None -> JsObject.set o JsObject.proto v = o.
Proof. intros Ho. unfold JsObject.set. rewrite Ho. reflexivity. Qed.

Lemma get_remove {V} (o : gmap (list Z) V) (k : list Z) :
  JsObject.get (JsObject.remove o k) k =
  if JsObject.inherited k then JsObject.Inherited else JsObject.Undefined.
Proof. unfold JsObject.get, JsObject.remove. rewrite lookup_delete_eq. reflexivity. Qed.

(** What an inherited property evaluates to is no base64 text. *)
Lemma inherited_text_not_base64 (k : list Z) :
  JsObject.inherited k = true -> base64ToArrayBuffer (JsObject.inherited_text k) = None.
Proof.
  unfold JsObject.inherited. intros Hk. apply bool_decide_eq_true in Hk.
  unfold JsObject.prototype_names in Hk. cbn [map] in Hk.
  repeat (apply elem_of_cons in Hk as [->|Hk]; [vm_compute; reflexivity|]).
  apply elem_of_nil in Hk. contradiction.
Qed.

Lemma encode_nonempty (l : list Z) : l <> [] -> Base64.encode l <> [].
Proof. destruct l as [|a [|b [|c r]]]; [congruence|discriminate..]. Qed.

(** ** The vault outside Electron *)

Section LocalVaultFacts.
Context `{W : WebCrypto} {L : WebCryptoLaws} `{J : Json}.
Import LocalVault.

(** The blob [encryptValue] returns is not the empty string. *)
Lemma encryptValue_nonempty (value : list Z) (key : CryptoKey) (e : Entropy) :
  exists u t e', encryptValue value key e = (Ok (u :: t), e') /\
              e' = (getRandomValues IV_LENGTH e).2.
Proof.
  destruct (encryptValue_draws value key e) as (c & blob & _ & Hb & ->).
  rewrite arrayBufferToBase64_total in Hb. injection Hb as <-.
  pose proof (getRandomValues_length IV_LENGTH e) as Hl.
  destruct ((getRandomValues IV_LENGTH e).1) as [|b l] eqn:Eiv; [discriminate Hl|].
  destruct (Base64.encode (map b2z ((b :: l) ++ c))) as [|u t] eqn:E; [|eauto].
  exfalso. revert E. apply encode_nonempty. simpl. discriminate.
Qed.

Lemma decryptValue_of_encryptValue (value : list Z) (key : CryptoKey) (e e' : Entropy)
    (blob : list Z) :
  json_text value ->
  encryptValue value key e = (Ok blob, e') ->
  decryptValue blob key = Ok value.
Proof.
  intros [Hw Hh] He.
  destruct (decrypt_after_encrypt_text value key e) as (blob' & Hb & Hd).
  rewrite He in Hb. injection Hb as <-.
  rewrite Hd, Utf8Facts.decode_encode; [reflexivity|assumption|].
  rewrite Hh. discriminate.
Qed.

(** Saving then getting: the record comes back, for every record whose
    JSON text parses back to it, unless its id is [__proto__] and the
    object holding the blobs has no own property of that name. *)
Lemma getCredential_saveCredential (c : Credential Meta) (now : Z) (v : Vault) :
  LocalVault.ready v ->
  credential_round_trips c ->
  id_of c <> JsObject.proto \/
    (exists d, vaultData v = Some d /\ is_Some (credentials d !! id_of c)) ->
  (saveCredential c now v).1 = Ok true /\
  getCredential (id_of c) (saveCredential c now v).2 = Ok (Some c).
Proof.
  intros (Hi & [key Hk] & [d Hd]) [Hp Ht] Hid.
  unfold saveCredential. rewrite Hi, Hk, Hd. cbn [negb].
  destruct (encryptValue_nonempty (stringify_credential c) key (entropy v))
    as (u & t & e' & He & _).
  rewrite He. cbn [fst snd]. split; [reflexivity|].
  unfold getCredential, store. cbn [initialized with_entropy encryptionKey vaultData
    credentials negb]. rewrite Hi, Hk. cbn [negb].
  rewrite get_set_own.
  - rewrite (decryptValue_of_encryptValue _ _ _ _ _ Ht He), Hp. reflexivity.
  - destruct Hid as [?|(d' & Hd' & ?)]; [left; assumption|right].
    rewrite Hd in Hd'. injection Hd' as <-. assumption.
Qed.

(** Deleting then getting: [null], for every key. *)
Lemma getCredential_deleteCredential (k : list Z) (now : Z) (v : Vault) :
  LocalVault.ready v ->
  getCredential k (deleteCredential k now v).2 = Ok None.
Proof.
  intros (Hi & [key Hk] & [d Hd]).
  assert (forall v', initialized v' = true -> encryptionKey v' = Some key ->
            (exists d', vaultData v' = Some d' /\
               match JsObject.get (credentials d') k with
               | JsObject.Own (_ :: _) => False
               | _ => True
               end) ->
            getCredential k v' = Ok None) as Hget.
  { intros v' Hi' Hk' (d' & Hd' & Hs). unfold getCredential.
    rewrite Hi', Hk', Hd'. cbn [negb].
    destruct (JsObject.get (credentials d') k) as [[|u t]| |] eqn:E;
      try reflexivity; [contradiction|].
    unfold decryptValue. rewrite inherited_text_not_base64; [reflexivity|].
    unfold JsObject.get in E. destruct (credentials d' !! k); [discriminate|].
    destruct (JsObject.inherited k); [reflexivity|discriminate]. }
  unfold deleteCredential. rewrite Hi, Hd. cbn [negb].
  destruct (JsObject.get (credentials d) k) as [[|u t]| |] eqn:E; cbn [snd].
  - apply Hget; try assumption. exists d. rewrite E. auto.
  - apply Hget; try assumption. eexists. split; [reflexivity|].
    cbn [credentials]. rewrite get_remove. destruct (JsObject.inherited k); exact I.
  - apply Hget; try assumption. eexists. split; [reflexivity|].
    cbn [credentials]. rewrite get_remove. destruct (JsObject.inherited k); exact I.
  - apply Hget; try assumption. exists d. rewrite E. auto.
Qed.

(** C4, the failing case: in a vault that holds no own property
    [__proto__], saving a record whose id is [__proto__] answers [true]
    and stores nothing, and getting that id answers [null]. *)
Theorem saveCredential_proto_is_lost (c : Credential Meta) (now : Z) (v : Vault)
    (d : VaultData) :
  LocalVault.ready v ->
  vaultData v = Some d ->
  credentials d !! JsObject.proto = None ->
  id_of c = JsObject.proto ->
  (saveCredential c now v).1 = Ok true /\
  (exists d', vaultData (saveCredential c now v).2 = Some d' /\
              credentials d' = credentials d) /\
  getCredential (id_of c) (saveCredential c now v).2 = Ok None.
Proof.
  intros (Hi & [key Hk] & _) Hd Hnone Hid.
  unfold saveCredential. rewrite Hi, Hk, Hd. cbn [negb].
  destruct (encryptValue_nonempty (stringify_credential c) key (entropy v))
    as (u & t & e' & He & _).
  rewrite He. cbn [fst snd]. split; [reflexivity|].
  rewrite Hid. unfold store. cbn [vaultData]. rewrite set_proto_ignored by assumption.
  split; [eexists; split; reflexivity|].
  unfold getCredential. cbn [initialized with_entropy encryptionKey vaultData
    credentials negb]. rewrite Hi, Hk. cbn [negb].
  unfold JsObject.get. rewrite Hnone.
  change (JsObject.inherited JsObject.proto) with true. cbn iota.
  unfold decryptValue. rewrite inherited_text_not_base64 by reflexivity. reflexivity.
Qed.

End LocalVaultFacts.

Lemma saveCredential_proto_is_lost_witness :
  @LocalVault.ready Model.crypto Examples.vault0 /\
  LocalVault.vaultData Examples.vault0 = Some Examples.empty_data /\
  LocalVault.credentials Examples.empty_data !! JsObject.proto = None /\
  id_of Examples.record_proto = JsObject.proto /\
  (@LocalVault.saveCredential Model.crypto Model.json
     Examples.record_proto 5 Examples.vault0).1 = Ok true /\
  @LocalVault.getCredential Model.crypto Model.json (id_of Examples.record_proto)
    (@LocalVault.saveCredential Model.crypto Model.json
       Examples.record_proto 5 Examples.vault0).2 = Ok None.
Proof.
  assert (@LocalVault.ready Model.crypto Examples.vault0) as Hr.
  { split; [reflexivity|]. split; eexists; reflexivity. }
  destruct (@saveCredential_proto_is_lost Model.crypto model_crypto_laws Model.json
              Examples.record_proto 5 Examples.vault0 Examples.empty_data
              Hr eq_refl eq_refl eq_refl) as (H1 & _ & H2).
  split; [exact Hr|]. split; [reflexivity|]. split; [reflexivity|].
  split; [reflexivity|]. split; assumption.
Defined.

(** ** Listing *)

Lemma keys_spec {V} (o : gmap (list Z) V) (k : list Z) :
  k ∈ JsObject.keys o <-> is_Some (o !! k).
Proof.
  unfold JsObject.keys. rewrite list_elem_of_fmap. split.
  - intros ([k' v] & -> & Hin). apply elem_of_map_to_list in Hin. eauto.
  - intros [v Hv]. exists (k, v). split; [reflexivity|].
    apply elem_of_map_to_list. assumption.
Qed.

Lemma values_spec {V} (o : gmap (list Z) V) (v : V) :
  v ∈ JsObject.values o <-> exists k, o !! k = Some v.
Proof.
  unfold JsObject.values. rewrite list_elem_of_fmap. split.
  - intros ([k v'] & -> & Hin). apply elem_of_map_to_list in Hin. eauto.
  - intros [k Hk]. exists (k, v). split; [reflexivity|].
    apply elem_of_map_to_list. assumption.
Qed.

Section ListingFacts.
Context `{W : WebCrypto} {L : WebCryptoLaws} `{J : Json}.

(** Outside Electron the listing holds every record [getCredential]
    returns for an own key: it is made by decrypting each blob. *)
Lemma getAllCredentials_spec (v : LocalVault.Vault) (d : LocalVault.VaultData)
    (c : Credential Meta) :
  LocalVault.ready v -> LocalVault.vaultData v = Some d ->
  exists l, LocalVault.getAllCredentials v = Ok l /\
    (c ∈ l <-> exists k, is_Some (LocalVault.credentials d !! k) /\
                         LocalVault.getCredential k v = Ok (Some c)).
Proof.
  intros (Hi & [key Hk] & _) Hd. unfold LocalVault.getAllCredentials.
  rewrite Hi, Hk, Hd. cbn [negb]. eexists. split; [reflexivity|].
  rewrite list_elem_of_omap. split.
  - intros (k & Hin & Hg). exists k. split; [apply keys_spec; assumption|].
    destruct (LocalVault.getCredential k v) as [[c'|]|]; congruence.
  - intros (k & Hin & Hg). exists k. split; [apply keys_spec; assumption|].
    rewrite Hg. reflexivity.
Qed.

(** C5, as amended.  In the Electron backend the listing is made of the
    metadata store alone, whatever the keychain holds, its entries have
    no [value] field, and after [save-credential] it holds the metadata of
    the record while [get-credential] returns the record's value.  Outside
    Electron the listing after [saveCredential] holds the whole record,
    [value] included, and [getCredential] returns the record. *)
Theorem listing_after_save (SERVICE_NAME : list Z) (c : Credential Meta) :
  (forall (b : CredentialIpc.Backend),
      id_of c <> JsObject.proto -> value c <> [] ->
      let b' := (CredentialIpc.save_credential SERVICE_NAME c b).2 in
      fields c ∈ CredentialIpc.get_all_credentials b' /\
      (forall keychain',
          CredentialIpc.get_all_credentials
            {| CredentialIpc.metadata_store := CredentialIpc.metadata_store b';
               CredentialIpc.keychain := keychain' |}
          = CredentialIpc.get_all_credentials b') /\
      exists r, CredentialIpc.get_credential SERVICE_NAME (id_of c) b'
                = CredentialIpc.Got {| fields := fields c; value := value c;
                                       refreshToken := r |}) /\
  (forall (v : LocalVault.Vault) (now : Z),
      LocalVault.ready v -> credential_round_trips c -> id_of c <> JsObject.proto ->
      let v' := (LocalVault.saveCredential c now v).2 in
      exists l, LocalVault.getAllCredentials v' = Ok l /\ c ∈ l /\
                LocalVault.getCredential (id_of c) v' = Ok (Some c)).
Proof.
  split.
  - intros b Hid Hv b'. subst b'. cbn [CredentialIpc.save_credential snd].
    unfold CredentialIpc.put, CredentialIpc.setMetadata.
    set (b2 := match refreshToken c with
               | Some (u :: t) => _
               | _ => _
               end).
    assert (CredentialIpc.getPassword SERVICE_NAME (id_of c) b2 = Some (value c)) as Hp.
    { subst b2. unfold CredentialIpc.getPassword.
      destruct (refreshToken c) as [[|u t]|]; cbn [CredentialIpc.setPassword
        CredentialIpc.keychain]; rewrite ?lookup_insert_eq; try reflexivity.
      rewrite lookup_insert_ne; [apply lookup_insert_eq|].
      unfold CredentialIpc.REFRESH_SERVICE. intros [= E].
      apply (f_equal length) in E. rewrite length_app in E. simpl in E. lia. }
    split; [|split].
    + unfold CredentialIpc.get_all_credentials. cbn [CredentialIpc.metadata_store].
      apply values_spec. exists (id_of c).
      unfold JsObject.set. rewrite bool_decide_eq_false_2 by exact Hid.
      apply lookup_insert_eq.
    + reflexivity.
    + unfold CredentialIpc.get_credential. cbn [CredentialIpc.metadata_store].
      change (m_id (fields c)) with (id_of c).
      rewrite get_set_own by (left; exact Hid).
      unfold CredentialIpc.getPassword in *. cbn [CredentialIpc.keychain] in *.
      rewrite Hp. destruct (value c) as [|u t] eqn:Ev; [congruence|].
      eexists. reflexivity.
  - intros v now Hr Hc Hid v'.
    destruct (getCredential_saveCredential c now v Hr Hc (or_introl Hid)) as [Hs Hg].
    fold v' in Hg.
    assert (LocalVault.ready v' /\ exists d', LocalVault.vaultData v' = Some d' /\
              is_Some (LocalVault.credentials d' !! id_of c)) as (Hr' & d' & Hd' & Hin).
    { subst v'. destruct Hr as (Hi & [key Hk] & [d Hd]).
      unfold LocalVault.saveCredential in *. rewrite Hi, Hk, Hd in *. cbn [negb] in *.
      destruct (encryptValue _ _ _) as [[blob|x] e']; [|discriminate Hs].
      cbn [snd]. split.
      - split; [exact Hi|]. split; eexists; [exact Hk|reflexivity].
      - eexists. split; [reflexivity|]. cbn [LocalVault.credentials].
        unfold JsObject.set. rewrite bool_decide_eq_false_2 by exact Hid.
        rewrite lookup_insert_eq. eauto. }
    destruct (getAllCredentials_spec v' d' c Hr' Hd') as (l & Hl & Hmem).
    exists l. split; [assumption|]. split; [|assumption].
    apply Hmem. eauto.
Qed.

End ListingFacts.

(** C5, as stated, fails outside Electron: after saving the record of id
    [a] and value [sk-123], the listing is that record, with its value. *)
Lemma local_listing_exposes_value :
  @LocalVault.getAllCredentials Model.crypto Model.json
    (@LocalVault.saveCredential Model.crypto Model.json
       Examples.record_a 5 Examples.vault0).2
  = Ok [Examples.record_a] /\
  value Examples.record_a = js "sk-123".
Proof. split; vm_compute; reflexivity. Qed.

Lemma listing_after_save_witness :
  id_of Examples.record_a <> JsObject.proto /\
  value Examples.record_a <> [] /\
  @LocalVault.ready Model.crypto Examples.vault0 /\
  @credential_round_trips Model.json Examples.record_a /\
  fields Examples.record_a ∈
    @CredentialIpc.get_all_credentials Model.json
      (@CredentialIpc.save_credential Model.json Examples.SERVICE
         Examples.record_a Examples.backend0).2 /\
  exists l,
    @LocalVault.getAllCredentials Model.crypto Model.json
      (@LocalVault.saveCredential Model.crypto Model.json
         Examples.record_a 5 Examples.vault0).2 = Ok l /\
    Examples.record_a ∈ l.
Proof.
  assert (id_of Examples.record_a <> JsObject.proto) as Hid by discriminate.
  assert (value Examples.record_a <> []) as Hv by discriminate.
  assert (@LocalVault.ready Model.crypto Examples.vault0) as Hr.
  { split; [reflexivity|]. split; eexists; reflexivity. }
  assert (@credential_round_trips Model.json Examples.record_a) as Hc.
  { split; [reflexivity|]. split; reflexivity. }
  destruct (@listing_after_save Model.crypto model_crypto_laws Model.json
              Examples.SERVICE Examples.record_a) as [He Hl].
  destruct (He Examples.backend0 Hid Hv) as (H1 & _ & _).
  destruct (Hl Examples.vault0 5 Hr Hc Hid) as (l & H2 & H3 & _).
  split; [exact Hid|]. split; [exact Hv|]. split; [exact Hr|]. split; [exact Hc|].
  split; [exact H1|]. exists l. split; assumption.
Defined.

(** ** Export and import *)

Section ImportFacts.
Context `{W : WebCrypto} {L : WebCryptoLaws} `{J : Json}.
Import LocalVault.

Lemma with_entropy_same (v : Vault) : with_entropy v (entropy v) = v.
Proof. destruct v. reflexivity. Qed.

(** X10: outside Electron, an import that answers [false] has changed
    nothing. *)
Lemma importVault_failure_keeps_vault (importData importPassword : list Z) (now : Z)
    (v : Vault) :
  (importVault importData importPassword now v).1 = Ok false ->
  (importVault importData importPassword now v).2 = v.
Proof.
  unfold importVault.
  destruct (negb (initialized v)); [discriminate|].
  destruct (parse_export importData) as [[saltHex encryptedData]|]; [|reflexivity].
  cbn [deriveKeyFromPassword].
  destruct (decryptValue _ _); [|intros _; apply with_entropy_same].
  destruct (parse_vault _); [discriminate|].
  destruct (parse_items _); [discriminate|]. intros _. apply with_entropy_same.
Qed.

(** Outside Electron, a payload that is not an export object, a payload
    whose data the primitive rejects under the key derived from the given
    password, and a payload whose decrypted text [JSON.parse] rejects or
    in which there is nothing to iterate, are all answered with [false].
    A decrypted text that holds something to iterate is answered with
    [true], also when what it holds are no credential records. *)
Lemma importVault_rejects (importData importPassword : list Z) (now : Z) (v : Vault) :
  initialized v = true ->
  match parse_export importData with
  | None => True
  | Some (saltHex, encryptedData) =>
      let key := subtle_deriveKey (Utf8.encode importPassword)
                   (hexToUint8Array saltHex) in
      match decryptValue encryptedData key with
      | Throw _ => True
      | Ok text => parse_vault text = None /\ parse_items text = None
      end
  end ->
  importVault importData importPassword now v = (Ok false, v).
Proof.
  intros Hi. unfold importVault. rewrite Hi. cbn [negb].
  destruct (parse_export importData) as [[saltHex encryptedData]|]; [|reflexivity].
  cbn [deriveKeyFromPassword].
  destruct (decryptValue _ _); [intros [-> ->]|intros _]; rewrite with_entropy_same;
    reflexivity.
Qed.

Lemma importVault_accepts_items (importData importPassword saltHex encryptedData text
    : list Z) (items : list (option (list Z) * list Z)) (now : Z) (v : Vault) :
  initialized v = true ->
  parse_export importData = Some (saltHex, encryptedData) ->
  decryptValue encryptedData
    (subtle_deriveKey (Utf8.encode importPassword) (hexToUint8Array saltHex)) = Ok text ->
  parse_vault text = None -> parse_items text = Some items ->
  (importVault importData importPassword now v).1 = Ok true.
Proof.
  intros Hi Hp Hd Hv Hit. unfold importVault. rewrite Hi, Hp. cbn [negb].
  cbn [deriveKeyFromPassword]. rewrite Hd, Hv, Hit. reflexivity.
Qed.

End ImportFacts.

(** C6, the failing case: in the Electron backend the export is the
    plain serialised list and the import never looks at the password, so
    an export made under one password is imported under another, and the
    records are written. *)
Theorem electron_import_ignores_password :
  let exported :=
    @CredentialIpc.export_vault Model.json Examples.SERVICE (js "correct") 0
      (@CredentialIpc.save_credential Model.json Examples.SERVICE
         Examples.record_a Examples.backend0).2 in
  let imported :=
    @CredentialIpc.import_vault Model.json Examples.SERVICE exported (js "wrong")
      Examples.backend0 in
  exported = @stringify_vault Model.json 0 [Examples.record_a] /\
  imported.1 = true /\
  @CredentialIpc.get_credential Model.json Examples.SERVICE (js "a") imported.2
  = @CredentialIpc.Got Model.json Examples.record_a.
Proof. repeat split; vm_compute; reflexivity. Qed.

(** The same for every payload and every pair of passwords. *)
Lemma import_vault_any_password `{J : Json} (SERVICE_NAME importData p1 p2 : list Z)
    (b : CredentialIpc.Backend) :
  CredentialIpc.import_vault SERVICE_NAME importData p1 b
  = CredentialIpc.import_vault SERVICE_NAME importData p2 b.
Proof. reflexivity. Qed.

(** ** OAuth sessions *)

Module OAuthFacts.
Import OAuth.

Lemma hex_digit_is_hex (n : Z) : 0 <= n < 16 -> is_hex_digit (hex_digit n) = true.
Proof.
  intros Hn. unfold is_hex_digit, hex_digit.
  destruct (Z.ltb_spec n 10).
  - replace (48 <=? 48 + n) with true by (symmetry; apply Z.leb_le; lia).
    replace (48 + n <=? 57) with true by (symmetry; apply Z.leb_le; lia).
    reflexivity.
  - replace (97 <=? 97 + (n - 10)) with true by (symmetry; apply Z.leb_le; lia).
    replace (97 + (n - 10) <=? 102) with true by (symmetry; apply Z.leb_le; lia).
    apply orb_true_r.
Qed.

Lemma toHex_digits (l : list byte) : forallb is_hex_digit (toHex l) = true.
Proof.
  induction l as [|b l IH]; [reflexivity|].
  unfold toHex in *. cbn [flat_map app forallb]. rewrite IH.
  pose proof (b2z_range b).
  rewrite !hex_digit_is_hex by (Z.to_euclidean_division_equations; lia).
  reflexivity.
Qed.

(** The ids the module generates name no property of [Object.prototype]. *)
Lemma toHex_not_inherited (l : list byte) : JsObject.inherited (toHex l) = false.
Proof.
  unfold JsObject.inherited. apply bool_decide_eq_false. intros Hin.
  pose proof (toHex_digits l) as Hd.
  unfold JsObject.prototype_names in Hin. cbn [map] in Hin.
  repeat (apply elem_of_cons in Hin as [Hin|Hin];
          [rewrite Hin in Hd; vm_compute in Hd; discriminate|]).
  apply elem_of_nil in Hin. contradiction.
Qed.

Lemma generated_started : generated started.
Proof. intros k s Hk. cbn in Hk. rewrite lookup_empty in Hk. discriminate. Qed.

Lemma generated_cleanup (now : Z) (st : Server) :
  generated st -> generated (cleanupExpiredSessions now st).
Proof.
  intros Hg k s Hk. cbn in Hk. apply map_lookup_filter_Some in Hk as [Hk _].
  eapply Hg, Hk.
Qed.

Lemma set_lookup_Some {V} (o : gmap (list Z) V) (k k' : list Z) (v x : V) :
  JsObject.set o k v !! k' = Some x -> k' = k \/ o !! k' = Some x.
Proof.
  unfold JsObject.set. intros Hk.
  destruct (decide (k' = k)) as [->|Hne]; [left; reflexivity|right].
  destruct (bool_decide (k = JsObject.proto)); [destruct (o !! k)|];
    try exact Hk; rewrite lookup_insert_ne in Hk by congruence; exact Hk.
Qed.

Lemma generated_start (cid : list Z) (sc : list (list Z)) (pkce : bool) (port : list Z)
    (shown : bool) (now : Z) (st : Server) (e : Entropy) :
  generated st -> generated (start_oauth_flow cid sc pkce port shown now st e).1.2.
Proof.
  intros Hg. unfold start_oauth_flow.
  set (st1 := if bool_decide _ then _ else st).
  assert (generated st1) as Hg1.
  { subst st1. destruct (bool_decide _); [apply generated_cleanup|]; assumption. }
  destruct (bool_decide (MAX_SESSIONS <= size (activeSessions st1))%nat); [exact Hg1|].
  cbn [getRandomValues]. destruct pkce; cbn [fst snd activeSessions].
  all: intros k s Hk; apply set_lookup_Some in Hk as [->|Hk];
    [eauto | eapply Hg1, Hk].
Qed.

Lemma lookup_own (st : Server) (k : list Z) (s : OAuthSession) :
  activeSessions st !! k = Some s -> lookup_session st k = JsObject.Own s.
Proof. unfold lookup_session. intros ->. reflexivity. Qed.

Lemma lookup_Own (st : Server) (k : list Z) (s : OAuthSession) :
  lookup_session st k = JsObject.Own s -> activeSessions st !! k = Some s.
Proof.
  unfold lookup_session. destruct (activeSessions st !! k); [congruence|].
  destruct (_ || _); discriminate.
Qed.

(** The names the handler adds to [Object.prototype] are no hexadecimal
    strings. *)
Lemma hex_not_added (st : Server) (k : list Z) :
  forallb is_hex_digit k = true -> k ∉ added_names st.
Proof.
  intros Hd Hin. unfold added_names in Hin.
  destruct (inherited_objects st !! JsObject.proto) as [[r|]|];
    repeat (apply elem_of_cons in Hin as [Hin|Hin];
            [rewrite Hin in Hd; vm_compute in Hd; discriminate|]);
    apply elem_of_nil in Hin; contradiction.
Qed.

(** Under an id the module generated, nothing is inherited. *)
Lemma lookup_toHex (st : Server) (l : list byte) :
  activeSessions st !! toHex l = None ->
  lookup_session st (toHex l) = JsObject.Undefined.
Proof.
  intros Hk. unfold lookup_session. rewrite Hk, toHex_not_inherited.
  rewrite bool_decide_eq_false_2 by apply hex_not_added, toHex_digits.
  reflexivity.
Qed.

Lemma generated_callback (state code error : option (list Z)) (now : Z) (st : Server) :
  generated st -> generated (callback state code error now st).2.
Proof.
  intros Hg. unfold callback.
  destruct state as [[|u t]|]; try exact Hg.
  destruct (lookup_session st (u :: t)) as [s| |] eqn:E; try exact Hg.
  - apply lookup_Own in E.
    destruct (expiresAt s <? now); cbn [snd activeSessions]; intros k x Hk.
    + unfold JsObject.remove in Hk. cbn [activeSessions] in Hk.
      apply lookup_delete_Some in Hk as [_ Hk]. eapply Hg, Hk.
    + cbn [activeSessions] in Hk.
      destruct (decide (k = u :: t)) as [->|Hne]; [eapply Hg, E|].
      rewrite lookup_insert_ne in Hk by congruence. eapply Hg, Hk.
  - destruct (bool_decide (u :: t = js "completed")); exact Hg.
Qed.

Lemma generated_poll (k : list Z) (now : Z) (st : Server) :
  generated st -> generated (check_oauth_result k now st).2.
Proof.
  intros Hg. unfold check_oauth_result.
  destruct (lookup_session st k) as [s| |]; try exact Hg.
  - destruct (expiresAt s <? now); [|destruct (negb (completed s)); [exact Hg|]];
      cbn [snd activeSessions]; intros k' x Hk;
      unfold JsObject.remove in Hk; cbn [activeSessions] in Hk;
      apply lookup_delete_Some in Hk as [_ Hk]; eapply Hg, Hk.
  - destruct (negb (inherited_completed st k)); exact Hg.
Qed.

(** The invariant holds in every state the module reaches. *)
Lemma generated_always (reqs : list request) (e : Entropy) :
  generated (foldl handle (started, e) reqs).1.
Proof.
  assert (forall se, generated se.1 -> generated (foldl handle se reqs).1) as Hall.
  { induction reqs as [|r reqs IH]; intros se Hg; [exact Hg|].
    cbn [foldl]. apply IH.
    destruct r as [cid sc pkce port shown now|state code error now|k now|now];
      cbn [handle fst].
    - pose proof (generated_start cid sc pkce port shown now se.1 se.2 Hg) as Hs.
      destruct (start_oauth_flow _ _ _ _ _ _ _ _) as [[rsp st] e']. exact Hs.
    - apply generated_callback, Hg.
    - apply generated_poll, Hg.
    - apply generated_cleanup, Hg. }
  apply Hall, generated_started.
Qed.

End OAuthFacts.

Module OAuthClaims.
Import OAuth OAuthFacts.

Lemma get_own {V} (o : gmap (list Z) V) (k : list Z) (v : V) :
  o !! k = Some v -> JsObject.get o k = JsObject.Own v.
Proof. unfold JsObject.get. intros ->. reflexivity. Qed.

Lemma lookup_generated_removed (st : Server) (k : list Z) (s : OAuthSession) :
  generated st -> activeSessions st !! k = Some s ->
  lookup_session {| activeSessions := JsObject.remove (activeSessions st) k;
                    inherited_objects := inherited_objects st |} k
  = JsObject.Undefined.
Proof.
  intros Hg Hk. destruct (Hg k s Hk) as [idBytes ->].
  apply lookup_toHex. cbn [activeSessions]. apply lookup_delete_eq.
Qed.

(** What the poll of a completed session that has not expired answers
    and does.  The answer is made of the result the session holds: the
    error when that has one, its code otherwise.  A session that holds no
    result is answered as completed without a code, unless the handler
    has put a result on [Object.prototype], which the session then
    inherits and the poll hands out.  The session is deleted and nothing
    else changes; a second poll with the same id, at any time, answers
    'Session not found' and changes nothing. *)
Lemma poll_consumes_once (st : Server) (k : list Z) (s : OAuthSession)
    (now now' : Z) :
  generated st ->
  activeSessions st !! k = Some s ->
  completed s = true ->
  now <= expiresAt s ->
  let first := check_oauth_result k now st in
  first.1 = match result s with
            | Some r =>
                match error r with
                | Some (u :: t) => Failed (u :: t)
                | _ => Completed (code r)
                end
            | None =>
                match inherited_objects st !! JsObject.proto with
                | Some (Some r) =>
                    match error r with
                    | Some (u :: t) => Failed (u :: t)
                    | _ => Completed (code r)
                    end
                | _ => Completed None
                end
            end /\
  first.2 = {| activeSessions := delete k (activeSessions st);
               inherited_objects := inherited_objects st |} /\
  check_oauth_result k now' first.2 = (Session_not_found, first.2).
Proof.
  intros Hg Hk Hc Hnow first.
  assert (first = (answer (session_result st s),
                   {| activeSessions := JsObject.remove (activeSessions st) k;
                      inherited_objects := inherited_objects st |})) as ->.
  { subst first. unfold check_oauth_result.
    rewrite (lookup_own _ _ _ Hk), Hc.
    destruct (Z.ltb_spec (expiresAt s) now) as [Hlt|_]; [lia|]. reflexivity. }
  cbn [fst snd]. split; [|split; [reflexivity|]].
  - unfold session_result, prototype_result.
    destruct (result s) as [[c [[|u t]|]]|]; try reflexivity.
    destruct (inherited_objects st !! JsObject.proto) as [[[c' [[|u' t']|]]|]|];
      reflexivity.
  - unfold check_oauth_result.
    rewrite (lookup_generated_removed st k s Hg Hk). reflexivity.
Qed.


(** A state that names no own session and nothing on [Object.prototype]
    is answered with the error page and changes nothing. *)
Lemma callback_unknown_state (st : Server) (state code error : option (list Z))
    (now : Z) :
  match state with
  | Some (u :: t) =>
      activeSessions st !! (u :: t) = None /\ JsObject.inherited (u :: t) = false /\
      (u :: t) ∉ added_names st
  | _ => True
  end ->
  callback state code error now st = (Invalid_callback, st).
Proof.
  unfold callback. destruct state as [[|u t]|]; try reflexivity.
  intros (Hk & Hi & Ha). unfold lookup_session. rewrite Hk, Hi.
  rewrite bool_decide_eq_false_2 by exact Ha. reflexivity.
Qed.

(** A state that names an expired session is answered with the error
    page; that session is deleted and every other one is as it was. *)
Lemma callback_expired_state (st : Server) (k : list Z) (s : OAuthSession)
    (code error : option (list Z)) (now : Z) :
  k <> [] -> activeSessions st !! k = Some s -> expiresAt s < now ->
  callback (Some k) code error now st
  = (Session_expired,
     {| activeSessions := delete k (activeSessions st);
        inherited_objects := inherited_objects st |}).
Proof.
  intros Hne Hk Hlt. unfold callback. destruct k as [|u t]; [congruence|].
  rewrite (lookup_own _ _ _ Hk).
  destruct (Z.ltb_spec (expiresAt s) now); [reflexivity|lia].
Qed.

(** A state that names a property of [Object.prototype] passes the
    check: the page of success is sent, no own session changes, and the
    result is written on the inherited object. *)
Lemma callback_inherited_state (st : Server) (k : list Z)
    (code error : option (list Z)) (now : Z) :
  k <> [] -> activeSessions st !! k = None -> JsObject.inherited k = true ->
  let after := callback (Some k) code error now st in
  after.1 = Authorization_page (truthy error) /\
  activeSessions after.2 = activeSessions st /\
  inherited_objects after.2 !! k
  = Some (match callback_result code error with
          | Some r => Some r
          | None => mjoin (inherited_objects st !! k)
          end).
Proof.
  intros Hne Hk Hi after. subst after. unfold callback.
  destruct k as [|u t]; [congruence|].
  unfold lookup_session. rewrite Hk, Hi. cbn [orb].
  destruct (bool_decide (u :: t = js "completed")) eqn:E.
  { apply bool_decide_eq_true in E. rewrite E in Hi. vm_compute in Hi. discriminate. }
  cbn [fst snd activeSessions inherited_objects].
  split; [reflexivity|]. split; [reflexivity|].
  destruct (callback_result code error) as [r|]; [|apply lookup_insert_eq].
  destruct (bool_decide (u :: t = JsObject.proto)) eqn:E'; [|apply lookup_insert_eq].
  apply bool_decide_eq_true in E'. rewrite E'.
  rewrite lookup_delete_ne by (vm_compute; discriminate). apply lookup_insert_eq.
Qed.

End OAuthClaims.

(** C8, the failing case: with one live session, a callback whose state
    is [__proto__] is not answered with the error page but with the page
    of success; its code is written on [Object.prototype], where the live
    session, which has no result of its own, now finds it: once that
    session is completed by a callback without code, the poll hands out
    the code of the foreign callback. *)
Theorem callback_accepts_proto_state :
  let st := OAuthExamples.live in
  let sid := OAuthExamples.sid in
  let hit := OAuth.callback (Some JsObject.proto) (Some (js "evil")) None 2000 st in
  (exists s, OAuth.activeSessions st !! sid = Some s /\
             OAuth.session_result st s = None /\
             OAuth.session_result hit.2 s
             = Some {| OAuth.code := Some (js "evil"); OAuth.error := None |}) /\
  OAuth.activeSessions st !! JsObject.proto = None /\
  hit.1 = OAuth.Authorization_page false /\
  OAuth.activeSessions hit.2 = OAuth.activeSessions st /\
  (OAuth.check_oauth_result sid 4000
     (OAuth.callback (Some sid) None None 3000 hit.2).2).1
  = OAuth.Completed (Some (js "evil")).
Proof.
  split; [eexists; split; [vm_compute; reflexivity|split; vm_compute; reflexivity]|].
  repeat split; vm_compute; reflexivity.
Qed.

(** C7, the failing case: a live session is completed by a callback that
    brings neither a code nor an error, so it has captured nothing; a
    callback whose state is [__proto__] then brings the error
    [access_denied], which is written on [Object.prototype].  The poll of
    the session, completed and not expired, does not answer completed
    without a code: it reports the failure [access_denied], which the
    session never captured. *)
Theorem poll_returns_foreign_error :
  let sid := OAuthExamples.sid in
  let st1 := (OAuth.callback (Some sid) None None 2000 OAuthExamples.live).2 in
  let st2 := (OAuth.callback (Some JsObject.proto) None (Some (js "access_denied"))
                2500 st1).2 in
  (exists s, OAuth.activeSessions st2 !! sid = Some s /\
             OAuth.completed s = true /\ OAuth.result s = None /\
             3000 <= OAuth.expiresAt s) /\
  (OAuth.check_oauth_result sid 3000 OAuthExamples.live).1 = OAuth.Pending /\
  (OAuth.check_oauth_result sid 3000 st1).1 = OAuth.Completed None /\
  (OAuth.check_oauth_result sid 3000 st2).1 = OAuth.Failed (js "access_denied").
Proof.
  split.
  - eexists. split; [vm_compute; reflexivity|].
    split; [reflexivity|]. split; [reflexivity|]. vm_compute. discriminate.
  - repeat split; vm_compute; reflexivity.
Qed.



(** ** Automation jobs *)

Module AutomationFacts.
Import Automation.

Lemma leaked_close (c : nat) (j : AutomationJob) (st : Scheduler) :
  context j <> Some c -> leaked c st -> leaked c (close_context j st).
Proof.
  intros Hj (Ho & Hc & Hu). unfold close_context.
  destruct (context j) as [c'|] eqn:E; [|repeat split; assumption].
  repeat split; cbn; try assumption. apply elem_of_difference. split; [assumption|].
  intros Hin. apply elem_of_singleton in Hin. congruence.
Qed.

Lemma leaked_forget (c : nat) (k : list Z) (st : Scheduler) :
  leaked c st -> leaked c (forget k st).
Proof. intros (Ho & Hc & Hu). repeat split; assumption. Qed.

Lemma leaked_update (c : nat) (k : list Z) (f : AutomationJob -> AutomationJob)
    (st st' : Scheduler) :
  (forall j, context j <> Some c -> context (f j) <> Some c) ->
  update k f st = Some st' -> leaked c st -> leaked c st'.
Proof.
  intros Hf Hup (Ho & Hc & Hu). unfold update in Hup.
  destruct (activeJobs st !! k) as [r|]; [|discriminate]. cbn in Hup.
  destruct (objects st !! r) as [j|] eqn:Ej; [|discriminate]. cbn in Hup.
  injection Hup as <-. repeat split; cbn; try assumption.
  intros r' j' Hr'. cbn [objects] in Hr'. destruct (decide (r' = r)) as [->|Hne].
  - rewrite list_lookup_insert_eq in Hr' by (eapply lookup_lt_Some, Ej).
    injection Hr' as <-. apply Hf. eapply Hu, Ej.
  - rewrite list_lookup_insert_ne in Hr' by congruence. eapply Hu, Hr'.
Qed.

Lemma leaked_fail (c : nat) (k message : list Z) (st : Scheduler) :
  leaked c st -> leaked c (fail k message st).
Proof.
  intros Hl. unfold fail.
  destruct (update k _ st) as [st'|] eqn:E; [|exact Hl].
  cbn. eapply leaked_update; [|exact E|exact Hl]. intros j Hj. exact Hj.
Qed.

Lemma leaked_expire (c : nat) (now : Z) (st : Scheduler) (kr : list Z * nat) :
  leaked c st -> leaked c (expire now st kr).
Proof.
  intros Hl. unfold expire. destruct (objects st !! kr.2) as [j|] eqn:E; [|exact Hl].
  destruct (expiresAt j <? now); [|exact Hl].
  apply leaked_forget, leaked_close; [|exact Hl].
  destruct Hl as (_ & _ & Hu). eapply Hu, E.
Qed.

(** A leaked context stays leaked whatever the module does next. *)
Lemma leaked_step (c : nat) (st : Scheduler) (ev : event) :
  leaked c st -> leaked c (step st ev).
Proof.
  intros Hl. destruct ev as [now|k thrown|k m|k r|k m|k now|n|now]; cbn [step].
  - unfold run_automation. destruct (bool_decide _); [exact Hl|].
    cbn [getRandomValues snd]. destruct Hl as (Ho & Hc & Hu).
    repeat split; cbn; try assumption.
    intros r j Hr. apply lookup_app_Some in Hr as [Hr|[_ Hr]]; [eapply Hu, Hr|].
    apply list_lookup_singleton_Some in Hr as [_ <-]. discriminate.
  - unfold context_created. cbv zeta.
    set (st1 := {| objects := objects st; activeJobs := activeJobs st;
                   timers := timers st;
                   open_contexts := open_contexts st ∪ {[created st]};
                   created := S (created st); entropy := entropy st |}).
    assert (leaked c st1) as Hl1.
    { destruct Hl as (Ho & Hc & Hu). repeat split; cbn; try assumption; [|lia].
      apply elem_of_union. left. assumption. }
    destruct (update k (with_context (created st)) st1) as [st2|] eqn:E; [|exact Hl1].
    assert (leaked c st2) as Hl2.
    { eapply leaked_update; [|exact E|exact Hl1]. intros j _. cbn.
      destruct Hl as (_ & Hc & _). intros [= Heq]. lia. }
    destruct thrown; [apply leaked_fail|]; exact Hl2.
  - apply leaked_fail, Hl.
  - unfold action_returned.
    destruct (update k _ st) as [st'|] eqn:E; [|exact Hl].
    cbn. eapply leaked_update; [|exact E|exact Hl]. intros j Hj. exact Hj.
  - apply leaked_fail, Hl.
  - unfold check_automation_status.
    destruct (JsObject.get (activeJobs st) k) as [r| |]; try exact Hl.
    destruct (objects st !! r) as [j|] eqn:E; [|exact Hl].
    destruct (expiresAt j <? now); cbn [snd].
    + apply leaked_forget, leaked_close; [|exact Hl].
      destruct Hl as (_ & _ & Hu). eapply Hu, E.
    + destruct (bool_decide (status j = running)); [exact Hl|].
      destruct Hl as (Ho & Hc & Hu). repeat split; assumption.
  - unfold timer_fired. destruct (timers st !! n) as [[r k]|]; [|exact Hl]. cbv zeta.
    set (st1 := {| objects := objects st; activeJobs := activeJobs st;
                   timers := delete n (timers st);
                   open_contexts := open_contexts st;
                   created := created st; entropy := entropy st |}).
    assert (leaked c st1) as Hl1.
    { destruct Hl as (Ho & Hc & Hu). repeat split; assumption. }
    destruct (objects st !! r) as [j|] eqn:E.
    + apply leaked_forget, leaked_close; [|exact Hl1].
      destruct Hl as (_ & _ & Hu). eapply Hu, E.
    + apply leaked_forget, Hl1.
  - unfold cleanupExpiredJobs.
    generalize (map_to_list (activeJobs st)). intros l.
    revert st Hl. induction l as [|kr l IH]; intros st Hl; [exact Hl|].
    cbn [foldl]. apply IH, leaked_expire, Hl.
Qed.

Lemma leaked_run (c : nat) (st : Scheduler) (evs : list event) :
  leaked c st -> leaked c (run st evs).
Proof.
  revert st. induction evs as [|ev evs IH]; intros st Hl; [exact Hl|].
  cbn. apply IH, leaked_step, Hl.
Qed.

End AutomationFacts.

(** C9, the failing case: when the sweep purges a job before its browser
    context has been created, the context that is then created is stored
    nowhere; it is open, and it stays open whatever calls, timers and
    sweeps follow. *)
Theorem late_context_is_leaked :
  let st := Automation.run (Automation.initial Model.entropy0)
              AutomationExamples.late_context in
  Automation.activeJobs st = ∅ /\
  Automation.open_contexts st = {[ 0%nat ]} /\
  forall evs, 0%nat ∈ Automation.open_contexts (Automation.run st evs).
Proof.
  intros st.
  assert (Automation.leaked 0 st) as Hl.
  { split; [vm_compute; set_solver|]. split; [vm_compute; lia|].
    intros r j Hr. vm_compute in Hr.
    destruct r as [|r]; [|discriminate]. injection Hr as <-. discriminate. }
  split; [vm_compute; reflexivity|]. split; [vm_compute; reflexivity|].
  intros evs. apply (AutomationFacts.leaked_run 0 st evs Hl).
Qed.

Module SweepFacts.
Import Automation.

(** The sweep only deletes keys and closes contexts; job objects are as
    they were. *)
Lemma expire_keeps (now : Z) (st : Scheduler) (kr : list Z * nat) :
  objects (expire now st kr) = objects st /\
  open_contexts (expire now st kr) ⊆ open_contexts st /\
  (forall k, activeJobs st !! k = None -> activeJobs (expire now st kr) !! k = None).
Proof.
  unfold expire. destruct (objects st !! kr.2) as [j|]; [|auto].
  destruct (expiresAt j <? now); [|auto].
  unfold close_context. destruct (context j) as [c|]; cbn.
  - split; [reflexivity|]. split; [set_solver|].
    intros k Hk. apply lookup_delete_None. auto.
  - split; [reflexivity|]. split; [set_solver|].
    intros k Hk. apply lookup_delete_None. auto.
Qed.

Lemma sweep_keeps (now : Z) (l : list (list Z * nat)) (st : Scheduler) :
  objects (foldl (expire now) st l) = objects st /\
  open_contexts (foldl (expire now) st l) ⊆ open_contexts st /\
  (forall k, activeJobs st !! k = None ->
             activeJobs (foldl (expire now) st l) !! k = None).
Proof.
  revert st. induction l as [|kr l IH]; intros st; [auto|].
  cbn [foldl]. destruct (expire_keeps now st kr) as (Ho & Hc & Hk).
  destruct (IH (expire now st kr)) as (Ho' & Hc' & Hk').
  split; [congruence|]. split; [set_solver|]. auto.
Qed.

(** One round on an expired job: its context is closed and its key is
    deleted. *)
Lemma expire_expired (now : Z) (st : Scheduler) (k : list Z) (r : nat)
    (j : AutomationJob) :
  objects st !! r = Some j -> expiresAt j < now ->
  activeJobs (expire now st (k, r)) !! k = None /\
  (forall c, context j = Some c -> c ∉ open_contexts (expire now st (k, r))).
Proof.
  intros Hj Hlt. unfold expire. cbn [snd fst]. rewrite Hj.
  destruct (Z.ltb_spec (expiresAt j) now); [|lia].
  split; [apply lookup_delete_eq|].
  intros c Hc. unfold close_context. rewrite Hc. cbn. set_solver.
Qed.

(** X28: the sweep releases what an expired job holds: after
    [cleanupExpiredJobs] the context stored on a job whose deadline has
    passed is closed, and the job is gone. *)
Lemma cleanupExpiredJobs_releases (now : Z) (st : Scheduler) (k : list Z) (r : nat)
    (j : AutomationJob) (c : nat) :
  activeJobs st !! k = Some r -> objects st !! r = Some j ->
  expiresAt j < now -> context j = Some c ->
  activeJobs (cleanupExpiredJobs now st) !! k = None /\
  c ∉ open_contexts (cleanupExpiredJobs now st).
Proof.
  intros Hk Hj Hlt Hc. unfold cleanupExpiredJobs.
  assert ((k, r) ∈ map_to_list (activeJobs st)) as Hin
    by (apply elem_of_map_to_list; exact Hk).
  apply list_elem_of_split in Hin as (l1 & l2 & ->).
  rewrite foldl_app. cbn [foldl].
  destruct (sweep_keeps now l1 st) as (Ho1 & _ & _).
  set (st1 := foldl (expire now) st l1) in *.
  destruct (expire_expired now st1 k r j) as [Hgone Hclosed];
    [rewrite Ho1; exact Hj | exact Hlt |].
  destruct (sweep_keeps now l2 (expire now st1 (k, r))) as (_ & Hsub & Hnone).
  split; [apply Hnone, Hgone|].
  intros Hopen. apply (Hclosed c Hc). apply Hsub, Hopen.
Qed.

(** When the job entry is still there, the new context is stored on it. *)
Lemma context_created_stores (st : Scheduler) (k : list Z) (r : nat)
    (j : AutomationJob) :
  activeJobs st !! k = Some r -> objects st !! r = Some j ->
  exists j', job (context_created k None st) k = Some j' /\
             context j' = Some (created st) /\
             created st ∈ open_contexts (context_created k None st).
Proof.
  intros Hk Hj. unfold context_created, update. cbn [activeJobs objects].
  rewrite Hk. cbn. rewrite Hj. cbn.
  exists (with_context (created st) j). unfold job. cbn. rewrite Hk. cbn.
  rewrite list_lookup_insert_eq by (eapply lookup_lt_Some, Hj).
  split; [reflexivity|]. split; [reflexivity|]. set_solver.
Qed.

(** [runAutomation] does not close the context when the action returns:
    the job is completed and keeps the open context. *)
Lemma action_returned_keeps_context (st : Scheduler) (k : list Z) (r : nat)
    (j : AutomationJob) (x : list Z) :
  activeJobs st !! k = Some r -> objects st !! r = Some j ->
  open_contexts (action_returned k x st) = open_contexts st /\
  exists j', job (action_returned k x st) k = Some j' /\
             status j' = completed /\ result j' = Some x /\
             context j' = context j.
Proof.
  intros Hk Hj. unfold action_returned, update. rewrite Hk. cbn. rewrite Hj. cbn.
  split; [reflexivity|]. eexists. unfold job. cbn. rewrite Hk. cbn.
  rewrite list_lookup_insert_eq by (eapply lookup_lt_Some, Hj).
  split; [reflexivity|]. auto.
Qed.

End SweepFacts.

(** ** Export then import, outside Electron *)

Lemma parseInt16_toHex (b : byte) :
  parseInt16 [hex_digit (b2z b / 16); hex_digit (b2z b mod 16)] = Some (b2z b).
Proof. destruct b; vm_compute; reflexivity. Qed.

(** [hexToUint8Array] undoes the hexadecimal form of a salt. *)
Lemma hexToUint8Array_toHex (l : list byte) : hexToUint8Array (toHex l) = l.
Proof.
  induction l as [|b l IH]; [reflexivity|].
  unfold toHex in *. cbn [flat_map app hexToUint8Array].
  rewrite parseInt16_toHex, IH.
  change (default 0 (Some (b2z b))) with (b2z b). rewrite z2b_b2z. reflexivity.
Qed.

Section ExportImportFacts.
Context `{W : WebCrypto} {L : WebCryptoLaws} `{J : Json}.
Import LocalVault.

Lemma get_set_other {V} (o : gmap (list Z) V) (k k' : list Z) (v : V) :
  k' <> k -> JsObject.get (JsObject.set o k v) k' = JsObject.get o k'.
Proof.
  intros Hne. unfold JsObject.get, JsObject.set.
  destruct (bool_decide (k = JsObject.proto)); [destruct (o !! k)|];
    rewrite ?lookup_insert_ne by congruence; reflexivity.
Qed.

Lemma ready_saveCredential (c : Credential Meta) (now : Z) (v : Vault) :
  LocalVault.ready v -> ready (saveCredential c now v).2.
Proof.
  intros (Hi & [key Hk] & [d Hd]). unfold saveCredential.
  rewrite Hi, Hk, Hd. cbn [negb].
  destruct (encryptValue _ _ _) as [[blob|x] e']; cbn [snd].
  - split; [exact Hi|]. split; eexists; [exact Hk|reflexivity].
  - split; [exact Hi|]. split; eexists; [exact Hk|exact Hd].
Qed.

(** Saving one record does not change what is read under another id. *)
Lemma getCredential_saveCredential_other (c : Credential Meta) (now : Z) (v : Vault)
    (k : list Z) :
  LocalVault.ready v -> k <> id_of c ->
  getCredential k (saveCredential c now v).2 = getCredential k v.
Proof.
  intros (Hi & [key Hk] & [d Hd]) Hne. unfold saveCredential.
  rewrite Hi, Hk, Hd. cbn [negb].
  destruct (encryptValue _ _ _) as [[blob|x] e']; cbn [snd]; unfold getCredential;
    cbn [store with_entropy initialized encryptionKey vaultData credentials];
    rewrite Hi, Hk, ?Hd; cbn [negb]; [|reflexivity].
  rewrite get_set_other by exact Hne. reflexivity.
Qed.

(** The loop of [importVault] leaves every record of the list readable
    under its id, when the ids are distinct. *)
Lemma getCredential_saveAll (cs : list (Credential Meta)) (now : Z) (v : Vault) :
  LocalVault.ready v ->
  NoDup (map id_of cs) ->
  Forall (fun c => credential_round_trips c /\ id_of c <> JsObject.proto) cs ->
  ready (saveAll cs now v) /\
  forall c, c ∈ cs -> getCredential (id_of c) (saveAll cs now v) = Ok (Some c).
Proof.
  revert v. induction cs as [|c cs IH]; intros v Hr Hnd Hall.
  - split; [exact Hr|]. intros c Hc. apply elem_of_nil in Hc. contradiction.
  - cbn [map] in Hnd. apply NoDup_cons in Hnd as [Hnotin Hnd].
    apply Forall_cons in Hall as [[Hrt Hid] Hall].
    cbn [saveAll].
    destruct (IH _ (ready_saveCredential c now v Hr) Hnd Hall) as [Hr' Hget].
    split; [exact Hr'|]. intros c' Hc'. apply elem_of_cons in Hc' as [->|Hc'].
    + assert (forall cs' v', LocalVault.ready v' -> id_of c ∉ map id_of cs' ->
                getCredential (id_of c) (saveAll cs' now v') = getCredential (id_of c) v')
        as Hkeep.
      { clear. induction cs' as [|x cs' IH']; intros v' Hr' Hn; [reflexivity|].
        cbn [saveAll map] in *. apply not_elem_of_cons in Hn as [Hne Hn].
        rewrite IH' by (try apply ready_saveCredential; assumption).
        apply getCredential_saveCredential_other; [assumption|congruence]. }
      rewrite Hkeep by (try apply ready_saveCredential; assumption).
      apply getCredential_saveCredential; [assumption..|left; assumption].
    + apply Hget, Hc'.
Qed.

(** X9: export then import under the same password: the export succeeds, the
    import answers [true], and every exported record is read back from
    the importing vault under its id.  The hypotheses say that the
    records and the export are values JSON represents. *)
Lemma importVault_exportVault (password : list Z) (now now' : Z) (v v2 : Vault)
    (cs : list (Credential Meta)) :
  LocalVault.ready v -> ready v2 ->
  getAllCredentials v = Ok cs ->
  NoDup (map id_of cs) ->
  Forall (fun c => credential_round_trips c /\ id_of c <> JsObject.proto) cs ->
  vault_round_trips now cs ->
  (forall salt data, export_round_trips salt data) ->
  exists exported,
    (exportVault password now v).1 = Ok exported /\
    (importVault exported password now' v2).1 = Ok true /\
    forall c, c ∈ cs ->
      getCredential (id_of c) (importVault exported password now' v2).2 = Ok (Some c).
Proof.
  intros Hr Hr2 Hall Hnd Hcs [Hpv Htv] Hexp.
  destruct Hr as (Hi & _ & _). pose proof Hr2 as (Hi2 & _ & _).
  unfold exportVault. rewrite Hi, Hall. cbn [negb]. unfold deriveKeyFromPassword.
  destruct (getRandomValues SALT_LENGTH (entropy v)) as [salt e1] eqn:Es.
  set (key := subtle_deriveKey (Utf8.encode password) salt).
  destruct (encryptValue_nonempty (stringify_vault now cs) key e1)
    as (u & t & e2 & He & _).
  rewrite He. cbn [fst]. eexists. split; [reflexivity|].
  unfold importVault. rewrite Hi2, (Hexp (toHex salt) (u :: t)). cbn [negb].
  unfold deriveKeyFromPassword. rewrite hexToUint8Array_toHex. fold key.
  rewrite (decryptValue_of_encryptValue _ _ _ _ _ Htv He), Hpv. cbn [fst snd].
  split; [reflexivity|]. rewrite with_entropy_same.
  apply getCredential_saveAll; assumption.
Qed.

End ExportImportFacts.

(** The same on the model: export of the vault holding the record of id
    [a], import into an empty vault, and the record is read back. *)
Example export_import_example :
  let v1 := (@LocalVault.saveCredential Model.crypto Model.json
               Examples.record_a 5 Examples.vault0).2 in
  match (@LocalVault.exportVault Model.crypto Model.json (js "pw") 6 v1).1 with
  | Ok exported =>
      let imported :=
        @LocalVault.importVault Model.crypto Model.json exported (js "pw") 7
          Examples.vault0 in
      imported.1 = Ok true /\
      @LocalVault.getCredential Model.crypto Model.json (js "a") imported.2
      = Ok (Some Examples.record_a) /\
      @LocalVault.importVault Model.crypto Model.json exported (js "other") 7
        Examples.vault0 = (Ok false, Examples.vault0)
  | Throw _ => False
  end.
Proof. vm_compute. repeat split; reflexivity. Qed.

(** * Further properties *)

(** ** The base64 helpers of encryption.ts *)

Module Base64More.
Import Base64 Base64Facts.

Lemma octets_of_bytes (l : list byte) : Forall octet (map b2z l).
Proof.
  apply Forall_forall. intros x Hx. apply list_elem_of_In, in_map_iff in Hx.
  destruct Hx as (b & <- & _). apply b2z_range.
Qed.

Lemma char_of_base64 (n : Z) : 0 <= n < 64 -> base64_char (char_of n).
Proof. intros Hn. left. rewrite value_of_char_of by exact Hn. eauto. Qed.

(** What [encode] writes: characters of the alphabet and padding, four
    for every three bytes or part of three. *)
Lemma encode_shape (l : list Z) :
  Forall octet l ->
  Forall base64_char (encode l) /\
  length (encode l) = (4 * ((length l + 2) / 3))%nat.
Proof.
  induction l as [|a|a b|a b c r IH] using triples_ind; intros Hl.
  - split; [constructor|reflexivity].
  - inversion_clear Hl as [|? ? Ha _].
    destruct (sextet_ranges a 0 0 Ha) as (H1 & H2 & _); [unfold octet; lia..|].
    split; [|reflexivity]. cbn [encode].
    repeat (apply Forall_cons; split;
            [first [apply char_of_base64; assumption | right; reflexivity]|]).
    apply Forall_nil_2.
  - inversion_clear Hl as [|? ? Ha Hl']. inversion_clear Hl' as [|? ? Hb _].
    destruct (sextet_ranges a b 0 Ha Hb) as (H1 & _ & H2 & H3 & _); [unfold octet; lia|].
    split; [|reflexivity]. cbn [encode].
    repeat (apply Forall_cons; split;
            [first [apply char_of_base64; assumption | right; reflexivity]|]).
    apply Forall_nil_2.
  - inversion_clear Hl as [|? ? Ha Hl']. inversion_clear Hl' as [|? ? Hb Hl''].
    inversion_clear Hl'' as [|? ? Hc Hr].
    destruct (sextet_ranges a b c Ha Hb Hc) as (H1 & _ & H2 & _ & H3 & H4).
    destruct (IH Hr) as [IH1 IH2]. split.
    + cbn [encode].
      do 4 (apply Forall_cons; split; [apply char_of_base64; assumption|]).
      exact IH1.
    + cbn [encode length]. rewrite IH2.
      replace (S (S (S (length r))) + 2)%nat with (1 * 3 + (length r + 2))%nat by lia.
      rewrite Nat.div_add_l by lia. lia.
Qed.

Lemma strip_padding_keeps (c : Z) (s : list Z) :
  c ∈ s -> c <> pad -> c ∈ strip_padding s.
Proof.
  intros Hin Hc. induction s as [|x s IH]; [apply elem_of_nil in Hin; contradiction|].
  apply elem_of_cons in Hin as [<-|Hin].
  - rewrite strip_padding_cons by exact Hc. apply elem_of_cons. left. reflexivity.
  - specialize (IH Hin).
    destruct s as [|d [|d' s']].
    + apply elem_of_nil in Hin. contradiction.
    + apply list_elem_of_singleton in Hin as ->.
      cbn [strip_padding]. apply Z.eqb_neq in Hc. rewrite Hc, andb_false_r.
      apply elem_of_cons. right. apply list_elem_of_singleton. reflexivity.
    + change (strip_padding (x :: d :: d' :: s'))
        with (x :: strip_padding (d :: d' :: s')).
      apply elem_of_cons. right. exact IH.
Qed.

Lemma sextets_foreign (c : Z) (s : list Z) :
  c ∈ s -> value_of c = None -> sextets s = None.
Proof.
  intros Hin Hc. induction s as [|x s IH]; [apply elem_of_nil in Hin; contradiction|].
  cbn [sextets]. apply elem_of_cons in Hin as [<-|Hin].
  - rewrite Hc. reflexivity.
  - rewrite (IH Hin). destruct (value_of x); reflexivity.
Qed.

End Base64More.

(** X1: [arrayBufferToBase64] never fails, and [base64ToArrayBuffer]
    gives back the bytes it was given. *)
Theorem base64_round_trip (buffer : list byte) :
  exists s, arrayBufferToBase64 buffer = Some s /\ base64ToArrayBuffer s = Some buffer.
Proof.
  exists (Base64.encode (map b2z buffer)).
  split; [apply arrayBufferToBase64_total|].
  apply base64ToArrayBuffer_arrayBufferToBase64, arrayBufferToBase64_total.
Qed.

(** X2: [base64ToArrayBuffer] fails on every string that holds a character
    which is neither white space, nor the padding sign, nor in the base64
    alphabet. *)
Theorem base64ToArrayBuffer_rejects_foreign (s : list Z) (c : Z) :
  c ∈ s ->
  Base64.is_ascii_whitespace c = false ->
  c <> Base64.pad ->
  Base64.value_of c = None ->
  base64ToArrayBuffer s = None.
Proof.
  intros Hin Hw Hp Hv. unfold base64ToArrayBuffer, Base64.atob.
  set (s1 := List.filter _ s).
  assert (c ∈ s1) as Hin1.
  { subst s1. apply list_elem_of_In, filter_In. split; [apply list_elem_of_In, Hin|].
    rewrite Hw. reflexivity. }
  set (s2 := if _ =? 0 then _ else s1).
  assert (c ∈ s2) as Hin2.
  { subst s2. destruct (_ =? 0); [apply Base64More.strip_padding_keeps|]; assumption. }
  destruct (_ =? 1); [reflexivity|].
  rewrite (Base64More.sextets_foreign c s2 Hin2 Hv). reflexivity.
Qed.

Lemma base64ToArrayBuffer_rejects_foreign_witness :
  91 ∈ js "[object Object]" /\
  Base64.is_ascii_whitespace 91 = false /\ 91 <> Base64.pad /\
  Base64.value_of 91 = None /\
  base64ToArrayBuffer (js "[object Object]") = None.
Proof.
  assert (91 ∈ js "[object Object]") as Hin by (apply elem_of_cons; left; reflexivity).
  assert (91 <> Base64.pad) as Hp by discriminate.
  split; [exact Hin|]. split; [reflexivity|]. split; [exact Hp|]. split; [reflexivity|].
  exact (base64ToArrayBuffer_rejects_foreign _ 91 Hin eq_refl Hp eq_refl).
Defined.

(** X3: a blob returned by [encryptValue] is made of characters of the
    base64 alphabet and padding signs only; its length is a multiple of
    four and at least sixteen, the IV alone taking sixteen characters. *)
Theorem encryptValue_blob_is_base64 `{W : WebCrypto} (value : list Z)
    (key : CryptoKey) (e e' : Entropy) (blob : list Z) :
  encryptValue value key e = (Ok blob, e') ->
  Forall base64_char blob /\
  (exists n, length blob = (4 * n)%nat) /\
  (16 <= length blob)%nat.
Proof.
  unfold encryptValue. cbn [getRandomValues].
  set (iv := map (supply e) (seq (drawn e) IV_LENGTH)).
  destruct (subtle_encrypt key iv (Utf8.encode value)) as [c|]; [|discriminate].
  rewrite arrayBufferToBase64_total. intros Heq.
  assert (blob = Base64.encode (map b2z (iv ++ c))) as -> by congruence. clear Heq.
  destruct (Base64More.encode_shape (map b2z (iv ++ c))
              (Base64More.octets_of_bytes _)) as [Hc Hl].
  split; [exact Hc|]. split; [eauto|].
  rewrite Hl, length_map, length_app.
  assert (length iv = 12%nat) as -> by (subst iv; rewrite length_map, length_seq; reflexivity).
  assert (4 <= (12 + length c + 2) / 3)%nat; [|lia].
  apply Nat.div_le_lower_bound; lia.
Qed.

Lemma encryptValue_blob_is_base64_witness :
  exists blob e',
    @encryptValue Model.crypto (js "sk-123") [x01] Model.entropy0 = (Ok blob, e') /\
    Forall base64_char blob /\ (16 <= length blob)%nat.
Proof.
  destruct (@encryptValue Model.crypto (js "sk-123") [x01] Model.entropy0)
    as [[blob|x] e'] eqn:E; [|vm_compute in E; discriminate].
  exists blob, e'. split; [reflexivity|].
  destruct (@encryptValue_blob_is_base64 Model.crypto _ _ _ _ _ E) as (H1 & _ & H2).
  split; assumption.
Defined.

(** X4 is [decryptValue_malformed]; it is used here on a blob of eight
    bytes, too short for an IV. *)
Lemma decryptValue_malformed_witness :
  base64ToArrayBuffer (js "AAAAAAAAAAA=") = Some (replicate 8 x00) /\
  @decryptValue Model.crypto (js "AAAAAAAAAAA=") [x01] = Throw Decryption_failed.
Proof.
  split; [vm_compute; reflexivity|].
  apply (@decryptValue_malformed Model.crypto model_crypto_laws).
  vm_compute. lia.
Defined.

(** ** Hexadecimal strings *)

Lemma toHex_length (l : list byte) : length (toHex l) = (2 * length l)%nat.
Proof.
  induction l as [|b l IH]; [reflexivity|].
  unfold toHex in *. cbn [flat_map app length]. rewrite IH. lia.
Qed.

(** X5: the hexadecimal form in which a salt is stored and exported is
    read back to the same bytes by [hexToUint8Array]; it has two
    characters per byte, all of them digits or letters [a] to [f]. *)
Theorem salt_hex_round_trip (salt : list byte) :
  hexToUint8Array (toHex salt) = salt /\
  length (toHex salt) = (2 * length salt)%nat /\
  forallb is_hex_digit (toHex salt) = true.
Proof.
  split; [apply hexToUint8Array_toHex|].
  split; [apply toHex_length|apply OAuthFacts.toHex_digits].
Qed.

(** X6: for an integer [n] from 0 to 65536, [generateRandomString(n)]
    returns [2 n] hexadecimal characters that encode the [n] bytes it drew
    from the random source, and those bytes are consumed; for a negative
    [n] and for [n] above 65536 it throws 'Random string generation
    failed' and consumes nothing. *)
Theorem generateRandomString_shape (n : Z) (e : Entropy) :
  (0 <= n <= QUOTA ->
   exists s,
     generateRandomString n e
     = (Ok s, {| supply := supply e; drawn := (drawn e + Z.to_nat n)%nat |}) /\
     Z.of_nat (length s) = 2 * n /\
     forallb is_hex_digit s = true /\
     hexToUint8Array s = map (supply e) (seq (drawn e) (Z.to_nat n))) /\
  (n < 0 \/ QUOTA < n ->
   generateRandomString n e = (Throw Random_string_generation_failed, e)).
Proof.
  unfold generateRandomString. split.
  - intros Hn.
    destruct (Z.ltb_spec n 0) as [Hlt|_]; [lia|].
    destruct (Z.ltb_spec QUOTA n) as [Hlt|_]; [lia|].
    cbn [orb getRandomValues]. eexists. split; [reflexivity|].
    split; [rewrite toHex_length, length_map, length_seq; lia|].
    split; [apply OAuthFacts.toHex_digits|apply hexToUint8Array_toHex].
  - intros [Hn|Hn].
    + destruct (Z.ltb_spec n 0) as [_|Hge]; [reflexivity|lia].
    + destruct (Z.ltb_spec QUOTA n) as [_|Hge]; [|lia].
      rewrite orb_true_r. reflexivity.
Qed.

Lemma generateRandomString_shape_witness :
  (exists s, (generateRandomString 4 Model.entropy0).1 = Ok s /\
             Z.of_nat (length s) = 8 /\ forallb is_hex_digit s = true) /\
  (generateRandomString 65537 Model.entropy0).1 = Throw Random_string_generation_failed.
Proof.
  split.
  - destruct (proj1 (generateRandomString_shape 4 Model.entropy0))
      as (s & Hs & Hl & Hd & _); [unfold QUOTA; lia|].
    exists s. rewrite Hs. auto.
  - rewrite (proj2 (generateRandomString_shape 65537 Model.entropy0));
      [reflexivity|right; unfold QUOTA; lia].
Defined.

(** ** The serialisation of the model reads back what it writes *)

Module ModelFacts.
Import Model.

Lemma get_put_positive (p : positive) (r : list Z) :
  get_positive (put_positive p ++ r) = Some (p, r).
Proof.
  induction p as [q IH|q IH|]; cbn [put_positive app get_positive Z.eqb Pos.eqb];
    rewrite ?IH; reflexivity.
Qed.

Lemma get_put_Z (z : Z) (r : list Z) : get_Z (put_Z z ++ r) = Some (z, r).
Proof.
  destruct z as [|p|p]; cbn [put_Z app get_Z Z.eqb Pos.eqb];
    rewrite ?get_put_positive; reflexivity.
Qed.

Lemma get_put_many (l r : list Z) :
  get_many (length l) get_Z (flat_map put_Z l ++ r) = Some (l, r).
Proof.
  induction l as [|z l IH]; [reflexivity|].
  cbn [length flat_map get_many]. rewrite <- app_assoc, get_put_Z. cbn.
  rewrite IH. reflexivity.
Qed.

Lemma get_put_string (s r : list Z) : get_string (put_string s ++ r) = Some (s, r).
Proof.
  unfold get_string, put_string. rewrite <- app_assoc, get_put_Z. cbn.
  rewrite Nat2Z.id. apply get_put_many.
Qed.

Lemma export_round_trips_model (salt data : list Z) :
  @export_round_trips json salt data.
Proof.
  unfold export_round_trips. cbn [parse_export stringify_export json whole].
  rewrite get_put_string. cbn.
  rewrite <- (app_nil_r (put_string data)), get_put_string. reflexivity.
Qed.

End ModelFacts.

(** ** The vault outside Electron: save, get, delete *)

Lemma get_remove_other {V} (o : gmap (list Z) V) (k k' : list Z) :
  k' <> k -> JsObject.get (JsObject.remove o k) k' = JsObject.get o k'.
Proof.
  intros Hne. unfold JsObject.get, JsObject.remove.
  rewrite lookup_delete_ne by congruence. reflexivity.
Qed.

Lemma ready_model_vault0 : @LocalVault.ready Model.crypto Examples.vault0.
Proof. split; [reflexivity|]. split; eexists; reflexivity. Qed.

Lemma round_trips_record_a : @credential_round_trips Model.json Examples.record_a.
Proof. split; [reflexivity|]. split; reflexivity. Qed.

Section VaultMore.
Context `{W : WebCrypto} {L : WebCryptoLaws} `{J : Json}.
Import LocalVault.

(** X7: outside Electron, saving a record whose JSON text reads back and
    whose id is not [__proto__] answers [true]; the record is then read
    under its id, whatever was stored there before, and what is read
    under every other id is as before. *)
Theorem save_then_get (c : Credential Meta) (now : Z) (v : Vault) :
  ready v ->
  credential_round_trips c ->
  id_of c <> JsObject.proto ->
  let v' := (saveCredential c now v).2 in
  (saveCredential c now v).1 = Ok true /\
  getCredential (id_of c) v' = Ok (Some c) /\
  forall k, k <> id_of c -> getCredential k v' = getCredential k v.
Proof.
  intros Hr Hc Hid v'.
  destruct (getCredential_saveCredential c now v Hr Hc (or_introl Hid)) as [H1 H2].
  split; [exact H1|]. split; [exact H2|].
  intros k Hk. apply getCredential_saveCredential_other; assumption.
Qed.

(** X8: outside Electron, after [deleteCredential(id)] nothing is read
    under the id and a second deletion answers [false] and changes
    nothing; what is read under every other id is as before.  The id is
    taken not to name a property of [Object.prototype]. *)
Theorem delete_then_get (k : list Z) (now now' : Z) (v : Vault) :
  ready v ->
  JsObject.inherited k = false ->
  let v' := (deleteCredential k now v).2 in
  getCredential k v' = Ok None /\
  deleteCredential k now' v' = (Ok false, v') /\
  forall k', k' <> k -> getCredential k' v' = getCredential k' v.
Proof.
  intros Hr Hk v'.
  split; [apply getCredential_deleteCredential; exact Hr|].
  destruct Hr as (Hi & [key Hkey] & [d Hd]).
  subst v'. unfold deleteCredential. rewrite Hi, Hd. cbn [negb].
  destruct (JsObject.get (credentials d) k) as [[|u t]| |] eqn:E; cbn [snd].
  - split; [rewrite Hi, Hd; cbn [negb]; rewrite E; reflexivity|reflexivity].
  - split.
    + cbn [unstore initialized vaultData credentials negb]. rewrite Hi. cbn [negb].
      rewrite get_remove, Hk. reflexivity.
    + intros k' Hne. unfold getCredential.
      cbn [unstore initialized encryptionKey vaultData credentials].
      rewrite Hi, Hkey, Hd. cbn [negb]. rewrite get_remove_other by exact Hne.
      reflexivity.
  - unfold JsObject.get in E. rewrite Hk in E.
    destruct (credentials d !! k); discriminate.
  - split; [rewrite Hi, Hd; cbn [negb]; rewrite E; reflexivity|reflexivity].
Qed.


End VaultMore.

Lemma save_then_get_witness :
  @LocalVault.ready Model.crypto Examples.vault0 /\
  @credential_round_trips Model.json Examples.record_a /\
  id_of Examples.record_a <> JsObject.proto /\
  @LocalVault.getCredential Model.crypto Model.json (js "a") MoreExamples.vault_a
  = Ok (Some Examples.record_a).
Proof.
  assert (id_of Examples.record_a <> JsObject.proto) as Hid by discriminate.
  split; [exact ready_model_vault0|]. split; [exact round_trips_record_a|].
  split; [exact Hid|].
  exact (proj1 (proj2 (@save_then_get Model.crypto model_crypto_laws Model.json
           Examples.record_a 5 Examples.vault0
           ready_model_vault0 round_trips_record_a Hid))).
Defined.

Lemma ready_vault_a : @LocalVault.ready Model.crypto MoreExamples.vault_a.
Proof. split; [reflexivity|]. split; eexists; reflexivity. Qed.

Lemma delete_then_get_witness :
  @LocalVault.ready Model.crypto MoreExamples.vault_a /\
  JsObject.inherited (js "a") = false /\
  @LocalVault.getCredential Model.crypto Model.json (js "a")
    (@LocalVault.deleteCredential Model.crypto (js "a") 8 MoreExamples.vault_a).2
  = Ok None.
Proof.
  split; [exact ready_vault_a|]. split; [reflexivity|].
  exact (proj1 (@delete_then_get Model.crypto Model.json
           (js "a") 8 9 MoreExamples.vault_a ready_vault_a eq_refl)).
Defined.

(** ** Export and import outside Electron, on the model *)


Lemma importVault_exportVault_witness :
  @LocalVault.getAllCredentials Model.crypto Model.json MoreExamples.vault_a
  = Ok [Examples.record_a] /\
  @vault_round_trips Model.json 6 [Examples.record_a] /\
  exists exported,
    (@LocalVault.exportVault Model.crypto Model.json (js "pw") 6 MoreExamples.vault_a).1
    = Ok exported /\
    (@LocalVault.importVault Model.crypto Model.json exported (js "pw") 7
       Examples.vault0).1 = Ok true /\
    @LocalVault.getCredential Model.crypto Model.json (js "a")
      (@LocalVault.importVault Model.crypto Model.json exported (js "pw") 7
         Examples.vault0).2 = Ok (Some Examples.record_a).
Proof.
  assert (@LocalVault.getAllCredentials Model.crypto Model.json MoreExamples.vault_a
          = Ok [Examples.record_a]) as Hall by (vm_compute; reflexivity).
  assert (@vault_round_trips Model.json 6 [Examples.record_a]) as Hv.
  { split; [reflexivity|]. split; reflexivity. }
  assert (NoDup (map id_of [Examples.record_a])) as Hnd.
  { apply NoDup_singleton. }
  assert (Forall (fun c => @credential_round_trips Model.json c /\
                           id_of c <> JsObject.proto) [Examples.record_a]) as Hcs.
  { apply Forall_cons. split; [|apply Forall_nil_2].
    split; [exact round_trips_record_a|discriminate]. }
  destruct (@importVault_exportVault Model.crypto model_crypto_laws Model.json
              (js "pw") 6 7 MoreExamples.vault_a Examples.vault0 [Examples.record_a]
              ready_vault_a ready_model_vault0 Hall Hnd Hcs Hv
              ModelFacts.export_round_trips_model) as (exported & H1 & H2 & H3).
  split; [exact Hall|]. split; [exact Hv|].
  exists exported. split; [exact H1|]. split; [exact H2|].
  apply (H3 Examples.record_a). apply list_elem_of_singleton. reflexivity.
Defined.

Lemma importVault_failure_keeps_vault_witness :
  (@LocalVault.importVault Model.crypto Model.json
     MoreExamples.exported_a (js "other") 7 MoreExamples.vault_b).1 = Ok false /\
  (@LocalVault.importVault Model.crypto Model.json
     MoreExamples.exported_a (js "other") 7 MoreExamples.vault_b).2
  = MoreExamples.vault_b.
Proof.
  assert ((@LocalVault.importVault Model.crypto Model.json
             MoreExamples.exported_a (js "other") 7 MoreExamples.vault_b).1 = Ok false)
    as Hf by (vm_compute; reflexivity).
  split; [exact Hf|].
  exact (@importVault_failure_keeps_vault Model.crypto Model.json _ _ _ _ Hf).
Defined.

(** ** The OpenAI flow *)

Section FlowFacts.
Context `{W : WebCrypto} {L : WebCryptoLaws} `{J : Json}.
Import OpenAIFlow.

(** X12: the OpenAI form saves nothing for a text that does not start
    with [sk-] and shows an error; for a text that does, on an
    initialised vault, it shows success and the text is then read from
    the vault as the value of the record [openai_api_key]. *)
Theorem handleSubmit_saves_accepted_keys (text : list Z) (verified now : Z)
    (v : LocalVault.Vault) :
  (startsWith (js "sk-") text = false ->
   (handleSubmit text verified now v).2 = v /\
   success (handleSubmit text verified now v).1 = false /\
   is_Some (error (handleSubmit text verified now v).1)) /\
  (startsWith (js "sk-") text = true ->
   LocalVault.ready v ->
   credential_round_trips (openai_credential text verified) ->
   (handleSubmit text verified now v).1 = {| error := None; success := true |} /\
   exists c, LocalVault.getCredential (js "openai_api_key")
               (handleSubmit text verified now v).2 = Ok (Some c) /\
             value c = text).
Proof.
  unfold handleSubmit, verifyOpenAIKey. split.
  - intros ->. cbn [negb snd fst error success]. split; [reflexivity|].
    split; [reflexivity|]. eexists. reflexivity.
  - intros -> Hr Hc. cbn [negb].
    destruct (getCredential_saveCredential (openai_credential text verified) now v
                Hr Hc) as [H1 H2]; [left; discriminate|].
    destruct (LocalVault.saveCredential _ _ _) as [[[|]|x] v'];
      cbn [fst snd] in *; try discriminate.
    split; [reflexivity|]. eexists. split; [exact H2|reflexivity].
Qed.

End FlowFacts.

Lemma handleSubmit_saves_accepted_keys_witness :
  startsWith (js "sk-") (js "sk-123") = true /\
  @LocalVault.ready Model.crypto Examples.vault0 /\
  @credential_round_trips Model.json
    (@OpenAIFlow.openai_credential Model.json (js "sk-123") 4) /\
  exists c, @LocalVault.getCredential Model.crypto Model.json (js "openai_api_key")
              (@OpenAIFlow.handleSubmit Model.crypto Model.json (js "sk-123") 4 5
                 Examples.vault0).2 = Ok (Some c) /\
            value c = js "sk-123".
Proof.
  assert (@credential_round_trips Model.json
            (@OpenAIFlow.openai_credential Model.json (js "sk-123") 4)) as Hc.
  { split; [reflexivity|]. split; reflexivity. }
  split; [reflexivity|]. split; [exact ready_model_vault0|]. split; [exact Hc|].
  exact (proj2 (proj2 (@handleSubmit_saves_accepted_keys Model.crypto model_crypto_laws
           Model.json (js "sk-123") 4 5 Examples.vault0) eq_refl ready_model_vault0 Hc)).
Defined.

(** ** The credential handlers of the Electron backend *)

Section ElectronFacts.
Context `{J : Json}.
Variable SERVICE_NAME : list Z.
Import CredentialIpc.

Lemma refresh_service_differs : (REFRESH_SERVICE SERVICE_NAME) <> SERVICE_NAME.
Proof.
  unfold REFRESH_SERVICE. intros E. apply (f_equal length) in E.
  rewrite length_app in E. simpl in E. lia.
Qed.

(** The keychain after one record was put. *)
Lemma getPassword_put_value (c : Credential Meta) (b : Backend) :
  getPassword SERVICE_NAME (id_of c) (put SERVICE_NAME c b) = Some (value c).
Proof.
  unfold put, setMetadata, getPassword. cbn [keychain].
  destruct (refreshToken c) as [[|u t]|]; cbn [setPassword keychain];
    rewrite ?lookup_insert_eq; try reflexivity.
  rewrite lookup_insert_ne; [apply lookup_insert_eq|].
  intros [= E]. apply refresh_service_differs. exact E.
Qed.

Lemma getPassword_put_refresh (c : Credential Meta) (b : Backend) :
  getPassword (REFRESH_SERVICE SERVICE_NAME) (id_of c) (put SERVICE_NAME c b) =
  match refreshToken c with
  | Some (u :: t) => Some (u :: t)
  | _ => getPassword (REFRESH_SERVICE SERVICE_NAME) (id_of c) b
  end.
Proof.
  unfold put, setMetadata, getPassword. cbn [keychain].
  destruct (refreshToken c) as [[|u t]|]; cbn [setPassword keychain];
    rewrite ?lookup_insert_eq; try reflexivity;
    (rewrite lookup_insert_ne; [reflexivity|]);
    intros [= E]; apply refresh_service_differs; congruence.
Qed.

Lemma getPassword_put_other (service k : list Z) (c : Credential Meta) (b : Backend) :
  k <> id_of c ->
  getPassword service k (put SERVICE_NAME c b) = getPassword service k b.
Proof.
  intros Hne. unfold put, setMetadata, getPassword. cbn [keychain].
  destruct (refreshToken c) as [[|u t]|]; cbn [setPassword keychain];
    rewrite ?lookup_insert_ne by congruence; reflexivity.
Qed.

Lemma metadata_put (c : Credential Meta) (b : Backend) :
  metadata_store (put SERVICE_NAME c b)
  = JsObject.set (metadata_store b) (id_of c) (fields c).
Proof.
  unfold put, setMetadata. cbn [metadata_store].
  destruct (refreshToken c) as [[|u t]|]; reflexivity.
Qed.

(** What is read under the id of a record with a value that was just
    put. *)
Lemma get_put_same (c : Credential Meta) (b : Backend) :
  id_of c <> JsObject.proto ->
  value c <> [] ->
  get_credential SERVICE_NAME (id_of c) (put SERVICE_NAME c b) =
  Got {| fields := fields c; value := value c;
         refreshToken :=
           if decide (m_type (fields c) = oauth)
           then match refreshToken c with
                | Some (u' :: t') => Some (u' :: t')
                | _ => getPassword (REFRESH_SERVICE SERVICE_NAME) (id_of c) b
                end
           else None |}.
Proof.
  intros Hid Hv. unfold get_credential.
  rewrite metadata_put, get_set_own by (left; exact Hid).
  rewrite getPassword_put_value, getPassword_put_refresh.
  destruct (value c); [congruence|reflexivity].
Qed.

(** What is read under any other id is as before. *)
Lemma get_put_other (k : list Z) (c : Credential Meta) (b : Backend) :
  k <> id_of c ->
  get_credential SERVICE_NAME k (put SERVICE_NAME c b) = get_credential SERVICE_NAME k b.
Proof.
  intros Hne. unfold get_credential.
  rewrite metadata_put, get_set_other by exact Hne.
  rewrite !getPassword_put_other by exact Hne. reflexivity.
Qed.

(** X13: in the Electron backend, after ['save-credential'] of a record
    with a non-empty value, ['get-credential'] on its id returns its
    metadata and its value; the refresh token returned is the saved one
    for an OAuth record and none for an API key; what is read under every
    other id is as before. *)
Theorem ipc_save_then_get (c : Credential Meta) (b : Backend) :
  id_of c <> JsObject.proto ->
  value c <> [] ->
  let b' := (save_credential SERVICE_NAME c b).2 in
  (save_credential SERVICE_NAME c b).1 = true /\
  (exists r, get_credential SERVICE_NAME (id_of c) b'
             = Got {| fields := fields c; value := value c; refreshToken := r |} /\
             (m_type (fields c) = apiKey -> r = None) /\
             (m_type (fields c) = oauth ->
              forall u t, refreshToken c = Some (u :: t) -> r = Some (u :: t))) /\
  forall k, k <> id_of c ->
    get_credential SERVICE_NAME k b' = get_credential SERVICE_NAME k b.
Proof.
  intros Hid Hv b'. subst b'. cbn [save_credential fst snd].
  split; [reflexivity|]. split; [|intros k Hk; apply get_put_other, Hk].
  rewrite get_put_same by assumption.
  eexists. split; [reflexivity|]. split.
  - intros Ht. rewrite Ht. reflexivity.
  - intros Ht u' t' Hr. rewrite Ht, Hr. reflexivity.
Qed.

(** X14: saving an OAuth record again without a refresh token does not
    clear the token in the keychain: ['get-credential'] returns the new
    value with the refresh token of the earlier save. *)
Theorem ipc_refresh_token_survives (c1 c2 : Credential Meta) (b : Backend)
    (u : Z) (t : list Z) :
  id_of c1 <> JsObject.proto ->
  id_of c2 = id_of c1 ->
  m_type (fields c2) = oauth ->
  refreshToken c1 = Some (u :: t) ->
  refreshToken c2 = None ->
  value c2 <> [] ->
  get_credential SERVICE_NAME (id_of c1)
    (save_credential SERVICE_NAME c2 (save_credential SERVICE_NAME c1 b).2).2
  = Got {| fields := fields c2; value := value c2; refreshToken := Some (u :: t) |}.
Proof.
  intros Hid Heq Ht Hr1 Hr2 Hv. cbn [save_credential snd].
  rewrite <- Heq. rewrite get_put_same by congruence.
  rewrite Ht, Hr2, Heq, getPassword_put_refresh, Hr1. reflexivity.
Qed.

(** X16: ['delete-credential'] removes the metadata and both keychain
    entries of an id that is no property name of [Object.prototype]:
    afterwards ['get-credential'] answers 'Credential not found', other
    ids read as before, and a second deletion changes nothing. *)
Theorem ipc_delete_then_get (k : list Z) (b : Backend) :
  JsObject.inherited k = false ->
  let b' := (delete_credential SERVICE_NAME k b).2 in
  get_credential SERVICE_NAME k b' = Credential_not_found /\
  getPassword SERVICE_NAME k b' = None /\
  getPassword (REFRESH_SERVICE SERVICE_NAME) k b' = None /\
  (forall k', k' <> k ->
     get_credential SERVICE_NAME k' b' = get_credential SERVICE_NAME k' b) /\
  delete_credential SERVICE_NAME k b' = (true, b').
Proof.
  intros Hk b'.
  assert (Hstore : metadata_store b' = delete k (metadata_store b)).
  { subst b'. unfold delete_credential. cbn [snd deletePassword metadata_store].
    unfold JsObject.get. rewrite Hk.
    destruct (metadata_store b !! k) eqn:E; cbn [metadata_store]; [reflexivity|].
    symmetry. apply delete_id, E. }
  assert (Hkeys : keychain b' =
                  delete ((REFRESH_SERVICE SERVICE_NAME), k) (delete (SERVICE_NAME, k) (keychain b))).
  { subst b'. unfold delete_credential. cbn [snd deletePassword metadata_store].
    destruct (JsObject.get (metadata_store b) k); reflexivity. }
  assert (Hs : getPassword SERVICE_NAME k b' = None).
  { unfold getPassword. rewrite Hkeys.
    rewrite lookup_delete_ne, lookup_delete_eq; [reflexivity|].
    intros [= E]. apply refresh_service_differs. exact E. }
  assert (Hr : getPassword (REFRESH_SERVICE SERVICE_NAME) k b' = None).
  { unfold getPassword. rewrite Hkeys. apply lookup_delete_eq. }
  assert (Hm : metadata_store b' !! k = None).
  { rewrite Hstore. apply lookup_delete_eq. }
  split; [|split; [exact Hs|split; [exact Hr|split]]].
  - unfold get_credential, JsObject.get. rewrite Hm, Hk. reflexivity.
  - intros k' Hne. unfold get_credential, JsObject.get, getPassword.
    rewrite Hstore, Hkeys.
    rewrite !lookup_delete_ne by congruence. reflexivity.
  - unfold delete_credential. f_equal.
    cbn [deletePassword metadata_store keychain]. unfold JsObject.get.
    rewrite Hm, Hk. destruct b' as [s kc]. cbn in *.
    unfold deletePassword. cbn [metadata_store keychain]. f_equal.
    rewrite (delete_id kc (SERVICE_NAME, k)) by exact Hs.
    apply delete_id. exact Hr.
Qed.

Import CredentialRequests.

Lemma consistent_fresh : consistent SERVICE_NAME fresh.
Proof. intros k m Hk. cbn in Hk. rewrite lookup_empty in Hk. discriminate. Qed.

Lemma consistent_put (c : Credential Meta) (b : Backend) :
  consistent SERVICE_NAME b -> consistent SERVICE_NAME (put SERVICE_NAME c b).
Proof.
  intros Hb k m. rewrite metadata_put. intros Hk.
  destruct (decide (k = id_of c)) as [->|Hne].
  - rewrite getPassword_put_value. split; [|eauto].
    unfold JsObject.set in Hk.
    destruct (bool_decide (id_of c = JsObject.proto)).
    + destruct (metadata_store b !! id_of c) eqn:E.
      * rewrite lookup_insert_eq in Hk. injection Hk as <-. reflexivity.
      * congruence.
    + rewrite lookup_insert_eq in Hk. injection Hk as <-. reflexivity.
  - rewrite getPassword_put_other by exact Hne. apply Hb.
    unfold JsObject.set in Hk.
    destruct (bool_decide (id_of c = JsObject.proto));
      [destruct (metadata_store b !! id_of c)|];
      rewrite ?lookup_insert_ne in Hk by congruence; exact Hk.
Qed.

Lemma consistent_delete (k0 : list Z) (b : Backend) :
  consistent SERVICE_NAME b ->
  consistent SERVICE_NAME (delete_credential SERVICE_NAME k0 b).2.
Proof.
  intros Hb k m. unfold delete_credential, deletePassword.
  cbn [snd metadata_store keychain]. intros Hk.
  assert (Hne : k <> k0).
  { intros ->. revert Hk. unfold JsObject.get.
    destruct (metadata_store b !! k0) eqn:E; cbn [metadata_store].
    - unfold JsObject.remove. rewrite lookup_delete_eq. discriminate.
    - destruct (JsObject.inherited k0); cbn [metadata_store];
        unfold JsObject.remove; rewrite ?lookup_delete_eq; congruence. }
  assert (Hold : metadata_store b !! k = Some m).
  { revert Hk. destruct (JsObject.get (metadata_store b) k0); cbn [metadata_store];
      unfold JsObject.remove; rewrite ?lookup_delete_ne by congruence; auto. }
  destruct (Hb k m Hold) as [Hid Hp]. split; [exact Hid|].
  unfold getPassword in *.
  destruct (JsObject.get (metadata_store b) k0); cbn [keychain];
    rewrite !lookup_delete_ne by congruence; exact Hp.
Qed.

Lemma consistent_foldl_put (cs : list (Credential Meta)) (b : Backend) :
  consistent SERVICE_NAME b ->
  consistent SERVICE_NAME (foldl (fun b c => put SERVICE_NAME c b) b cs).
Proof.
  revert b. induction cs as [|c cs IH]; intros b Hb; [exact Hb|].
  cbn [foldl]. apply IH, consistent_put, Hb.
Qed.

Lemma consistent_handle (b : Backend) (r : request) :
  consistent SERVICE_NAME b -> consistent SERVICE_NAME (handle SERVICE_NAME b r).
Proof.
  intros Hb. destruct r as [c|k|d p]; cbn [handle].
  - apply consistent_put, Hb.
  - apply consistent_delete, Hb.
  - unfold import_vault. destruct (parse_vault d); [|exact Hb].
    apply consistent_foldl_put, Hb.
Qed.

(** X17: whatever sequence of ['save-credential'], ['delete-credential']
    and ['import-vault'] calls a fresh installation has handled, every
    entry of the metadata store is filed under its own id and the
    keychain holds a value for it, and every entry of the listing has a
    value in the keychain. *)
Theorem ipc_store_consistent (rs : list request) :
  let b := foldl (handle SERVICE_NAME) fresh rs in
  consistent SERVICE_NAME b /\
  Forall (fun m => is_Some (getPassword SERVICE_NAME (m_id m) b))
         (get_all_credentials b).
Proof.
  intros b.
  assert (Hc : consistent SERVICE_NAME b).
  { subst b. induction rs as [|r rs IH] using rev_ind; [apply consistent_fresh|].
    rewrite foldl_snoc. apply consistent_handle, IH. }
  split; [exact Hc|].
  apply Forall_forall. intros m Hm.
  apply values_spec in Hm as [k Hk].
  destruct (Hc k m Hk) as [-> Hp]. exact Hp.
Qed.

(** The records of an export have pairwise distinct ids. *)
Lemma exported_ids_NoDup (b : Backend) :
  consistent SERVICE_NAME b ->
  NoDup (map id_of (exported_records SERVICE_NAME b)).
Proof.
  intros Hb. unfold exported_records.
  assert (Hnd := NoDup_fst_map_to_list (metadata_store b)).
  assert (Hin : forall x, x ∈ map_to_list (metadata_store b) -> m_id x.2 = x.1).
  { intros [k m] Hx. apply elem_of_map_to_list in Hx. apply (Hb k m Hx). }
  induction (map_to_list (metadata_store b)) as [|x l IH]; [constructor|].
  cbn [fmap list_fmap] in Hnd. apply NoDup_cons in Hnd as [Hx Hnd].
  assert (IH' := IH Hnd (fun y Hy => Hin y (list_elem_of_further _ _ _ Hy))).
  cbn [omap list_omap]. unfold export_entry at 1.
  destruct (getPassword SERVICE_NAME x.1 b) as [[|u t]|]; try exact IH'.
  cbn [map]. apply NoDup_cons. split; [|exact IH'].
  unfold id_of at 1. cbn [fields]. rewrite (Hin x) by left.
  intros Hmem. apply Hx. apply list_elem_of_fmap in Hmem as (c & Hc & Hcin).
  apply list_elem_of_omap in Hcin as (y & Hy & Hfy).
  apply list_elem_of_fmap. exists y. split; [|exact Hy].
  rewrite Hc. unfold export_entry in Hfy.
  destruct (getPassword SERVICE_NAME y.1 b) as [[|u' t']|]; try discriminate.
  injection Hfy as <-. unfold id_of. cbn [fields].
  apply Hin. right. exact Hy.
Qed.

(** What ['get-credential'] returns is what ['export-vault'] writes. *)
Lemma got_is_exported (k : list Z) (c : Credential Meta) (b : Backend) :
  consistent SERVICE_NAME b ->
  get_credential SERVICE_NAME k b = Got c ->
  c ∈ exported_records SERVICE_NAME b /\ id_of c = k /\ value c <> [] /\
  (forall u t, refreshToken c = Some (u :: t) -> m_type (fields c) = oauth).
Proof.
  intros Hb. unfold get_credential, JsObject.get.
  destruct (metadata_store b !! k) as [m|] eqn:Hm.
  - destruct (getPassword SERVICE_NAME k b) as [[|u t]|] eqn:Hv; try discriminate.
    intros [= <-]. split; [|split; [|split]].
    + unfold exported_records. apply list_elem_of_omap. exists (k, m). split.
      * apply elem_of_map_to_list. exact Hm.
      * unfold export_entry. cbn [fst snd]. rewrite Hv. reflexivity.
    + apply (Hb k m Hm).
    + discriminate.
    + cbn [refreshToken fields]. intros u' t'.
      destruct (decide (m_type m = oauth)); [auto|discriminate].
  - destruct (JsObject.inherited k);
      [destruct (getPassword SERVICE_NAME k b) as [[|u t]|]|]; discriminate.
Qed.

Lemma get_foldl_put_other (k : list Z) (cs : list (Credential Meta)) (b : Backend) :
  k ∉ map id_of cs ->
  get_credential SERVICE_NAME k (foldl (fun b c => put SERVICE_NAME c b) b cs)
  = get_credential SERVICE_NAME k b.
Proof.
  revert b. induction cs as [|c cs IH]; intros b Hk; [reflexivity|].
  cbn [foldl]. cbn [map] in Hk. apply not_elem_of_cons in Hk as [Hne Hk].
  rewrite IH by exact Hk. apply get_put_other, Hne.
Qed.

Lemma get_foldl_put (c : Credential Meta) (cs : list (Credential Meta)) (b : Backend) :
  NoDup (map id_of cs) -> c ∈ cs ->
  id_of c <> JsObject.proto -> value c <> [] ->
  exists r,
    get_credential SERVICE_NAME (id_of c) (foldl (fun b c => put SERVICE_NAME c b) b cs)
    = Got {| fields := fields c; value := value c; refreshToken := r |} /\
    (m_type (fields c) = oauth ->
     forall u t, refreshToken c = Some (u :: t) -> r = Some (u :: t)).
Proof.
  intros Hnd Hc Hid Hv. revert b Hnd Hc.
  induction cs as [|c0 cs IH]; intros b Hnd Hc.
  - apply elem_of_nil in Hc. contradiction.
  - cbn [map] in Hnd. apply NoDup_cons in Hnd as [Hnotin Hnd]. cbn [foldl].
    apply elem_of_cons in Hc as [->|Hc]; [|apply IH; assumption].
    rewrite get_foldl_put_other by exact Hnotin.
    rewrite get_put_same by assumption.
    eexists. split; [reflexivity|].
    intros Ht u' t' Hr. rewrite Ht, Hr. reflexivity.
Qed.

(** X18: in the Electron backend, when the store is consistent and the
    serialised export parses back to the exported records, importing an
    export succeeds and every record ['get-credential'] returned before the
    export is returned after the import with the same metadata and value,
    and with its refresh token when it had a non-empty one; this holds
    whatever the backend held before the import and whatever the two
    passwords are. *)
Theorem ipc_import_export (b b2 : Backend) (exportPassword importPassword : list Z)
    (now : Z) :
  consistent SERVICE_NAME b ->
  parse_vault (export_vault SERVICE_NAME exportPassword now b)
  = Some (exported_records SERVICE_NAME b) ->
  let r := import_vault SERVICE_NAME (export_vault SERVICE_NAME exportPassword now b)
             importPassword b2 in
  r.1 = true /\
  forall k c, k <> JsObject.proto ->
    get_credential SERVICE_NAME k b = Got c ->
    exists rt,
      get_credential SERVICE_NAME k r.2
      = Got {| fields := fields c; value := value c; refreshToken := rt |} /\
      (forall u t, refreshToken c = Some (u :: t) -> rt = Some (u :: t)).
Proof.
  intros Hb Hparse r. subst r. unfold import_vault. rewrite Hparse. cbn [fst snd].
  split; [reflexivity|]. intros k c Hk Hget.
  destruct (got_is_exported k c b Hb Hget) as (Hin & Hid & Hv & Ht).
  subst k.
  destruct (get_foldl_put c _ b2 (exported_ids_NoDup b Hb) Hin Hk Hv)
    as (rt & Hrt & Htok).
  exists rt. split; [exact Hrt|].
  intros u t Hr. apply Htok; [eapply Ht|]; exact Hr.
Qed.

End ElectronFacts.

Lemma ipc_save_then_get_witness :
  id_of MoreExamples.record_b <> JsObject.proto /\
  value MoreExamples.record_b <> [] /\
  @CredentialIpc.get_credential Model.json Examples.SERVICE (js "b")
    (@CredentialIpc.save_credential Model.json Examples.SERVICE
       MoreExamples.record_b Examples.backend0).2
  = @CredentialIpc.Got Model.json MoreExamples.record_b.
Proof.
  assert (H1 : id_of MoreExamples.record_b <> JsObject.proto)
    by (vm_compute; discriminate).
  assert (H2 : value MoreExamples.record_b <> []) by (vm_compute; discriminate).
  split; [exact H1|]. split; [exact H2|].
  destruct (@ipc_save_then_get Model.json Examples.SERVICE MoreExamples.record_b
              Examples.backend0 H1 H2) as (_ & (r & Hr & _ & Hoauth) & _).
  rewrite (Hoauth eq_refl _ _ eq_refl) in Hr. exact Hr.
Defined.

Lemma ipc_refresh_token_survives_witness :
  @CredentialIpc.get_credential Model.json Examples.SERVICE (js "b")
    (@CredentialIpc.save_credential Model.json Examples.SERVICE
       MoreExamples.record_b_renewed
       (@CredentialIpc.save_credential Model.json Examples.SERVICE
          MoreExamples.record_b Examples.backend0).2).2
  = @CredentialIpc.Got Model.json
      {| fields := fields MoreExamples.record_b; value := js "ya30";
         refreshToken := Some (js "1//r") |}.
Proof.
  apply (@ipc_refresh_token_survives Model.json Examples.SERVICE
           MoreExamples.record_b MoreExamples.record_b_renewed Examples.backend0).
  - vm_compute; discriminate.
  - reflexivity.
  - reflexivity.
  - reflexivity.
  - reflexivity.
  - vm_compute; discriminate.
Defined.

Lemma ipc_delete_then_get_witness :
  JsObject.inherited (js "b") = false /\
  @CredentialIpc.get_credential Model.json Examples.SERVICE (js "b")
    (@CredentialIpc.delete_credential Model.json Examples.SERVICE (js "b")
       (@CredentialIpc.save_credential Model.json Examples.SERVICE
          MoreExamples.record_b Examples.backend0).2).2
  = @CredentialIpc.Credential_not_found Model.json.
Proof.
  assert (H : JsObject.inherited (js "b") = false) by (vm_compute; reflexivity).
  split; [exact H|].
  apply (@ipc_delete_then_get Model.json Examples.SERVICE (js "b") _ H).
Defined.

Lemma ipc_import_export_witness :
  let b := (@CredentialIpc.save_credential Model.json Examples.SERVICE
              MoreExamples.record_b Examples.backend0).2 in
  @parse_vault Model.json
    (@CredentialIpc.export_vault Model.json Examples.SERVICE (js "one") 7 b)
  = Some (@CredentialRequests.exported_records Model.json Examples.SERVICE b) /\
  exists rt,
    @CredentialIpc.get_credential Model.json Examples.SERVICE (js "b")
      (@CredentialIpc.import_vault Model.json Examples.SERVICE
         (@CredentialIpc.export_vault Model.json Examples.SERVICE (js "one") 7 b)
         (js "two") Examples.backend0).2
    = @CredentialIpc.Got Model.json
        {| fields := fields MoreExamples.record_b;
           value := value MoreExamples.record_b; refreshToken := rt |}.
Proof.
  intros b.
  assert (Hp : @parse_vault Model.json
                 (@CredentialIpc.export_vault Model.json Examples.SERVICE (js "one") 7 b)
               = Some (@CredentialRequests.exported_records Model.json
                         Examples.SERVICE b))
    by (vm_compute; reflexivity).
  split; [exact Hp|].
  assert (Hb : @CredentialRequests.consistent Model.json Examples.SERVICE b).
  { apply (@consistent_put Model.json). apply (@consistent_fresh Model.json). }
  destruct (@ipc_import_export Model.json Examples.SERVICE b Examples.backend0
              (js "one") (js "two") 7 Hb Hp) as [_ Hall].
  destruct (Hall (js "b") MoreExamples.record_b) as (rt & Hrt & _).
  - vm_compute; discriminate.
  - vm_compute; reflexivity.
  - exists rt. exact Hrt.
Defined.

(** ** The OAuth sessions from start to poll *)

Module OAuthFlow.
Import OAuth OAuthFacts.

Lemma toHex_not_proto (l : list byte) : toHex l <> JsObject.proto.
Proof.
  intros E. pose proof (toHex_not_inherited l) as H. rewrite E in H.
  vm_compute in H. discriminate.
Qed.

(** The characters [base64url] writes for a sextet. *)
Lemma url_safe_char_of (n : Z) :
  0 <= n < 64 ->
  url_safe (let c := Base64.char_of n in
            if c =? 43 then 45 else if c =? 47 then 95 else c) = true.
Proof.
  intros Hn. cbv zeta. unfold Base64.char_of, url_safe.
  repeat match goal with
         | |- context [?a <? ?b] => destruct (Z.ltb_spec a b)
         | |- context [?a =? ?b] => destruct (Z.eqb_spec a b)
         | |- context [?a <=? ?b] => destruct (Z.leb_spec a b)
         end; simpl; try reflexivity; lia.
Qed.

Lemma base64url_cons3 (a b c : byte) (r : list byte) :
  base64url (a :: b :: c :: r)
  = map (fun c => if c =? 43 then 45 else if c =? 47 then 95 else c)
        [Base64.char_of (b2z a / 4);
         Base64.char_of (b2z a mod 4 * 16 + b2z b / 16);
         Base64.char_of (b2z b mod 16 * 4 + b2z c / 64);
         Base64.char_of (b2z c mod 64)]
    ++ base64url r.
Proof.
  unfold base64url. cbn [map Base64.encode].
  pose proof (b2z_range a) as Ha. pose proof (b2z_range b) as Hb.
  pose proof (b2z_range c) as Hc.
  destruct (Base64Facts.sextet_ranges (b2z a) (b2z b) (b2z c) Ha Hb Hc)
    as (H1 & _ & H2 & _ & H3 & H4).
  cbn [List.filter].
  repeat match goal with
         | |- context [Base64.char_of ?n =? Base64.pad] =>
             let E := fresh in
             destruct (Z.eqb_spec (Base64.char_of n) Base64.pad) as [E|_];
             [exfalso; revert E; apply Base64Facts.char_of_plain; assumption|]
         end.
  reflexivity.
Qed.

(** The base64url form of [n] bytes has [(4 n + 2) / 3] characters, all
    of the URL alphabet. *)
Lemma base64url_shape (l : list byte) :
  length (base64url l) = ((4 * length l + 2) / 3)%nat /\
  forallb url_safe (base64url l) = true.
Proof.
  assert (forall l, (length (base64url l) = ((4 * length l + 2) / 3)%nat /\
                     forallb url_safe (base64url l) = true) /\
                    (forall a, length (base64url (a :: l))
                               = ((4 * length (a :: l) + 2) / 3)%nat /\
                               forallb url_safe (base64url (a :: l)) = true) /\
                    (forall a b, length (base64url (a :: b :: l))
                                 = ((4 * length (a :: b :: l) + 2) / 3)%nat /\
                                 forallb url_safe (base64url (a :: b :: l)) = true))
    as Hall.
  { clear l. induction l as [|x l (IH0 & IH1 & IH2)].
    - split; [split; reflexivity|]. split.
      + intros a. pose proof (b2z_range a) as Ha.
        destruct (Base64Facts.sextet_ranges (b2z a) 0 0 Ha) as (H1 & H2 & _);
          [unfold Base64.octet; lia..|].
        unfold base64url. cbn [map Base64.encode List.filter].
        rewrite !(proj2 (Z.eqb_neq _ _) (proj2 (Base64Facts.char_of_plain _ H1))).
        rewrite !(proj2 (Z.eqb_neq _ _) (proj2 (Base64Facts.char_of_plain _ H2))).
        cbn [negb List.filter Z.eqb Base64.pad map forallb length].
        change (61 =? 61) with true. cbn [negb List.filter map forallb].
        pose proof (url_safe_char_of _ H1) as U1. pose proof (url_safe_char_of _ H2) as U2.
        cbv zeta in U1, U2. rewrite U1, U2. split; reflexivity.
      + intros a b. pose proof (b2z_range a) as Ha. pose proof (b2z_range b) as Hb.
        destruct (Base64Facts.sextet_ranges (b2z a) (b2z b) 0 Ha Hb)
          as (H1 & _ & H2 & H3 & _); [unfold Base64.octet; lia|].
        unfold base64url. cbn [map Base64.encode List.filter].
        rewrite !(proj2 (Z.eqb_neq _ _) (proj2 (Base64Facts.char_of_plain _ H1))).
        rewrite !(proj2 (Z.eqb_neq _ _) (proj2 (Base64Facts.char_of_plain _ H2))).
        rewrite !(proj2 (Z.eqb_neq _ _) (proj2 (Base64Facts.char_of_plain _ H3))).
        cbn [negb List.filter map forallb length].
        change (Base64.pad =? Base64.pad) with true. cbn [negb List.filter map forallb].
        pose proof (url_safe_char_of _ H1) as U1. pose proof (url_safe_char_of _ H2) as U2.
        pose proof (url_safe_char_of _ H3) as U3.
        cbv zeta in U1, U2, U3. rewrite U1, U2, U3. split; reflexivity.
    - split; [apply IH1|]. split; [intros a; apply IH2|].
      intros a b. rewrite base64url_cons3. destruct IH0 as [Hlen Hsafe].
      pose proof (b2z_range a) as Ha. pose proof (b2z_range b) as Hb.
      pose proof (b2z_range x) as Hx.
      destruct (Base64Facts.sextet_ranges (b2z a) (b2z b) (b2z x) Ha Hb Hx)
        as (H1 & _ & H2 & _ & H3 & H4).
      split.
      + rewrite length_app, Hlen. cbn [map length].
        replace (4 * S (S (S (length l))) + 2)%nat
          with ((4 * length l + 2) + 4 * 3)%nat by lia.
        rewrite Nat.div_add by lia. lia.
      + rewrite forallb_app, Hsafe. cbn [map forallb].
        pose proof (url_safe_char_of _ H1) as U1. pose proof (url_safe_char_of _ H2) as U2.
        pose proof (url_safe_char_of _ H3) as U3. pose proof (url_safe_char_of _ H4) as U4.
        cbv zeta in U1, U2, U3, U4. rewrite U1, U2, U3, U4. reflexivity. }
  apply Hall.
Qed.

(** What a start that answers success has done. *)
Lemma start_started (cid : list Z) (sc : list (list Z)) (pkce : bool) (port : list Z)
    (shown : bool) (now : Z) (st st' : Server) (e e' : Entropy)
    (sid : list Z) (verifier : option (list Z)) :
  start_oauth_flow cid sc pkce port shown now st e = (Started sid verifier, st', e') ->
  (exists idBytes, length idBytes = 16%nat /\ sid = toHex idBytes) /\
  (if pkce
   then exists bytes, length bytes = 32%nat /\ verifier = Some (base64url bytes)
   else verifier = None) /\
  activeSessions st' !! sid
  = Some {| sessionId := sid;
            redirectUri := js "http://localhost:" ++ port ++ js "/oauth/callback";
            result := None; completed := false;
            createdAt := now; expiresAt := now + SESSION_TIMEOUT;
            clientId := cid; scopes := sc |}.
Proof.
  unfold start_oauth_flow.
  set (st1 := if bool_decide _ then _ else st).
  destruct (bool_decide (MAX_SESSIONS <= size (activeSessions st1))%nat);
    [discriminate|].
  destruct (getRandomValues 16 e) as [idBytes e1] eqn:E1.
  assert (Hlen : length idBytes = 16%nat).
  { pose proof (getRandomValues_length 16 e) as H. rewrite E1 in H. exact H. }
  destruct pkce.
  - destruct (getRandomValues 32 e1) as [v e2] eqn:E2.
    assert (Hv : length v = 32%nat).
    { pose proof (getRandomValues_length 32 e1) as H. rewrite E2 in H. exact H. }
    destruct shown; [|discriminate]. intros [= <- <- <- <-].
    split; [eauto|]. split; [eauto|]. cbn [activeSessions].
    unfold JsObject.set.
    rewrite bool_decide_eq_false_2 by apply toHex_not_proto.
    apply lookup_insert_eq.
  - destruct shown; [|discriminate]. intros [= <- <- <- <-].
    split; [eauto|]. split; [reflexivity|]. cbn [activeSessions].
    unfold JsObject.set.
    rewrite bool_decide_eq_false_2 by apply toHex_not_proto.
    apply lookup_insert_eq.
Qed.

Lemma toHex_nonempty (l : list byte) : length l = 16%nat -> toHex l <> [].
Proof.
  intros Hl E. apply (f_equal length) in E. rewrite toHex_length, Hl in E.
  discriminate.
Qed.

(** X19: a successful ['start-oauth-flow'] returns a session id of 32
    hexadecimal digits; with PKCE it returns a code verifier of 43
    characters of the URL alphabet, without PKCE none; and the session is
    stored under the id, pending, with the deadline [SESSION_TIMEOUT]
    after the start. *)
Theorem start_oauth_flow_shape (cid : list Z) (sc : list (list Z)) (pkce : bool)
    (port : list Z) (shown : bool) (now : Z) (st st' : Server) (e e' : Entropy)
    (sid : list Z) (verifier : option (list Z)) :
  start_oauth_flow cid sc pkce port shown now st e = (Started sid verifier, st', e') ->
  length sid = 32%nat /\ forallb is_hex_digit sid = true /\
  (if pkce
   then exists v, verifier = Some v /\ length v = 43%nat /\ forallb url_safe v = true
   else verifier = None) /\
  exists s, activeSessions st' !! sid = Some s /\
            completed s = false /\ result s = None /\
            expiresAt s = now + SESSION_TIMEOUT /\
            clientId s = cid /\ scopes s = sc.
Proof.
  intros Hstart.
  destruct (start_started _ _ _ _ _ _ _ _ _ _ _ _ Hstart)
    as ((idBytes & Hlen & ->) & Hv & Hs).
  split; [rewrite toHex_length, Hlen; reflexivity|].
  split; [apply toHex_digits|]. split.
  - destruct pkce; [|exact Hv]. destruct Hv as (bytes & Hb & ->).
    exists (base64url bytes). split; [reflexivity|].
    destruct (base64url_shape bytes) as [Hl Hu]. rewrite Hl, Hb. auto.
  - eexists. split; [exact Hs|]. cbn. auto.
Qed.

(** X20: when a flow was started and the callback for its state arrives
    no later than the deadline with an error or a code, the page sent is
    the failure page exactly when there is an error, and a poll no later
    than the deadline answers with the error when there is one, whether
    or not a code came with it, and with the code otherwise; the session
    is then gone. *)
Theorem oauth_flow_delivers (cid : list Z) (sc : list (list Z)) (pkce : bool)
    (port : list Z) (shown : bool) (now : Z) (st st' : Server) (e e' : Entropy)
    (sid : list Z) (verifier code error : option (list Z)) (t1 t2 : Z) :
  start_oauth_flow cid sc pkce port shown now st e = (Started sid verifier, st', e') ->
  t1 <= now + SESSION_TIMEOUT -> t2 <= now + SESSION_TIMEOUT ->
  truthy code = true \/ truthy error = true ->
  let cb := callback (Some sid) code error t1 st' in
  let poll := check_oauth_result sid t2 cb.2 in
  cb.1 = Authorization_page (truthy error) /\
  poll.1 = match error with
           | Some (u :: t) => Failed (u :: t)
           | _ => Completed code
           end /\
  activeSessions poll.2 !! sid = None.
Proof.
  intros Hstart Ht1 Ht2 Hsome cb poll.
  destruct (start_started _ _ _ _ _ _ _ _ _ _ _ _ Hstart)
    as ((idBytes & Hlen & ->) & _ & Hs).
  pose proof (toHex_nonempty idBytes Hlen) as Hne.
  subst poll cb. unfold callback.
  destruct (toHex idBytes) as [|u0 t0] eqn:Ek; [congruence|].
  rewrite (lookup_own _ _ _ Hs). cbn [expiresAt].
  destruct (Z.ltb_spec (now + SESSION_TIMEOUT) t1) as [Hlt|_]; [lia|].
  cbn [fst snd]. split; [reflexivity|].
  unfold check_oauth_result.
  match goal with
  | |- context [lookup_session ?s ?k] =>
      rewrite (lookup_own s k _ (lookup_insert_eq _ _ _))
  end.
  cbn [complete expiresAt completed negb].
  destruct (Z.ltb_spec (now + SESSION_TIMEOUT) t2) as [Hlt|_]; [lia|].
  cbn [fst snd activeSessions]. split.
  - unfold session_result, callback_result. cbn [result].
    destruct error as [[|u t]|]; cbn [truthy] in *;
      try reflexivity;
      (destruct Hsome as [Hc|Hc]; [|discriminate]);
      rewrite Hc; reflexivity.
  - unfold JsObject.remove. apply lookup_delete_eq.
Qed.


Lemma size_set {V} (o : gmap (list Z) V) (k : list Z) (v : V) :
  (size (JsObject.set o k v) <= S (size o))%nat.
Proof.
  unfold JsObject.set.
  destruct (bool_decide (k = JsObject.proto)); [destruct (o !! k) eqn:E|];
    rewrite ?map_size_insert; try lia; destruct (o !! k); simpl; lia.
Qed.

Lemma size_cleanup (now : Z) (st : Server) :
  (size (activeSessions (cleanupExpiredSessions now st)) <= size (activeSessions st))%nat.
Proof. cbn [cleanupExpiredSessions activeSessions]. apply map_subseteq_size, map_filter_subseteq. Qed.

Lemma size_remove {V} (o : gmap (list Z) V) (k : list Z) :
  (size (JsObject.remove o k) <= size o)%nat.
Proof. apply map_subseteq_size, delete_subseteq. Qed.

Lemma bounded_handle (se : Server * Entropy) (r : request) :
  (size (activeSessions se.1) <= MAX_SESSIONS)%nat ->
  (size (activeSessions (handle se r).1) <= MAX_SESSIONS)%nat.
Proof.
  intros Hb. destruct se as [st e]. cbn [fst snd] in *.
  destruct r as [cid sc pkce port shown now|state code error now|k now|now];
    cbn [handle fst snd].
  - unfold start_oauth_flow.
    set (st1 := if bool_decide _ then _ else st).
    assert (Hb1 : (size (activeSessions st1) <= MAX_SESSIONS)%nat).
    { subst st1. destruct (bool_decide _); [|exact Hb].
      pose proof (size_cleanup now st). lia. }
    destruct (bool_decide (MAX_SESSIONS <= size (activeSessions st1))%nat) eqn:E;
      [exact Hb1|].
    apply bool_decide_eq_false in E.
    cbn [getRandomValues]. destruct pkce; cbn [fst snd activeSessions];
      match goal with
      | |- (size (JsObject.set ?o ?k ?v) <= _)%nat => pose proof (size_set o k v)
      end; lia.
  - unfold callback. destruct state as [[|u t]|]; try exact Hb.
    destruct (lookup_session st (u :: t)) as [s| |] eqn:E; try exact Hb.
    + destruct (expiresAt s <? now); cbn [snd activeSessions].
      * pose proof (size_remove (activeSessions st) (u :: t)). lia.
      * apply lookup_Own in E. rewrite map_size_insert, E. exact Hb.
    + destruct (bool_decide (u :: t = js "completed")); exact Hb.
  - unfold check_oauth_result.
    destruct (lookup_session st k) as [s| |]; try exact Hb.
    + destruct (expiresAt s <? now); [|destruct (negb (completed s)); [exact Hb|]];
        cbn [snd activeSessions];
        pose proof (size_remove (activeSessions st) k); lia.
    + destruct (negb (inherited_completed st k)); exact Hb.
  - pose proof (size_cleanup now st). lia.
Qed.

(** X22: whatever requests the module has handled since it was loaded,
    [activeSessions] never holds more than [MAX_SESSIONS] sessions. *)
Theorem oauth_sessions_bounded (reqs : list request) (e : Entropy) :
  (size (activeSessions (foldl handle (started, e) reqs).1) <= MAX_SESSIONS)%nat.
Proof.
  induction reqs as [|r reqs IH] using rev_ind.
  - cbn. rewrite map_size_empty. unfold MAX_SESSIONS. lia.
  - rewrite foldl_snoc. apply bounded_handle, IH.
Qed.

Lemma drawn_key_later (e0 : Entropy) (n m : nat) (k : list Z) (s : OAuthSession) :
  (n <= m)%nat -> drawn_key e0 n k s -> drawn_key e0 m k s.
Proof.
  intros Hnm (Hid & d & H1 & H2 & H3). split; [exact Hid|].
  exists d. split; [exact H1|]. split; [lia|exact H3].
Qed.

Lemma drawn_keys_handle (e0 : Entropy) (se : Server * Entropy) (r : request) :
  drawn_keys e0 se -> drawn_keys e0 (handle se r).
Proof.
  intros (Hs & Hd & Hk). destruct se as [st e]. cbn [fst snd] in *.
  unfold drawn_keys.
  destruct r as [cid sc pkce port shown now|state code error now|k now|now];
    cbn [handle fst snd].
  - unfold start_oauth_flow.
    set (st1 := if bool_decide _ then _ else st).
    assert (Hk1 : forall k s, activeSessions st1 !! k = Some s ->
                              drawn_key e0 (drawn e) k s).
    { subst st1. destruct (bool_decide _); [|exact Hk].
      intros k s H. cbn in H. apply map_lookup_filter_Some in H as [H _].
      apply Hk, H. }
    destruct (bool_decide (MAX_SESSIONS <= size (activeSessions st1))%nat).
    { split; [exact Hs|]. split; [exact Hd|exact Hk1]. }
    cbn [getRandomValues].
    destruct pkce; cbn [fst snd supply drawn activeSessions];
      (split; [exact Hs|]); (split; [lia|]);
      intros k s Hks; unfold JsObject.set in Hks;
      rewrite bool_decide_eq_false_2 in Hks by apply toHex_not_proto;
      (destruct (decide (k = toHex (map (supply e) (seq (drawn e) 16)))) as [->|Hne];
       [rewrite lookup_insert_eq in Hks; injection Hks as <-;
        split; [reflexivity|];
        exists (drawn e); split; [exact Hd|]; split; [lia|]; rewrite Hs; reflexivity
       |rewrite lookup_insert_ne in Hks by congruence;
        eapply drawn_key_later; [|apply Hk1, Hks]; lia]).
  - split; [exact Hs|]. split; [exact Hd|].
    unfold callback. destruct state as [[|u t]|]; try exact Hk.
    destruct (lookup_session st (u :: t)) as [s| |] eqn:E; try exact Hk.
    + apply lookup_Own in E.
      destruct (expiresAt s <? now); cbn [snd activeSessions]; intros k x Hx.
      * unfold JsObject.remove in Hx. apply lookup_delete_Some in Hx as [_ Hx].
        apply Hk, Hx.
      * destruct (decide (k = u :: t)) as [->|Hne].
        -- rewrite lookup_insert_eq in Hx. injection Hx as <-.
           destruct (Hk _ _ E) as [Hid Hdr]. split; [exact Hid|exact Hdr].
        -- rewrite lookup_insert_ne in Hx by congruence. apply Hk, Hx.
    + destruct (bool_decide (u :: t = js "completed")); exact Hk.
  - split; [exact Hs|]. split; [exact Hd|].
    unfold check_oauth_result.
    destruct (lookup_session st k) as [s| |]; try exact Hk.
    + destruct (expiresAt s <? now); [|destruct (negb (completed s)); [exact Hk|]];
        cbn [snd activeSessions]; intros k' x Hx;
        unfold JsObject.remove in Hx; apply lookup_delete_Some in Hx as [_ Hx];
        apply Hk, Hx.
    + destruct (negb (inherited_completed st k)); exact Hk.
  - split; [exact Hs|]. split; [exact Hd|].
    intros k s H. cbn in H. apply map_lookup_filter_Some in H as [H _]. apply Hk, H.
Qed.

(** A key that is there after a request was there before, or the
    request is a start and the key is the id it made of the sixteen bytes
    it drew. *)
Lemma key_after_handle (se : Server * Entropy) (r : request) (k : list Z)
    (s : OAuthSession) :
  activeSessions (handle se r).1 !! k = Some s ->
  is_Some (activeSessions se.1 !! k) \/
  exists cid sc pkce port shown now,
    r = Start_oauth_flow cid sc pkce port shown now /\
    k = toHex (getRandomValues 16 se.2).1.
Proof.
  destruct se as [st e]. cbn [fst snd].
  destruct r as [cid sc pkce port shown now|state code error now|k0 now|now];
    cbn [handle fst snd].
  - unfold start_oauth_flow.
    set (st1 := if bool_decide _ then _ else st).
    assert (Hk1 : forall s, activeSessions st1 !! k = Some s ->
                            is_Some (activeSessions st !! k)).
    { subst st1. destruct (bool_decide _); [|eauto].
      intros s' H. cbn in H. apply map_lookup_filter_Some in H as [H _]. eauto. }
    destruct (bool_decide (MAX_SESSIONS <= size (activeSessions st1))%nat).
    { intros Hk. left. eapply Hk1, Hk. }
    cbn [getRandomValues fst].
    destruct pkce; cbn [fst snd activeSessions]; intros Hks;
      apply set_lookup_Some in Hks as [->|Hks];
      [right; do 6 eexists; split; reflexivity | left; eapply Hk1, Hks
      |right; do 6 eexists; split; reflexivity | left; eapply Hk1, Hks].
  - intros Hks. left. unfold callback in Hks.
    destruct state as [[|u t]|]; eauto.
    destruct (lookup_session st (u :: t)) as [s0| |] eqn:E; eauto.
    + apply lookup_Own in E.
      destruct (expiresAt s0 <? now); cbn [snd activeSessions] in Hks.
      * unfold JsObject.remove in Hks. apply lookup_delete_Some in Hks as [_ Hks]. eauto.
      * destruct (decide (k = u :: t)) as [->|Hne]; [eauto|].
        rewrite lookup_insert_ne in Hks by congruence. eauto.
    + destruct (bool_decide (u :: t = js "completed")); eauto.
  - intros Hks. left. unfold check_oauth_result in Hks.
    destruct (lookup_session st k0) as [s0| |]; eauto.
    + destruct (expiresAt s0 <? now); [|destruct (negb (completed s0)); [eauto|]];
        cbn [snd activeSessions] in Hks; unfold JsObject.remove in Hks;
        apply lookup_delete_Some in Hks as [_ Hks]; eauto.
    + destruct (negb (inherited_completed st k0)); eauto.
  - intros Hks. left. cbn in Hks. apply map_lookup_filter_Some in Hks as [Hks _]. eauto.
Qed.

(** X29: whatever requests the module has handled since it was loaded,
    every key of [activeSessions] is an id the module made itself: it is
    the hexadecimal form of the sixteen bytes that one of the start
    requests handled so far drew from the random source, bytes the module
    has drawn since it was loaded, and the session stored under it
    carries that key as its id.  No request puts a session under another
    key: a key that is not made of sixteen bytes of the random source
    names no session. *)
Theorem session_keys_are_drawn (reqs : list request) (e : Entropy) :
  let se := foldl handle (started, e) reqs in
  (forall k s, activeSessions se.1 !! k = Some s ->
     sessionId s = k /\
     (exists reqs1 reqs2 cid sc pkce port shown now,
        reqs = reqs1 ++ Start_oauth_flow cid sc pkce port shown now :: reqs2 /\
        k = toHex (getRandomValues 16 (foldl handle (started, e) reqs1).2).1) /\
     (exists d, (drawn e <= d)%nat /\ (d + 16 <= drawn se.2)%nat /\
                k = toHex (map (supply e) (seq d 16)))) /\
  (forall k, (forall d, k <> toHex (map (supply e) (seq d 16))) ->
     activeSessions se.1 !! k = None).
Proof.
  intros se.
  assert (H : drawn_keys e se).
  { subst se. induction reqs as [|r reqs IH] using rev_ind.
    - split; [reflexivity|]. split; [reflexivity|].
      intros k s Hk. cbn in Hk. rewrite lookup_empty in Hk. discriminate.
    - rewrite foldl_snoc. apply drawn_keys_handle, IH. }
  assert (Hstart : forall k, is_Some (activeSessions se.1 !! k) ->
    exists reqs1 reqs2 cid sc pkce port shown now,
      reqs = reqs1 ++ Start_oauth_flow cid sc pkce port shown now :: reqs2 /\
      k = toHex (getRandomValues 16 (foldl handle (started, e) reqs1).2).1).
  { subst se. clear H. induction reqs as [|r reqs IH] using rev_ind.
    - intros k [s Hk]. cbn in Hk. rewrite lookup_empty in Hk. discriminate.
    - intros k [s Hk]. rewrite foldl_snoc in Hk.
      apply key_after_handle in Hk as [Hold|Hnew].
      + destruct (IH k Hold) as (r1 & r2 & cid & sc & pkce & port & shown & now & -> & Hid).
        exists r1, (r2 ++ [r]), cid, sc, pkce, port, shown, now.
        split; [|exact Hid]. rewrite <- app_assoc. reflexivity.
      + destruct Hnew as (cid & sc & pkce & port & shown & now & -> & Hid).
        exists reqs, [], cid, sc, pkce, port, shown, now. split; [reflexivity|exact Hid]. }
  destruct H as (_ & _ & Hk). split.
  - intros k s Hks. destruct (Hk k s Hks) as [Hid Hd].
    split; [exact Hid|]. split; [apply Hstart; eauto|exact Hd].
  - intros k Hno. destruct (activeSessions se.1 !! k) as [s|] eqn:E; [|reflexivity].
    destruct (Hk k s E) as (_ & d & _ & _ & Hd). destruct (Hno d Hd).
Qed.

(** X23: when the table is full, a start sweeps the expired sessions
    first: if none has expired the start fails and nothing changes, no
    random byte being drawn; if the table holds exactly [MAX_SESSIONS]
    sessions of which one has expired, the start goes through. *)
Theorem start_oauth_flow_at_capacity (cid : list Z) (sc : list (list Z)) (pkce : bool)
    (port : list Z) (now : Z) (st : Server) (e : Entropy) :
  (MAX_SESSIONS <= size (activeSessions st))%nat ->
  ((forall k s, activeSessions st !! k = Some s -> now <= expiresAt s) ->
   forall shown, start_oauth_flow cid sc pkce port shown now st e = (Start_failed, st, e)) /\
  (size (activeSessions st) = MAX_SESSIONS ->
   (exists k s, activeSessions st !! k = Some s /\ expiresAt s < now) ->
   exists sid verifier,
     (start_oauth_flow cid sc pkce port true now st e).1.1 = Started sid verifier).
Proof.
  intros Hfull. split.
  - intros Hlive shown. unfold start_oauth_flow.
    rewrite (bool_decide_eq_true_2 _ Hfull).
    assert (Hsame : cleanupExpiredSessions now st = st).
    { unfold cleanupExpiredSessions. destruct st as [m i]. cbn [activeSessions inherited_objects] in *.
      f_equal. apply map_filter_id. intros k s Hk. cbn [snd].
      specialize (Hlive k s Hk).
      destruct (Z.ltb_spec (expiresAt s) now); [lia|]. exact I. }
    rewrite Hsame. rewrite (bool_decide_eq_true_2 _ Hfull). reflexivity.
  - intros Hsize (k & s & Hk & Hexp). unfold start_oauth_flow.
    rewrite (bool_decide_eq_true_2 _ Hfull).
    rewrite bool_decide_eq_false_2.
    + cbn [getRandomValues]. destruct pkce; cbn [fst]; eauto.
    + cbn [cleanupExpiredSessions activeSessions].
      assert (Hsub : filter (fun ks : list Z * OAuthSession => negb (expiresAt ks.2 <? now))
                       (activeSessions st) ⊆ delete k (activeSessions st)).
      { apply map_subseteq_spec. intros k' s' Hk'.
        apply map_lookup_filter_Some in Hk' as [Hk' Hp]. cbn [snd] in Hp.
        apply lookup_delete_Some. split; [|exact Hk'].
        intros <-. rewrite Hk in Hk'. injection Hk' as <-.
        destruct (Z.ltb_spec (expiresAt s) now); [exact Hp|lia]. }
      apply map_subseteq_size in Hsub.
      rewrite map_size_delete, Hk in Hsub. rewrite Hsize in Hsub.
      unfold MAX_SESSIONS in *. cbn [pred] in Hsub. lia.
Qed.

End OAuthFlow.

(** ** The automation jobs *)

Module AutomationBound.
Import Automation AutomationState.

Lemma running_jobs_among (st : Scheduler) :
  running_jobs st = running_among (objects st) (map_to_list (activeJobs st)).
Proof. reflexivity. Qed.

Lemma running_among_cons (objs : list AutomationJob) (x : list Z * nat)
    (l : list (list Z * nat)) :
  running_among objs (x :: l)
  = (match objs !! x.2 with
     | Some j => if is_running j then 1 else 0
     | None => 0
     end + running_among objs l)%nat.
Proof.
  unfold running_among. cbn [omap list_omap].
  destruct (objs !! x.2) as [j|]; [|reflexivity].
  cbn [List.filter]. destruct (is_running j); reflexivity.
Qed.

Lemma running_among_perm (objs : list AutomationJob) (l l' : list (list Z * nat)) :
  l ≡ₚ l' -> running_among objs l = running_among objs l'.
Proof.
  induction 1 as [|x l l' _ IH|x y l|l l' l'' _ IH1 _ IH2].
  - reflexivity.
  - rewrite !running_among_cons, IH. reflexivity.
  - rewrite !running_among_cons. lia.
  - congruence.
Qed.

Lemma running_among_le (objs objs' : list AutomationJob) (l : list (list Z * nat)) :
  (forall x j', x ∈ l -> objs' !! x.2 = Some j' -> is_running j' = true ->
                exists j, objs !! x.2 = Some j /\ is_running j = true) ->
  (running_among objs' l <= running_among objs l)%nat.
Proof.
  induction l as [|x l IH]; intros Hall; [reflexivity|].
  rewrite !running_among_cons.
  assert (IH' := IH (fun y j' Hy => Hall y j' (list_elem_of_further _ _ _ Hy))).
  destruct (objs' !! x.2) as [j'|] eqn:E'; [|lia].
  destruct (is_running j') eqn:R'; [|lia].
  destruct (Hall x j' (list_elem_of_here _ _) E' R') as (j & -> & ->). lia.
Qed.

Lemma within_same (n : nat) (st st' : Scheduler) :
  objects st' = objects st -> activeJobs st' = activeJobs st ->
  within n st -> within n st'.
Proof.
  intros Ho Ha [Hw Hr]. split.
  - intros k r. rewrite Ha, Ho. apply Hw.
  - rewrite running_jobs_among, Ho, Ha, <- running_jobs_among. exact Hr.
Qed.

Lemma within_forget (n : nat) (k : list Z) (st : Scheduler) :
  within n st -> within n (forget k st).
Proof.
  intros [Hw Hr]. split.
  - intros k' r Hk. cbn in Hk. apply lookup_delete_Some in Hk as [_ Hk].
    apply (Hw k' r Hk).
  - rewrite running_jobs_among in *. cbn [forget objects activeJobs].
    destruct (activeJobs st !! k) as [r|] eqn:E.
    + rewrite <- (running_among_perm _ _ _ (map_to_list_delete _ _ _ E)) in Hr.
      rewrite running_among_cons in Hr. lia.
    + rewrite delete_id by exact E. exact Hr.
Qed.

Lemma within_close (n : nat) (j : AutomationJob) (st : Scheduler) :
  within n st -> within n (close_context j st).
Proof.
  unfold close_context. destruct (context j); [|auto].
  apply within_same; reflexivity.
Qed.

Lemma within_update (n : nat) (k : list Z) (f : AutomationJob -> AutomationJob)
    (st st' : Scheduler) :
  (forall j, status (f j) = running -> status j = running) ->
  update k f st = Some st' -> within n st -> within n st'.
Proof.
  intros Hf Hu [Hw Hr]. unfold update in Hu.
  destruct (activeJobs st !! k) as [r|] eqn:Ek; [|discriminate]. cbn in Hu.
  destruct (objects st !! r) as [j|] eqn:Ej; [|discriminate]. cbn in Hu.
  injection Hu as <-. split.
  - intros k' r'. cbn. rewrite length_insert. apply Hw.
  - rewrite running_jobs_among in *. cbn [objects activeJobs].
    etransitivity; [|exact Hr]. apply running_among_le.
    intros [k' r'] j' _ Hx Hrun. cbn [snd] in *.
    destruct (decide (r' = r)) as [->|Hne].
    + rewrite list_lookup_insert_eq in Hx by (eapply lookup_lt_Some, Ej).
      injection Hx as <-. exists j. split; [exact Ej|].
      unfold is_running in *. apply bool_decide_eq_true in Hrun.
      apply bool_decide_eq_true. apply Hf, Hrun.
    + rewrite list_lookup_insert_ne in Hx by congruence. eauto.
Qed.

Lemma within_fail (n : nat) (k message : list Z) (st : Scheduler) :
  within n st -> within n (fail k message st).
Proof.
  intros Hi. unfold fail.
  destruct (update k _ st) as [st'|] eqn:E; [|exact Hi]. cbn [default].
  eapply within_update; [|exact E|exact Hi]. cbn. discriminate.
Qed.

Lemma within_expire (n : nat) (now : Z) (st : Scheduler) (kr : list Z * nat) :
  within n st -> within n (expire now st kr).
Proof.
  intros Hi. unfold expire. destruct (objects st !! kr.2) as [j|]; [|exact Hi].
  destruct (expiresAt j <? now); [|exact Hi].
  apply within_forget, within_close, Hi.
Qed.

Lemma within_run_automation (now : Z) (st : Scheduler) :
  within MAX_CONCURRENT_JOBS st -> within MAX_CONCURRENT_JOBS (run_automation now st).2.
Proof.
  intros [Hw Hr]. unfold run_automation.
  destruct (bool_decide (MAX_CONCURRENT_JOBS <= _)%nat) eqn:E; [split; assumption|].
  apply bool_decide_eq_false in E.
  change (length (List.filter _ (active_objects st))) with (running_jobs st) in E.
  cbn [getRandomValues snd].
  set (k := toHex _). set (j := {| id := k |}).
  split.
  - intros k' r Hk. cbn [activeJobs objects] in *. rewrite length_app. cbn [length].
    destruct (decide (k' = k)) as [->|Hne].
    + rewrite lookup_insert_eq in Hk. injection Hk as <-. lia.
    + rewrite lookup_insert_ne in Hk by congruence. apply Hw in Hk. lia.
  - rewrite running_jobs_among in *. cbn [objects activeJobs].
    rewrite <- insert_delete_eq.
    rewrite (running_among_perm _ _ _
               (map_to_list_insert _ k (length (objects st))
                  (lookup_delete_eq (activeJobs st) k))).
    rewrite running_among_cons. cbn [snd].
    rewrite lookup_app_r, Nat.sub_diag by lia. cbn [lookup list_lookup].
    assert (running_among (objects st ++ [j]) (map_to_list (delete k (activeJobs st)))
            <= running_among (objects st) (map_to_list (activeJobs st)))%nat; [|
      destruct (is_running j); lia].
    etransitivity.
    + apply (running_among_le (objects st)). intros x j' Hx Hj' Hrun.
      destruct x as [k' r]. apply elem_of_map_to_list in Hx.
      apply lookup_delete_Some in Hx as [_ Hx]. apply Hw in Hx. cbn [snd] in *.
      rewrite lookup_app_l in Hj' by exact Hx. eauto.
    + destruct (activeJobs st !! k) as [r|] eqn:Ek.
      * rewrite <- (running_among_perm _ _ _ (map_to_list_delete _ _ _ Ek)).
        rewrite running_among_cons. lia.
      * rewrite delete_id by exact Ek. reflexivity.
Qed.

Lemma within_step (st : Scheduler) (ev : event) :
  within MAX_CONCURRENT_JOBS st -> within MAX_CONCURRENT_JOBS (step st ev).
Proof.
  intros Hi. destruct ev as [now|k thrown|k m|k r|k m|k now|n|now]; cbn [step].
  - apply within_run_automation, Hi.
  - unfold context_created. cbv zeta.
    set (st1 := {| objects := objects st; activeJobs := activeJobs st;
                   timers := timers st;
                   open_contexts := open_contexts st ∪ {[created st]};
                   created := S (created st); entropy := entropy st |}).
    assert (Hi1 : within MAX_CONCURRENT_JOBS st1)
      by (apply (within_same _ st); [reflexivity..|exact Hi]).
    destruct (update k (with_context (created st)) st1) as [st2|] eqn:E; [|exact Hi1].
    assert (Hi2 : within MAX_CONCURRENT_JOBS st2).
    { eapply within_update; [|exact E|exact Hi1]. intros j Hj. exact Hj. }
    destruct thrown; [apply within_fail|]; exact Hi2.
  - apply within_fail, Hi.
  - unfold action_returned.
    destruct (update k _ st) as [st'|] eqn:E; [|exact Hi]. cbn [default].
    eapply within_update; [|exact E|exact Hi]. cbn. discriminate.
  - apply within_fail, Hi.
  - unfold check_automation_status.
    destruct (JsObject.get (activeJobs st) k) as [r| |]; try exact Hi.
    destruct (objects st !! r) as [j|] eqn:E; [|exact Hi].
    destruct (expiresAt j <? now); cbn [snd].
    + apply within_forget, within_close, Hi.
    + destruct (bool_decide (status j = running)); [exact Hi|].
      apply (within_same _ st); [reflexivity..|exact Hi].
  - unfold timer_fired. destruct (timers st !! n) as [[r k]|]; [|exact Hi]. cbv zeta.
    set (st1 := {| objects := objects st; activeJobs := activeJobs st;
                   timers := delete n (timers st);
                   open_contexts := open_contexts st;
                   created := created st; entropy := entropy st |}).
    assert (Hi1 : within MAX_CONCURRENT_JOBS st1)
      by (apply (within_same _ st); [reflexivity..|exact Hi]).
    destruct (objects st !! r) as [j|].
    + apply within_forget, within_close, Hi1.
    + apply within_forget, Hi1.
  - unfold cleanupExpiredJobs.
    generalize (map_to_list (activeJobs st)). intros l.
    revert st Hi. induction l as [|kr l IH]; intros st Hi; [exact Hi|].
    cbn [foldl]. apply IH, within_expire, Hi.
Qed.

(** X24: whatever events the module has handled since it was set up, no
    more than [MAX_CONCURRENT_JOBS] of the jobs in [activeJobs] are
    running, and every entry of [activeJobs] refers to a job object. *)
Theorem running_jobs_bounded (evs : list event) (e : Entropy) :
  (running_jobs (run (initial e) evs) <= MAX_CONCURRENT_JOBS)%nat /\
  well_indexed (run (initial e) evs).
Proof.
  assert (H : within MAX_CONCURRENT_JOBS (run (initial e) evs)).
  { unfold run. induction evs as [|ev evs IH] using rev_ind.
    - split.
      + intros k r Hk. cbn in Hk. rewrite lookup_empty in Hk. discriminate.
      + cbn. unfold running_jobs, active_objects. cbn.
        rewrite map_to_list_empty. cbn. lia.
    - rewrite foldl_snoc. apply within_step, IH. }
  destruct H as [Hw Hr]. split; assumption.
Qed.

End AutomationBound.

Module JobLifecycle.
Import Automation AutomationState.

Lemma run_automation_accepted (now : Z) (st st1 : Scheduler) (k : list Z) :
  run_automation now st = (Accepted k, st1) ->
  (exists idBytes, k = toHex idBytes) /\
  holds st1 k (length (objects st)) (submitted k now) /\
  timers st1 = timers st /\ open_contexts st1 = open_contexts st /\
  created st1 = created st.
Proof.
  unfold run_automation. destruct (bool_decide _); [discriminate|].
  destruct (getRandomValues 8 (entropy st)) as [idBytes e']. intros [= <- <-].
  split; [eauto|].
  split; [|auto]. unfold holds. split; cbn [activeJobs objects].
  - apply lookup_insert_eq.
  - rewrite lookup_app_r, Nat.sub_diag by lia. reflexivity.
Qed.

Lemma update_holds (st : Scheduler) (k : list Z) (n : nat) (j : AutomationJob)
    (f : AutomationJob -> AutomationJob) :
  holds st k n j ->
  exists st', update k f st = Some st' /\ holds st' k n (f j) /\
              timers st' = timers st /\ open_contexts st' = open_contexts st /\
              created st' = created st.
Proof.
  intros [Hk Hn]. unfold update. rewrite Hk. cbn. rewrite Hn. cbn.
  eexists. split; [reflexivity|]. split; [|auto]. unfold holds. split; cbn [activeJobs objects].
  - exact Hk.
  - apply list_lookup_insert_eq. eapply lookup_lt_Some, Hn.
Qed.

Lemma context_created_holds (st : Scheduler) (k : list Z) (n : nat) (j : AutomationJob) :
  holds st k n j ->
  let st' := context_created k None st in
  holds st' k n (with_context (created st) j) /\
  timers st' = timers st /\
  open_contexts st' = open_contexts st ∪ {[created st]}.
Proof.
  intros Hh st'. subst st'. unfold context_created. cbv zeta.
  set (st1 := {| objects := objects st; activeJobs := activeJobs st;
                 timers := timers st;
                 open_contexts := open_contexts st ∪ {[created st]};
                 created := S (created st); entropy := entropy st |}).
  destruct (update_holds st1 k n j (with_context (created st)) Hh)
    as (st2 & -> & Hh2 & Ht & Ho & _).
  split; [exact Hh2|]. split; [exact Ht|exact Ho].
Qed.

Lemma action_returned_holds (st : Scheduler) (k : list Z) (n : nat) (j : AutomationJob)
    (r : list Z) :
  holds st k n j ->
  let st' := action_returned k r st in
  holds st' k n (with_result r (with_status completed j)) /\
  timers st' = timers st /\ open_contexts st' = open_contexts st.
Proof.
  intros Hh st'. subst st'. unfold action_returned.
  destruct (update_holds st k n j (fun j => with_result r (with_status completed j)) Hh)
    as (st2 & -> & Hh2 & Ht & Ho & _).
  cbn [default]. auto.
Qed.

Lemma fail_holds (st : Scheduler) (k : list Z) (n : nat) (j : AutomationJob)
    (message : list Z) :
  holds st k n j ->
  let st' := fail k message st in
  holds st' k n (with_error (match message with
                             | [] => js "Unknown error"
                             | _ => message
                             end) (with_status failed j)) /\
  timers st' = timers st /\ open_contexts st' = open_contexts st.
Proof.
  intros Hh st'. subst st'. unfold fail. cbv zeta.
  destruct (update_holds st k n j
              (fun j => with_error (match message with
                                    | [] => js "Unknown error"
                                    | _ => message
                                    end) (with_status failed j)) Hh)
    as (st2 & -> & Hh2 & Ht & Ho & _).
  cbn [default]. auto.
Qed.

(** The status check of a job that has finished and has not expired. *)
Lemma check_finished (st : Scheduler) (k : list Z) (n : nat) (j : AutomationJob)
    (t : Z) :
  holds st k n j -> t <= expiresAt j -> status j <> running ->
  check_automation_status k t st
  = (Job_status (bool_decide (status j <> failed)) (status j) (result j) (error j),
     {| objects := objects st; activeJobs := activeJobs st;
        timers := timers st ++ [(n, k)];
        open_contexts := open_contexts st;
        created := created st; entropy := entropy st |}).
Proof.
  intros [Hk Hn] Ht Hs. unfold check_automation_status.
  rewrite (OAuthClaims.get_own _ _ _ Hk), Hn.
  destruct (Z.ltb_spec (expiresAt j) t); [lia|].
  rewrite (bool_decide_eq_false_2 (status j = running) Hs). reflexivity.
Qed.

(** The timer a status check has set, when it fires. *)
Lemma timer_fired_last (st : Scheduler) (k : list Z) (n : nat) (j : AutomationJob)
    (l : list (nat * list Z)) (c : nat) :
  timers st = l ++ [(n, k)] -> objects st !! n = Some j -> context j = Some c ->
  activeJobs (timer_fired (length l) st) = delete k (activeJobs st) /\
  open_contexts (timer_fired (length l) st) = open_contexts st ∖ {[c]}.
Proof.
  intros Ht Hn Hc. unfold timer_fired.
  rewrite Ht, lookup_app_r, Nat.sub_diag by lia. cbn [lookup list_lookup].
  rewrite Hn. unfold close_context. rewrite Hc. cbn. auto.
Qed.

(** X25: the life of a job that succeeds.  After ['run-automation']
    accepted it, the context was created and the action returned [r], a
    status check no later than the deadline reports the job completed
    with result [r] while its browser context is still open; when the
    timer set by that check fires, the job is deleted and the context is
    closed. *)
Theorem job_completes_and_is_released (now t : Z) (st st1 : Scheduler)
    (k r : list Z) :
  run_automation now st = (Accepted k, st1) ->
  t <= now + JOB_TIMEOUT ->
  created st ∉ open_contexts st ->
  let st3 := action_returned k r (context_created k None st1) in
  let checked := check_automation_status k t st3 in
  let st5 := timer_fired (length (timers st)) checked.2 in
  checked.1 = Job_status true completed (Some r) None /\
  (created st ∈ open_contexts checked.2) /\
  activeJobs st5 !! k = None /\
  open_contexts st5 = open_contexts st.
Proof.
  intros Hrun Ht Hfresh st3 checked st5.
  destruct (run_automation_accepted _ _ _ _ Hrun) as (_ & Hh1 & Ht1 & Ho1 & Hc1).
  destruct (context_created_holds _ _ _ _ Hh1) as (Hh2 & Ht2 & Ho2).
  destruct (action_returned_holds _ _ _ _ r Hh2) as (Hh3 & Ht3 & Ho3).
  assert (Hchk := check_finished _ k _ _ t Hh3).
  cbn [with_result with_status with_context submitted expiresAt status result error]
    in Hchk.
  specialize (Hchk Ht ltac:(discriminate)).
  rewrite bool_decide_eq_true_2 in Hchk by discriminate.
  subst st5 checked st3. rewrite Hchk. cbn [fst snd].
  split; [reflexivity|]. cbn [open_contexts].
  rewrite Ho3, Ho2, Ho1, Hc1.
  split; [apply elem_of_union; right; apply elem_of_singleton; reflexivity|].
  match goal with
  | |- context [timer_fired _ ?s] =>
      destruct (timer_fired_last s k (length (objects st))
                  (with_result r (with_status completed
                     (with_context (created st1) (submitted k now))))
                  (timers st) (created st1)) as [Ha Ho]
  end.
  - cbn [timers]. rewrite Ht3, Ht2, Ht1. reflexivity.
  - cbn [objects]. apply Hh3.
  - reflexivity.
  - rewrite Ha, Ho. cbn [activeJobs open_contexts].
    rewrite ?Ho3, ?Ho2, ?Ho1, ?Hc1. split; [apply lookup_delete_eq|].
    apply set_eq. intros x. rewrite elem_of_difference, elem_of_union,
      elem_of_singleton. split; [intros [[?|?] ?]; [assumption|contradiction]|].
    intros Hx. split; [left; exact Hx|]. intros ->. contradiction.
Qed.

(** X26: the life of a job that fails.  When the context was created and
    the action threw, or when the launch itself threw, a status check no
    later than the deadline reports failure with the message thrown, or
    with 'Unknown error' when the message is empty; in the first case the
    context is still open at that point. *)
Theorem job_failure_is_reported (now t : Z) (st st1 : Scheduler)
    (k message : list Z) :
  run_automation now st = (Accepted k, st1) ->
  t <= now + JOB_TIMEOUT ->
  let reported := match message with [] => js "Unknown error" | _ => message end in
  let thrown := check_automation_status k t (context_created k (Some message) st1) in
  let unlaunched := check_automation_status k t (fail k message st1) in
  thrown.1 = Job_status false failed None (Some reported) /\
  (created st ∈ open_contexts thrown.2) /\
  unlaunched.1 = Job_status false failed None (Some reported) /\
  open_contexts unlaunched.2 = open_contexts st.
Proof.
  intros Hrun Ht reported thrown unlaunched.
  destruct (run_automation_accepted _ _ _ _ Hrun) as (_ & Hh1 & Ht1 & Ho1 & Hc1).
  split; [|split; [|split]].
  - subst thrown. unfold context_created. cbv zeta.
    set (s1 := {| objects := objects st1; activeJobs := activeJobs st1;
                  timers := timers st1;
                  open_contexts := open_contexts st1 ∪ {[created st1]};
                  created := S (created st1); entropy := entropy st1 |}).
    destruct (update_holds s1 k _ _ (with_context (created st1)) Hh1)
      as (s2 & -> & Hh2 & _ & _ & _).
    destruct (fail_holds _ _ _ _ message Hh2) as (Hh3 & _ & _).
    rewrite (check_finished _ k _ _ t Hh3); [|exact Ht|discriminate].
    cbn. reflexivity.
  - subst thrown. unfold context_created. cbv zeta.
    set (s1 := {| objects := objects st1; activeJobs := activeJobs st1;
                  timers := timers st1;
                  open_contexts := open_contexts st1 ∪ {[created st1]};
                  created := S (created st1); entropy := entropy st1 |}).
    destruct (update_holds s1 k _ _ (with_context (created st1)) Hh1)
      as (s2 & -> & Hh2 & _ & Ho2 & _).
    destruct (fail_holds _ _ _ _ message Hh2) as (Hh3 & _ & Ho3).
    rewrite (check_finished _ k _ _ t Hh3); [|exact Ht|discriminate].
    cbn [snd open_contexts]. rewrite Ho3, Ho2. subst s1. cbn [open_contexts].
    rewrite Hc1. apply elem_of_union. right. apply elem_of_singleton. reflexivity.
  - subst unlaunched.
    destruct (fail_holds _ _ _ _ message Hh1) as (Hh3 & _ & _).
    rewrite (check_finished _ k _ _ t Hh3); [|exact Ht|discriminate].
    cbn. reflexivity.
  - subst unlaunched.
    destruct (fail_holds _ _ _ _ message Hh1) as (Hh3 & _ & Ho3).
    rewrite (check_finished _ k _ _ t Hh3); [|exact Ht|discriminate].
    cbn [snd open_contexts]. rewrite Ho3. exact Ho1.
Qed.


End JobLifecycle.

(** ** The theorems on the examples *)

Lemma start_oauth_flow_shape_witness :
  OAuth.start_oauth_flow (js "client") [js "openid"] true (js "49152") true 1000
    OAuth.started Model.entropy0
  = (OAuth.Started OAuthExamples.sid (Some FlowExamples.verifier_pkce),
     FlowExamples.flow_pkce.1.2, FlowExamples.flow_pkce.2) /\
  length OAuthExamples.sid = 32%nat /\
  exists v, Some FlowExamples.verifier_pkce = Some v /\ length v = 43%nat /\
            forallb url_safe v = true.
Proof.
  assert (H : OAuth.start_oauth_flow (js "client") [js "openid"] true (js "49152")
                true 1000 OAuth.started Model.entropy0
              = (OAuth.Started OAuthExamples.sid (Some FlowExamples.verifier_pkce),
                 FlowExamples.flow_pkce.1.2, FlowExamples.flow_pkce.2))
    by (vm_compute; reflexivity).
  split; [exact H|].
  destruct (OAuthFlow.start_oauth_flow_shape _ _ _ _ _ _ _ _ _ _ _ _ H)
    as (Hl & _ & Hv & _).
  split; [exact Hl|exact Hv].
Defined.

Lemma oauth_flow_delivers_witness :
  OAuth.start_oauth_flow (js "client") [js "openid"] false (js "49152") true 1000
    OAuth.started Model.entropy0
  = (OAuth.Started OAuthExamples.sid None, OAuthExamples.live, OAuthExamples.flow.2) /\
  (OAuth.check_oauth_result OAuthExamples.sid 3000
     (OAuth.callback (Some OAuthExamples.sid) (Some (js "abc")) None 2000
        OAuthExamples.live).2).1
  = OAuth.Completed (Some (js "abc")).
Proof.
  assert (H : OAuth.start_oauth_flow (js "client") [js "openid"] false (js "49152")
                true 1000 OAuth.started Model.entropy0
              = (OAuth.Started OAuthExamples.sid None, OAuthExamples.live,
                 OAuthExamples.flow.2))
    by (vm_compute; reflexivity).
  split; [exact H|].
  refine (proj1 (proj2 (OAuthFlow.oauth_flow_delivers _ _ _ _ _ _ _ _ _ _ _ _
                          (Some (js "abc")) None 2000 3000 H _ _ _))).
  - unfold OAuth.SESSION_TIMEOUT. lia.
  - unfold OAuth.SESSION_TIMEOUT. lia.
  - left. reflexivity.
Defined.


Lemma session_keys_are_drawn_witness :
  let reqs := [OAuth.Start_oauth_flow (js "client") [js "openid"] false (js "49152")
                 true 1000;
               OAuth.Callback (Some OAuthExamples.sid) (Some (js "abc")) None 2000] in
  let se := foldl OAuth.handle (OAuth.started, Model.entropy0) reqs in
  is_Some (OAuth.activeSessions se.1 !! OAuthExamples.sid) /\
  (exists d, (d + 16 <= drawn se.2)%nat /\
             OAuthExamples.sid = toHex (map (supply Model.entropy0) (seq d 16))) /\
  OAuth.activeSessions se.1 !! js "abc" = None.
Proof.
  intros reqs se.
  destruct (OAuth.activeSessions se.1 !! OAuthExamples.sid) as [s|] eqn:Hs;
    [|vm_compute in Hs; discriminate].
  destruct (OAuthFlow.session_keys_are_drawn reqs Model.entropy0) as [Hkeys Hnone].
  destruct (Hkeys OAuthExamples.sid s Hs) as (_ & _ & d & _ & Hd & Hk).
  split; [eauto|]. split; [exists d; split; [exact Hd|exact Hk]|].
  apply Hnone. intros d' Heq. apply (f_equal length) in Heq.
  rewrite toHex_length, length_map, length_seq in Heq. discriminate.
Defined.

Lemma start_oauth_flow_at_capacity_witness :
  (OAuth.MAX_SESSIONS <= size (OAuth.activeSessions FlowExamples.crowded.1))%nat /\
  exists sid verifier,
    (OAuth.start_oauth_flow (js "client") [js "openid"] false (js "49152") true
       901001 FlowExamples.crowded.1 FlowExamples.crowded.2).1.1
    = OAuth.Started sid verifier.
Proof.
  assert (H : size (OAuth.activeSessions FlowExamples.crowded.1) = OAuth.MAX_SESSIONS)
    by (vm_compute; reflexivity).
  assert (H' : (OAuth.MAX_SESSIONS <= size (OAuth.activeSessions FlowExamples.crowded.1))%nat)
    by (rewrite H; apply Nat.le_refl).
  split; [exact H'|].
  apply (proj2 (OAuthFlow.start_oauth_flow_at_capacity (js "client") [js "openid"] false
                  (js "49152") 901001 FlowExamples.crowded.1 FlowExamples.crowded.2 H')).
  - exact H.
  - exists FlowExamples.first_sid, FlowExamples.first_session. split.
    + vm_compute. reflexivity.
    + vm_compute. reflexivity.
Defined.

Lemma cleanupExpiredJobs_releases_witness :
  Automation.activeJobs
    (Automation.cleanupExpiredJobs (Automation.JOB_TIMEOUT + 1) JobExamples.with_browser)
  !! AutomationExamples.first_job = None /\
  0%nat ∉ Automation.open_contexts
            (Automation.cleanupExpiredJobs (Automation.JOB_TIMEOUT + 1)
               JobExamples.with_browser).
Proof.
  apply (SweepFacts.cleanupExpiredJobs_releases (Automation.JOB_TIMEOUT + 1)
           JobExamples.with_browser AutomationExamples.first_job 0
           (Automation.with_context 0
              (AutomationState.submitted AutomationExamples.first_job 0)) 0).
  - vm_compute. reflexivity.
  - vm_compute. reflexivity.
  - vm_compute. reflexivity.
  - reflexivity.
Defined.

Lemma job_completes_and_is_released_witness :
  Automation.run_automation 0 (Automation.initial Model.entropy0)
  = (Automation.Accepted AutomationExamples.first_job, JobExamples.accepted.2) /\
  (Automation.check_automation_status AutomationExamples.first_job 5
     (Automation.action_returned AutomationExamples.first_job (js "sk-1")
        JobExamples.with_browser)).1
  = Automation.Job_status true Automation.completed (Some (js "sk-1")) None.
Proof.
  assert (H : Automation.run_automation 0 (Automation.initial Model.entropy0)
              = (Automation.Accepted AutomationExamples.first_job,
                 JobExamples.accepted.2))
    by (vm_compute; reflexivity).
  split; [exact H|].
  refine (proj1 (JobLifecycle.job_completes_and_is_released 0 5 _ _ _ (js "sk-1")
                   H _ _)).
  - unfold Automation.JOB_TIMEOUT. lia.
  - cbn. apply not_elem_of_empty.
Defined.

Lemma job_failure_is_reported_witness :
  Automation.run_automation 0 (Automation.initial Model.entropy0)
  = (Automation.Accepted AutomationExamples.first_job, JobExamples.accepted.2) /\
  (Automation.check_automation_status AutomationExamples.first_job 5
     (Automation.context_created AutomationExamples.first_job (Some [])
        JobExamples.accepted.2)).1
  = Automation.Job_status false Automation.failed None (Some (js "Unknown error")).
Proof.
  assert (H : Automation.run_automation 0 (Automation.initial Model.entropy0)
              = (Automation.Accepted AutomationExamples.first_job,
                 JobExamples.accepted.2))
    by (vm_compute; reflexivity).
  split; [exact H|].
  refine (proj1 (JobLifecycle.job_failure_is_reported 0 5 _ _ _ [] H _)).
  unfold Automation.JOB_TIMEOUT. lia.
Defined.

